(** * safe-control-gym: CVaR-driven hyperparameter search, GP kernels and
      closed-form GP prediction

    A shallow embedding of

      - [safe_control_gym/hyperparameters/hpo.py]  (class [HPO]) and
      - [safe_control_gym/controllers/mpc/gp_utils.py]
        (kernels, [GaussianProcess], [GaussianProcessCollection]).

    Conventions of the embedding.

      - Python floats that the search loop manipulates are exact rationals
        ([Q]) extended with the IEEE specials the code really produces
        ([np.inf] as the initial baseline, [nan] as the mean of an empty
        slice).  Rounding is not modelled.
      - The CasADi expressions of [gp_utils.py] denote real functions; they
        are embedded over [R].
      - Exceptions are values of [exn]; a call either returns or raises.
      - The learning agent, the Optuna study, gpytorch and torch are external:
        what the code reads from them is a parameter of the model. *)

From Stdlib Require Import String.
From Stdlib Require Import List ZArith QArith Qabs Qround Bool Lia.
From Stdlib Require Import Permutation Sorted Reals Psatz Arith.
Import ListNotations.

(* ================================================================= *)
(** * Part I.  Definitions                                             *)
(* ================================================================= *)

(** ** Python values shared by the models *)

Inductive exn : Type :=
| AgentError        (* a runtime fault raised by the external agent *)
| AttributeError
| IndexError
| ValueError
| AssertionError
| TypeError
| RuntimeError
| ZeroDivisionError
| UnboundLocalError.

Inductive result (A : Type) : Type :=
| Ok (a : A)
| Raise (e : exn).
Arguments Ok {A} a.
Arguments Raise {A} e.

(** A float as the search loop sees it: a finite value, an infinity or nan. *)
Inductive xfloat : Type :=
| Fin (q : Q)
| PInf
| NInf
| NaN.

Section FloatOps.
Local Open Scope Q_scope.

(** [a - b] *)
Definition xsub (a b : xfloat) : xfloat :=
  match a, b with
  | NaN, _ | _, NaN => NaN
  | Fin x, Fin y => Fin (x - y)
  | Fin _, PInf => NInf
  | Fin _, NInf => PInf
  | PInf, PInf => NaN
  | PInf, _ => PInf
  | NInf, NInf => NaN
  | NInf, _ => NInf
  end.

(** [abs(a)] *)
Definition xabs (a : xfloat) : xfloat :=
  match a with
  | Fin x => Fin (Qabs x)
  | PInf | NInf => PInf
  | NaN => NaN
  end.

(** Decidable strict order on rationals: [Qltb x y] is [x < y]. *)
Definition Qltb (x y : Q) : bool := negb (Qle_bool y x).

(** [a > b]; every comparison with nan is false. *)
Definition xgt (a b : xfloat) : bool :=
  match a, b with
  | NaN, _ | _, NaN => false
  | Fin x, Fin y => Qltb y x
  | PInf, PInf => false
  | PInf, _ => true
  | NInf, _ => false
  | Fin _, NInf => true
  | Fin _, PInf => false
  end.

(** Equality of floats up to the representation of the rational. *)
Definition xeq (a b : xfloat) : Prop :=
  match a, b with
  | Fin x, Fin y => x == y
  | PInf, PInf | NInf, NInf | NaN, NaN => True
  | _, _ => False
  end.

End FloatOps.

(** ** [HPO._compute_cvar] (hpo.py, lines 306-322) *)

Section CVaR.
Local Open Scope Q_scope.

(** [np.sort]: the batch in ascending order (insertion sort). *)
Fixpoint insert_sorted (x : Q) (l : list Q) : list Q :=
  match l with
  | [] => [x]
  | y :: l' => if Qle_bool x y then x :: l else y :: insert_sorted x l'
  end.

Fixpoint np_sort (l : list Q) : list Q :=
  match l with
  | [] => []
  | x :: l' => insert_sorted x (np_sort l')
  end.

(** [int(q)]: Python truncates towards zero. *)
Definition py_int (q : Q) : Z := Z.quot (Qnum q) (Zpos (Qden q)).

(** A Python slice bound [i] on a sequence of length [n]: negative bounds
    count from the end, and every bound is clipped to [0..n]. *)
Definition slice_index (n : nat) (i : Z) : nat :=
  if (i <? 0)%Z then Z.to_nat (Z.max 0 (Z.of_nat n + i))
  else Nat.min n (Z.to_nat i).

(** [l[i:]] and [l[:i]] *)
Definition slice_from (i : Z) (l : list Q) : list Q :=
  skipn (slice_index (length l) i) l.
Definition slice_to (i : Z) (l : list Q) : list Q :=
  firstn (slice_index (length l) i) l.

Definition Qsum (l : list Q) : Q := fold_right Qplus 0 l.

(** [a.mean()]: nan on an empty array. *)
Definition np_mean (l : list Q) : xfloat :=
  match l with
  | [] => NaN
  | _ => Fin (Qsum l / inject_Z (Z.of_nat (length l)))
  end.

(** [self.hpo_config.direction[0]] raises on an empty list; the test is
    against the literal ["minimize"], anything else takes the other branch. *)
Definition _compute_cvar (direction : list string) (returns : list Q)
  (alpha : Q) : result xfloat :=
  let sorted_returns := np_sort returns in
  let n := length sorted_returns in
  let VaR_idx := py_int (alpha * inject_Z (Z.of_nat n)) in
  let VaR_idx := if (VaR_idx =? 0)%Z then 1%Z else VaR_idx in
  match direction with
  | [] => Raise IndexError
  | d0 :: _ =>
      if String.eqb d0 "minimize"
      then Ok (np_mean (slice_from (- VaR_idx) sorted_returns))
      else Ok (np_mean (slice_to VaR_idx sorted_returns))
  end.

(** How many values the summary is meant to use: [max(1, floor(alpha*n))]. *)
Definition cvar_count (alpha : Q) (n : nat) : nat :=
  Z.to_nat (Z.max 1 (Qfloor (alpha * inject_Z (Z.of_nat n)))).

(** [sel] is a choice of [k] values of [batch] that [dominates] the rest:
    with [dominates b a := b <= a] the [k] largest values, with
    [dominates b a := a <= b] the [k] smallest. *)
Definition tail_of (dominates : Q -> Q -> Prop) (k : nat)
  (batch sel others : list Q) : Prop :=
  Permutation (others ++ sel) batch /\
  length sel = k /\
  forall a b, In a sel -> In b others -> dominates b a.

Definition largest_first (b a : Q) : Prop := b <= a.
Definition smallest_first (b a : Q) : Prop := a <= b.

End CVaR.

(** ** [HPO.objective] (hpo.py, lines 73-196) *)

Section Objective.
Local Open Scope Q_scope.

(** The fields of [hpo_config] the objective and the perturbation read. *)
Record hpo_config : Type := {
  cfg_objective : list string;
  direction : list string;
  alpha : Q;
  repetitions : nat;
  warm_trials : Z;
  dynamical_runs : bool;
  approximation_threshold : Q;
  divisor : Q;
  side_perturb_num : nat
}.

(** What the objective reads from the Optuna study: [len(study.trials)]
    (the running trial is one of them) and [study.best_value]. *)
Record study : Type := {
  trials_len : nat;
  best_value : Q
}.

(** The external agent, by what the objective observes of it. *)
Record agent : Type := {
  learn_raises : bool;                       (* [_learn()] raises *)
  run_result : option Q;                     (* [_run()]; [None]: it raises *)
  learning_curve : option (list Q * list Q)  (* [mean_returns], [steps] *)
}.

(** [make(...)] then [agent.reset()]: [make] raises, or the agent is bound to
    [self.agent] and [reset] may still raise. *)
Inductive construction : Type :=
| MakeRaises
| Made (a : agent) (reset_raises : bool).

(** One draw of the repeat loop: the seed and the agent it leads to. *)
Record repetition : Type := {
  rep_seed : nat;
  rep_make : construction
}.

Inductive log_event : Type :=
| LogTrial
| LogSeeds (seeds : list nat)
| LogConstructFault
| LogLearnFault
| LogRewards (returns : list Q)
| LogTrigger
| LogCVaR (v : xfloat).

(** [self.agent], [self.total_runs], the logger and the three local lists. *)
Record trial_state : Type := {
  agent_slot : option agent;
  total_runs : nat;
  log : list log_event;
  returns : list Q;
  efficiencies : list Q;
  seeds : list nat
}.

Definition add_log (e : log_event) (st : trial_state) : trial_state :=
  {| agent_slot := agent_slot st; total_runs := total_runs st;
     log := log st ++ [e]; returns := returns st;
     efficiencies := efficiencies st; seeds := seeds st |}.

Definition set_agent (a : option agent) (st : trial_state) : trial_state :=
  {| agent_slot := a; total_runs := total_runs st;
     log := log st; returns := returns st;
     efficiencies := efficiencies st; seeds := seeds st |}.

Definition push_seed (s : nat) (st : trial_state) : trial_state :=
  {| agent_slot := agent_slot st; total_runs := total_runs st;
     log := log st; returns := returns st;
     efficiencies := efficiencies st; seeds := seeds st ++ [s] |}.

Definition push_scores (r e : Q) (st : trial_state) : trial_state :=
  {| agent_slot := agent_slot st; total_runs := total_runs st;
     log := log st; returns := returns st ++ [r];
     efficiencies := efficiencies st ++ [e]; seeds := seeds st |}.

Definition count_run (st : trial_state) : trial_state :=
  {| agent_slot := agent_slot st; total_runs := S (total_runs st);
     log := log st; returns := returns st;
     efficiencies := efficiencies st; seeds := seeds st |}.

(** [np.where(mean_returns >= 0.7*avg_return)[0]]: the indices, ascending. *)
Fixpoint np_where_ge (mean_returns : list Q) (bound : Q) (i : nat) : list nat :=
  match mean_returns with
  | [] => []
  | m :: ms =>
      if Qle_bool bound m then i :: np_where_ge ms bound (S i)
      else np_where_ge ms bound (S i)
  end.

(** Lines 150-159: the learning-efficiency metric. *)
Definition efficiency_of (a : agent) (avg_return : Q) : result Q :=
  match learning_curve a with
  | None => Ok 0
  | Some (mean_returns, steps) =>
      match np_where_ge mean_returns ((7 # 10) * avg_return) 0 with
      | [] => Ok 0
      | i :: _ =>
          match nth_error mean_returns i, nth_error steps i with
          | Some m, Some s => Ok (m / s)
          | _, _ => Raise IndexError
          end
      end
  end.

(** How one pass through the body of the [for] loop ends. *)
Inductive rep_outcome : Type :=
| Continue (st : trial_state)            (* next seed *)
| Break (st : trial_state)               (* [break]: the batch is abandoned *)
| Propagate (e : exn) (st : trial_state) (* the exception leaves [objective] *).

(** Lines 100-125: draw the seed, build the agent; a fault is logged. *)
Definition construct (r : repetition) (st : trial_state) : trial_state :=
  let st := add_log (LogSeeds (seeds (push_seed (rep_seed r) st)))
              (push_seed (rep_seed r) st) in
  match rep_make r with
  | MakeRaises => add_log LogConstructFault st
  | Made a false => set_agent (Some a) st
  | Made a true => add_log LogConstructFault (set_agent (Some a) st)
  end.

(** Lines 129-168: learn, run, score.  [self.agent] may be unbound: reading it
    then raises [AttributeError], inside the [try] (caught) or inside the
    handler (not caught). *)
Definition learn_and_score (st : trial_state) : rep_outcome :=
  match agent_slot st with
  | None => Propagate AttributeError st
  | Some a =>
      if learn_raises a then
        Break (push_scores 0 0 (add_log LogLearnFault (set_agent None st)))
      else
        let st := count_run st in
        match run_result a with
        | None => Propagate AgentError st
        | Some avg_return =>
            match efficiency_of a avg_return with
            | Raise e => Propagate e st
            | Ok efficiency =>
                let st := push_scores avg_return efficiency st in
                Continue (set_agent None (add_log (LogRewards (returns st)) st))
            end
        end
  end.

Definition run_repetition (r : repetition) (st : trial_state) : rep_outcome :=
  learn_and_score (construct r st).

End Objective.

Section ObjectiveLoop.
Local Open Scope Q_scope.

(** The configuration, the study and the outside world are fixed during one
    call: [world i] is what the [i]-th draw of this call (counting from 0
    over all batches) produces. *)
Variable cfg : hpo_config.
Variable stdy : study.
Variable world : nat -> repetition.

Inductive batch_outcome : Type :=
| Completed (st : trial_state)
| Propagated (e : exn) (st : trial_state).

(** Lines 98-168: [for i in range(self.hpo_config.repetitions)]. *)
Fixpoint run_batch (n : nat) (st : trial_state) : batch_outcome :=
  match n with
  | O => Completed st
  | S n' =>
      match run_repetition (world (List.length (seeds st))) st with
      | Continue st' => run_batch n' st'
      | Break st' => Completed st'
      | Propagate e st' => Propagated e st'
      end
  end.

(** Lines 174-182: whether [increase_runs] is set after a summarize pass.
    [Gs_rew] is the baseline of the previous pass, [Gss_rew] the new CVaR. *)
Definition escalate (first_iteration : bool) (Gs_rew Gss_rew : xfloat) : bool :=
  if ((warm_trials cfg <? Z.of_nat (trials_len stdy))%Z && dynamical_runs cfg)%bool
  then
    if (xgt Gss_rew (Fin (best_value stdy)) || negb first_iteration)%bool
    then xgt (xabs (xsub Gs_rew Gss_rew)) (Fin (approximation_threshold cfg))
    else false
  else false.

Inductive loop_outcome : Type :=
| Finalized (Gss_rew Gss_eff : xfloat) (st : trial_state)
| Raised (e : exn) (st : trial_state)
| OutOfFuel.

(** Lines 93-182: [while increase_runs].  Each unit of fuel pays for one
    batch; the loop has no bound of its own. *)
Fixpoint objective_loop (fuel : nat) (first_iteration : bool)
  (Gs_rew Gs_eff : xfloat) (st : trial_state) : loop_outcome :=
  match fuel with
  | O => OutOfFuel
  | S fuel' =>
      let Gs_rew := if first_iteration then PInf else Gs_rew in
      let Gs_eff := if first_iteration then PInf else Gs_eff in
      match run_batch (repetitions cfg) st with
      | Propagated e st' => Raised e st'
      | Completed st' =>
          match _compute_cvar (direction cfg) (returns st') (alpha cfg),
                _compute_cvar (direction cfg) (efficiencies st') (alpha cfg) with
          | Raise e, _ => Raised e st'
          | _, Raise e => Raised e st'
          | Ok Gss_rew, Ok Gss_eff =>
              if escalate first_iteration Gs_rew Gss_rew
              then objective_loop fuel' false Gss_rew Gss_eff
                     (add_log LogTrigger st')
              else Finalized Gss_rew Gss_eff st'
          end
      end
  end.

(** What [objective] hands back to the study. *)
Inductive objective_value : Type :=
| Single (v : xfloat)
| Both (return_cvar efficiency_cvar : xfloat).

Inductive call_outcome : Type :=
| Returned (v : objective_value) (st : trial_state)
| Failed (e : exn) (st : trial_state)
| Diverged.

Definition mentions (name : string) (l : list string) : bool :=
  existsb (String.eqb name) l.

(** Lines 184-196: the composition of the result. *)
Definition compose (return_cvar efficiency_cvar : xfloat)
  : result objective_value :=
  let perf := mentions "performance" (cfg_objective cfg) in
  let eff := mentions "efficiency" (cfg_objective cfg) in
  if (perf && negb eff)%bool then Ok (Single return_cvar)
  else if (eff && negb perf)%bool then Ok (Single efficiency_cvar)
  else if (perf && eff)%bool then Ok (Both return_cvar efficiency_cvar)
  else Raise ValueError.

(** The state a call starts from: [self.agent] and [self.total_runs] as the
    object has them, empty local lists. *)
Definition enter (slot : option agent) (runs : nat) : trial_state :=
  {| agent_slot := slot; total_runs := runs; log := [LogTrial];
     returns := []; efficiencies := []; seeds := [] |}.

Definition objective (fuel : nat) (slot : option agent) (runs : nat)
  : call_outcome :=
  match objective_loop fuel true PInf PInf (enter slot runs) with
  | OutOfFuel => Diverged
  | Raised e st => Failed e st
  | Finalized return_cvar efficiency_cvar st =>
      let st := add_log (LogCVaR return_cvar) st in
      match compose return_cvar efficiency_cvar with
      | Ok v => Returned v st
      | Raise e => Failed e st
      end
  end.

(** The escalation rule in the specification's words: the new CVaR
    "strictly improves on the best value", read by the configured direction
    (smaller is better when minimizing, larger otherwise).  The gate "at
    least [warm_trials] trials exist" counts the trials before the running
    one, which is the code's [warm_trials < len(study.trials)]. *)
Definition improves_on (new best : xfloat) : bool :=
  match direction cfg with
  | d0 :: _ => if String.eqb d0 "minimize" then xgt best new else xgt new best
  | [] => false
  end.

Definition escalate_as_specified (first_iteration : bool)
  (Gs_rew Gss_rew : xfloat) : bool :=
  ((warm_trials cfg <? Z.of_nat (trials_len stdy))%Z && dynamical_runs cfg
   && (negb first_iteration || improves_on Gss_rew (Fin (best_value stdy)))
   && xgt (xabs (xsub Gs_rew Gss_rew)) (Fin (approximation_threshold cfg)))%bool.

End ObjectiveLoop.

(** ** [GaussianProcess.train]: the optimisation loop (gp_utils.py, 946-977) *)

Section TrainLoop.
Local Open Scope Q_scope.

(** The optimiser and the likelihood are gpytorch's: [train_loss i] and
    [test_loss i] are the two losses the model yields after [i] optimiser
    steps. *)
Variable train_loss : nat -> Q.
Variable test_loss : nat -> Q.

Record train_state : Type := {
  it : nat;                   (* [i] *)
  loss : Q;
  last_loss : Q;
  best_loss : Q;
  best_epoch : option nat     (* unbound until a first snapshot is saved *)
}.

(** Lines 946-949. *)
Definition train_init : train_state :=
  {| it := 0; loss := 0; last_loss := 99999999; best_loss := 99999999;
     best_epoch := None |}.

(** The second conjunct of the [while] test: [abs(loss - last_loss) > 1e-2]. *)
Definition still_moving (st : train_state) : bool :=
  Qltb (1 # 100) (Qabs (loss st - last_loss st)).

(** Lines 951-977: one pass through the body.  [last_loss] is not assigned. *)
Definition train_body (st : train_state) : train_state :=
  let i := it st in
  let better := Qltb (test_loss i) (best_loss st) in
  {| it := S i;
     loss := train_loss i;
     last_loss := last_loss st;
     best_loss := if better then test_loss i else best_loss st;
     best_epoch := if better then Some i else best_epoch st |}.

(** [while i < n_train and ...]: [budget] is [n_train - i]. *)
Fixpoint train_loop (budget : nat) (st : train_state) : train_state :=
  match budget with
  | O => st
  | S budget' =>
      if still_moving st then train_loop budget' (train_body st) else st
  end.

Definition train (n_train : nat) : train_state := train_loop n_train train_init.

(** The loop as the specification words it: the test compares the loss of
    the current iteration with the loss of the previous one. *)
Definition train_body_as_specified (st : train_state) : train_state :=
  let i := it st in
  let better := Qltb (test_loss i) (best_loss st) in
  {| it := S i;
     loss := train_loss i;
     last_loss := loss st;
     best_loss := if better then test_loss i else best_loss st;
     best_epoch := if better then Some i else best_epoch st |}.

Fixpoint train_loop_as_specified (budget : nat) (st : train_state)
  : train_state :=
  match budget with
  | O => st
  | S budget' =>
      if still_moving st
      then train_loop_as_specified budget' (train_body_as_specified st)
      else st
  end.

Definition train_as_specified (n_train : nat) : train_state :=
  train_loop_as_specified n_train train_init.

End TrainLoop.

(** ** Tensors, as far as [GaussianProcessCollection] shapes them *)

Section Tensors.
Local Open Scope Q_scope.

(** A dense tensor: its shape and its entries in row-major order. *)
Record tensor : Type := {
  shape : list nat;
  data : list Q
}.

(** [t.squeeze()]: every dimension of size one is dropped. *)
Definition squeeze (t : tensor) : tensor :=
  {| shape := filter (fun d => negb (d =? 1)%nat) (shape t); data := data t |}.

(** [t.item()], as [torch.tensor] applies it to the members of a list:
    only a tensor of exactly one element converts to a scalar. *)
Definition item (t : tensor) : result Q :=
  match data t with
  | [v] => Ok v
  | _ => Raise ValueError
  end.

Fixpoint items (ts : list tensor) : result (list Q) :=
  match ts with
  | [] => Ok []
  | t :: ts' =>
      match item t, items ts' with
      | Ok v, Ok vs => Ok (v :: vs)
      | Raise e, _ => Raise e
      | _, Raise e => Raise e
      end
  end.

(** [torch.tensor(list_of_tensors)] *)
Definition torch_tensor (ts : list tensor) : result tensor :=
  match items ts with
  | Ok vs => Ok {| shape := [List.length vs]; data := vs |}
  | Raise e => Raise e
  end.

Definition same_shape (s1 s2 : list nat) : bool :=
  if list_eq_dec Nat.eq_dec s1 s2 then true else false.

(** [torch.cat(ts)] along dimension 0: the members agree on every other
    dimension; an empty list and 0-d members are refused. *)
Fixpoint cat_onto (d0 : nat) (rest : list nat) (acc : list Q)
  (ts : list tensor) : result tensor :=
  match ts with
  | [] => Ok {| shape := d0 :: rest; data := acc |}
  | t :: ts' =>
      match shape t with
      | d :: rest' =>
          if same_shape rest rest'
          then cat_onto (d0 + d) rest (acc ++ data t) ts'
          else Raise RuntimeError
      | [] => Raise RuntimeError
      end
  end.

Definition torch_cat (ts : list tensor) : result tensor :=
  match ts with
  | [] => Raise RuntimeError
  | t :: ts' =>
      match shape t with
      | d :: rest => cat_onto d rest (data t) ts'
      | [] => Raise RuntimeError
      end
  end.

(** [torch.stack(ts)]: a new leading dimension; all members of one shape. *)
Definition torch_stack (ts : list tensor) : result tensor :=
  match ts with
  | [] => Raise RuntimeError
  | t :: ts' =>
      if forallb (fun u => same_shape (shape t) (shape u)) ts'
      then Ok {| shape := List.length ts :: shape t;
                 data := flat_map data ts |}
      else Raise RuntimeError
  end.

(** The square matrix with [v] on its diagonal, row-major. *)
Definition diag_embed (v : list Q) : list Q :=
  let n := List.length v in
  flat_map (fun i => map (fun j => if (i =? j)%nat then nth i v 0 else 0)
                       (seq 0 n))
           (seq 0 n).

(** The diagonal of an [r] by [c] matrix. *)
Definition diagonal (r c : nat) (m : list Q) : list Q :=
  map (fun i => nth (i * c + i) m 0) (seq 0 (Nat.min r c)).

(** Entry [(i, j)] of a two-dimensional tensor. *)
Definition entry (t : tensor) (i j : nat) : Q :=
  match shape t with
  | [_; c] => nth (i * c + j) (data t) 0
  | _ => 0
  end.

(** The 1-by-1 covariance of a single query point. *)
Definition scalar_cov (v : Q) : tensor :=
  {| shape := [1%nat; 1%nat]; data := [v] |}.

(** [torch.diag] on a 0-d tensor depends on the torch release (older
    releases read it as a vector of length one, newer ones refuse it); the
    repository pins none, so this behaviour is a parameter. *)
Variable diag_scalar : Q -> result tensor.

(** [torch.diag(t)]: a vector becomes a diagonal matrix, a matrix yields its
    diagonal, more dimensions are refused. *)
Definition torch_diag (t : tensor) : result tensor :=
  match shape t with
  | [] => diag_scalar (nth 0 (data t) 0)
  | [n] => Ok {| shape := [n; n]; data := diag_embed (data t) |}
  | [r; c] => Ok {| shape := [Nat.min r c]; data := diagonal r c (data t) |}
  | _ => Raise RuntimeError
  end.

End Tensors.

(** ** [GaussianProcessCollection] (gp_utils.py, lines 191-523) *)

Section Collection.
Local Open Scope Q_scope.

Variable diag_scalar : Q -> result tensor.

(** What gpytorch's posterior hands to [predict]: [predictions.mean] and
    [predictions.covariance_matrix]. *)
Record posterior : Type := {
  post_mean : tensor;
  post_cov : tensor
}.

(** One per-dimension [GaussianProcess], by what the collection uses of it:
    its [predict] and the kernel caches [model.K_plus_noise],
    [model.K_plus_noise_inv] (unset before training or loading). *)
Record single_gp : Type := {
  gp_predict : tensor -> posterior;
  gp_K_plus_noise : option tensor;
  gp_K_plus_noise_inv : option tensor
}.

Record gp_collection : Type := {
  parallel : bool;
  gp_list : list single_gp;
  gps_posterior : tensor -> posterior;   (* the batched model of [self.gps] *)
  input_mask : list nat;
  target_mask : list nat;
  input_dimension : option nat;
  output_dimension : option nat;
  n_training_samples : option nat;
  K_plus_noise : option tensor;
  K_plus_noise_inv : option tensor;
  casadi_predict_built : bool
}.

(** [GaussianProcess.predict] with [return_pred=False]: mean and covariance
    as gpytorch gives them. *)
Definition single_predict (g : single_gp) (x : tensor) : tensor * tensor :=
  (post_mean (gp_predict g x), post_cov (gp_predict g x)).

(** [GaussianProcesses.predict] (lines 701-740) with [return_pred=False]. *)
Definition batch_predict (c : gp_collection) (x : tensor)
  : result (tensor * tensor) :=
  let p := gps_posterior c x in
  match torch_diag diag_scalar (squeeze (post_cov p)) with
  | Ok cov => Ok (squeeze (post_mean p), cov)
  | Raise e => Raise e
  end.

(** [GaussianProcessCollection.predict] (lines 376-410), the posterior
    objects of [return_pred=True] left out. *)
Definition predict (c : gp_collection) (x : tensor)
  : result (tensor * tensor) :=
  if parallel c then batch_predict c x
  else
    let means_list := map (fun g => fst (single_predict g x)) (gp_list c) in
    let cov_list := map (fun g => snd (single_predict g x)) (gp_list c) in
    match torch_tensor means_list with
    | Raise e => Raise e
    | Ok means =>
        match torch_cat cov_list with
        | Raise e => Raise e
        | Ok stacked =>
            match torch_diag diag_scalar (squeeze stacked) with
            | Raise e => Raise e
            | Ok cov => Ok (means, cov)
            end
        end
    end.

(** Loading one dimension from disk ([GaussianProcess.init_with_hyperparam]):
    it raises (missing or ill-formed file) or leaves the GP with its two
    caches computed.  [load d g] is the outcome for target dimension [d]. *)
Variable load : nat -> single_gp -> result single_gp.

(** [self._init_properties(train_inputs, train_targets)]: [shape[1]] of a
    tensor with fewer than two dimensions raises. *)
Definition _init_properties (train_inputs train_targets : tensor)
  (c : gp_collection) : result gp_collection :=
  match shape train_targets, shape train_inputs with
  | _ :: target_dimension :: _, n :: input_dim :: _ =>
      Ok {| parallel := parallel c; gp_list := gp_list c;
            gps_posterior := gps_posterior c;
            input_mask := input_mask c; target_mask := target_mask c;
            input_dimension := Some input_dim;
            output_dimension := Some target_dimension;
            n_training_samples := Some n;
            K_plus_noise := K_plus_noise c;
            K_plus_noise_inv := K_plus_noise_inv c;
            casadi_predict_built := casadi_predict_built c |}
  | _, _ => Raise IndexError
  end.

(** Lines 267-278: the loop over [enumerate(self.gp_list)].  It returns the
    GPs as loaded so far together with how the loop ended. *)
Fixpoint load_all (mask : list nat) (gp_ind : nat) (todo : list single_gp)
  : list single_gp * result (list tensor * list tensor) :=
  match todo with
  | [] => ([], Ok ([], []))
  | g :: todo' =>
      match nth_error mask gp_ind with
      | None => (todo, Raise IndexError)
      | Some d =>
          match load d g with
          | Raise e => (todo, Raise e)
          | Ok g' =>
              match gp_K_plus_noise g', gp_K_plus_noise_inv g' with
              | Some k, Some kinv =>
                  match load_all mask (S gp_ind) todo' with
                  | (rest, Ok (ks, kinvs)) => (g' :: rest, Ok (k :: ks, kinv :: kinvs))
                  | (rest, Raise e) => (g' :: rest, Raise e)
                  end
              | _, _ => (g' :: todo', Raise AttributeError)
              end
          end
      end
  end.

Definition with_gps (gl : list single_gp) (c : gp_collection) : gp_collection :=
  {| parallel := parallel c; gp_list := gl;
     gps_posterior := gps_posterior c;
     input_mask := input_mask c; target_mask := target_mask c;
     input_dimension := input_dimension c;
     output_dimension := output_dimension c;
     n_training_samples := n_training_samples c;
     K_plus_noise := K_plus_noise c;
     K_plus_noise_inv := K_plus_noise_inv c;
     casadi_predict_built := casadi_predict_built c |}.

Definition with_caches (k kinv : tensor) (c : gp_collection) : gp_collection :=
  {| parallel := parallel c; gp_list := gp_list c;
     gps_posterior := gps_posterior c;
     input_mask := input_mask c; target_mask := target_mask c;
     input_dimension := input_dimension c;
     output_dimension := output_dimension c;
     n_training_samples := n_training_samples c;
     K_plus_noise := Some k;
     K_plus_noise_inv := Some kinv;
     casadi_predict_built := true |}.

(** [GaussianProcessCollection.init_with_hyperparam] (lines 251-283): the
    outcome of the call and the collection it leaves behind. *)
Definition init_with_hyperparam (train_inputs train_targets : tensor)
  (c : gp_collection) : result unit * gp_collection :=
  if parallel c then (Raise AssertionError, c)
  else
    match _init_properties train_inputs train_targets c with
    | Raise e => (Raise e, c)
    | Ok c1 =>
        match load_all (target_mask c1) 0 (gp_list c1) with
        | (gl, Raise e) => (Raise e, with_gps gl c1)
        | (gl, Ok (ks, kinvs)) =>
            let c2 := with_gps gl c1 in
            match torch_stack ks, torch_stack kinvs with
            | Ok k, Ok kinv => (Ok tt, with_caches k kinv c2)
            | Raise e, _ => (Raise e, c2)
            | _, Raise e => (Raise e, c2)
            end
        end
    end.

End Collection.

(** ** [HPO._perturb_hps], float hyperparameters (hpo.py, lines 419-458) *)

(** The value of [hp[key]]: a float, or a list of floats. *)
Inductive hp_value : Type :=
| HFloat (v : Q)
| HList (vs : list Q).

(** A computation with unbounded [while] loops: it returns, raises, or the
    fuel given to a loop did not suffice. *)
Inductive run (A : Type) : Type :=
| Done (a : A)
| Crash (e : exn)
| Timeout.
Arguments Done {A} a.
Arguments Crash {A} e.
Arguments Timeout {A}.

Section Perturbation.
Local Open Scope Q_scope.

(** [max(interval)] and [min(interval)]; both raise on an empty list. *)
Definition Qmax (a b : Q) : Q := if Qle_bool a b then b else a.
Definition Qmin (a b : Q) : Q := if Qle_bool a b then a else b.

Definition py_max (l : list Q) : result Q :=
  match l with
  | [] => Raise ValueError
  | x :: l' => Ok (fold_left Qmax l' x)
  end.

Definition py_min (l : list Q) : result Q :=
  match l with
  | [] => Raise ValueError
  | x :: l' => Ok (fold_left Qmin l' x)
  end.

(** 10 to the [m], for the fuel the loops need. *)
Fixpoint pow10 (m : nat) : Q :=
  match m with
  | O => 1
  | S m' => 10 * pow10 m'
  end.

(** The divisor by which a step is shrunk is 10 in the code; the model keeps
    it as [shrink] so that the same text also reads as the halving the
    specification describes. *)
Variable shrink : Q.

(** Lines 432-434: [while perturbation > max(interval)].  Inside the loop the
    code adds to [hp[key]] itself, which raises for a list. *)
Fixpoint shrink_right (fuel : nat) (hp : hp_value) (i : nat) (hi dx perturbation : Q)
  : run (Q * Q) :=
  if Qltb hi perturbation then
    match fuel with
    | O => Timeout
    | S fuel' =>
        let dx := dx / shrink in
        match hp with
        | HFloat v => shrink_right fuel' hp i hi dx (v + inject_Z (Z.of_nat i) * dx)
        | HList _ => Crash TypeError
        end
    end
  else Done (dx, perturbation).

(** Lines 446-451: [while perturbation < min(interval)]. *)
Fixpoint shrink_left (fuel : nat) (first : Q) (i : nat) (lo dx perturbation : Q)
  : run (Q * Q) :=
  if Qltb perturbation lo then
    match fuel with
    | O => Timeout
    | S fuel' =>
        let dx := dx / shrink in
        shrink_left fuel' first i lo dx (first - inject_Z (Z.of_nat (i + 1)) * dx)
    end
  else Done (dx, perturbation).

(** Lines 427-438: [for i in range(side_perturb_num+1)]; [todo] is what is
    left of the range.  The value written is the bare [perturbation]. *)
Fixpoint right_loop (fuel : nat) (hp : hp_value) (first hi : Q)
  (todo : list nat) (dx : Q) (out : list hp_value) : run (Q * list hp_value) :=
  match todo with
  | [] => Done (dx, out)
  | i :: todo' =>
      match shrink_right fuel hp i hi dx (first + inject_Z (Z.of_nat i) * dx) with
      | Done (dx', p) => right_loop fuel hp first hi todo' dx' (out ++ [HFloat p])
      | Crash e => Crash e
      | Timeout => Timeout
      end
  end.

(** What the left loop writes: [[perturbation]*len(hp[key])] for a list. *)
Definition written (hp : hp_value) (p : Q) : hp_value :=
  match hp with
  | HFloat _ => HFloat p
  | HList vs => HList (repeat p (List.length vs))
  end.

(** Lines 440-458: [for i in range(side_perturb_num)]. *)
Fixpoint left_loop (fuel : nat) (hp : hp_value) (first lo : Q)
  (todo : list nat) (dx : Q) (out : list hp_value) : run (Q * list hp_value) :=
  match todo with
  | [] => Done (dx, out)
  | i :: todo' =>
      match shrink_left fuel first i lo dx
              (first - inject_Z (Z.of_nat (i + 1)) * dx) with
      | Done (dx', p) => left_loop fuel hp first lo todo' dx' (out ++ [written hp p])
      | Crash e => Crash e
      | Timeout => Timeout
      end
  end.

(** [hp[key]] or [hp[key][0]]. *)
Definition first_of (hp : hp_value) : result Q :=
  match hp with
  | HFloat v => Ok v
  | HList (v :: _) => Ok v
  | HList [] => Raise IndexError
  end.

(** The body of [for key in hps_dict['float']] for one key present in [hp]:
    the values written to the perturbation files, in order.  [bounds] is
    [hps_dict['float'][key]]. *)
Definition perturb_float_by (fuel : nat) (cfg : hpo_config)
  (bounds : list Q) (hp : hp_value) : run (list hp_value) :=
  let interval := np_sort bounds in
  match py_max interval, py_min interval with
  | Raise e, _ => Crash e
  | _, Raise e => Crash e
  | Ok hi, Ok lo =>
      if Qeq_bool (divisor cfg) 0 then Crash ZeroDivisionError
      else
        let dx := (hi - lo) / divisor cfg / 10 in
        match first_of hp with
        | Raise e => Crash e
        | Ok first =>
            match right_loop fuel hp first hi
                    (seq 0 (side_perturb_num cfg + 1)) dx [] with
            | Crash e => Crash e
            | Timeout => Timeout
            | Done (dx, out) =>
                match left_loop fuel hp first lo
                        (seq 0 (side_perturb_num cfg)) dx out with
                | Crash e => Crash e
                | Timeout => Timeout
                | Done (_, out) => Done out
                end
            end
        end
  end.

End Perturbation.

(** What the claim asks of the [i]-th value written on the right of the
    chosen value [v] and of a value written on its left: inside the
    interval, and on the proper side (the right loop starts at [i = 0], the
    chosen value itself). *)
Definition right_candidate (lo v hi : Q) (i : nat) (p : Q) : Prop :=
  (lo <= p /\ p <= hi /\ v <= p /\ ((0 < i)%nat -> v < p))%Q.

Definition left_candidate (lo v hi : Q) (i : nat) (p : Q) : Prop :=
  (lo <= p /\ p <= hi /\ p < v)%Q.

(** The code: [dx = dx/10]. *)
Definition perturb_float : nat -> hpo_config -> list Q -> hp_value
  -> run (list hp_value) := perturb_float_by 10.

(** The specification's words: the step is halved. *)
Definition perturb_float_as_specified : nat -> hpo_config -> list Q -> hp_value
  -> run (list hp_value) := perturb_float_by 2.

(** ** Kernels [covSEard], [covMatern52ard] (gp_utils.py, lines 19-60) *)

Section Kernels.
Local Open Scope R_scope.

(** [ca.sum1((x - z)**2 / ell**2)] for column vectors [x], [z], [ell]:
    the operations are elementwise, [sum1] adds the rows. *)
Fixpoint sum1_sq (x z ell : list R) : R :=
  match x, z, ell with
  | xi :: x', zi :: z', li :: ell' =>
      (xi - zi) ^ 2 / li ^ 2 + sum1_sq x' z' ell'
  | _, _, _ => 0
  end.

Definition covSEard (x z ell : list R) (sf2 : R) : R :=
  let dist := sum1_sq x z ell in
  sf2 * exp (- (5 / 10) * dist).

Definition covMatern52ard (x z ell : list R) (sf2 : R) : R :=
  let dist := sum1_sq x z ell in
  let r_over_l := sqrt dist in
  sf2 * (1 + sqrt 5 * r_over_l + 5 / 3 * r_over_l ^ 2)
      * exp (- sqrt 5 * r_over_l).

(** The sum of the specification: [Sum_i ((x_i - z_i)/ell_i)^2]. *)
Fixpoint scaled_sq_dist (x z ell : list R) : R :=
  match x, z, ell with
  | xi :: x', zi :: z', li :: ell' =>
      ((xi - zi) / li) ^ 2 + scaled_sq_dist x' z' ell'
  | _, _, _ => 0
  end.

End Kernels.

(** ** [GaussianProcess]: kernel cache and closed-form prediction
       (gp_utils.py, lines 864-874 and 1034-1059) *)

Section ClosedForm.
Local Open Scope R_scope.

Definition matrix : Type := list (list R).

Fixpoint dot (u v : list R) : R :=
  match u, v with
  | a :: u', b :: v' => a * b + dot u' v'
  | _, _ => 0
  end.

Definition scale (a : R) (v : list R) : list R := map (Rmult a) v.

Fixpoint vadd (u v : list R) : list R :=
  match u, v with
  | a :: u', b :: v' => (a + b) :: vadd u' v'
  | _, _ => []
  end.

(** A row vector times a matrix with [c] columns: [u @ M]. *)
Fixpoint vecmat (c : nat) (u : list R) (M : matrix) : list R :=
  match u, M with
  | a :: u', row :: M' => vadd (scale a row) (vecmat c u' M')
  | _, _ => repeat 0 c
  end.

(** A matrix times a column vector: [M @ v]. *)
Definition matvec (M : matrix) (v : list R) : list R :=
  map (fun row => dot row v) M.

(** [M @ P] for matrices. *)
Definition matmul (c : nat) (M P : matrix) : matrix :=
  map (fun row => vecmat c row P) M.

Definition unit_vector (n i : nat) : list R :=
  map (fun j => if (i =? j)%nat then 1 else 0) (seq 0 n).

Definition identity (n : nat) : matrix :=
  map (unit_vector n) (seq 0 n).

(** The trained state of one [GaussianProcess]: [self.kernel], the kernel
    hyperparameters, the likelihood noise and the two cached matrices. *)
Record gp_model : Type := {
  kernel : string;
  lengthscale : list R;
  outputscale : R;
  noise : R;
  model_K_plus_noise : matrix;
  model_K_plus_noise_inv : matrix
}.

(** The covariance function the string [self.kernel] selects; the closed
    form binds [K_z_ztrain] for ['RBF'] and ['Matern'] only. *)
Definition configured_kernel (name : string)
  : result (list R -> list R -> list R -> R -> R) :=
  if String.eqb name "RBF" then Ok covSEard
  else if String.eqb name "Matern" then Ok covMatern52ard
  else Raise UnboundLocalError.

(** [cov(z, train_inputs.T, lengthscale.T, output_scale)]: CasADi repeats
    the column [z] (and [ell]) across the columns of [train_inputs.T], one
    per training input, and [sum1] adds along each column: a row with one
    kernel value per training input. *)
Definition K_z_ztrain (cov : list R -> list R -> list R -> R -> R)
  (g : gp_model) (train_inputs : matrix) (z : list R) : list R :=
  map (fun x => cov z x (lengthscale g) (outputscale g)) train_inputs.

(** [GaussianProcess.make_casadi_prediction_func]: the function [pred].
    The symbol [z] has [len(self.input_mask)] entries; the mask is taken to
    be set, as the collection sets it. *)
Definition make_casadi_prediction_func (g : gp_model)
  (train_inputs : matrix) (train_targets : list R)
  : result (list R -> R) :=
  match configured_kernel (kernel g) with
  | Raise e => Raise e
  | Ok cov =>
      Ok (fun z =>
            dot (vecmat (List.length (model_K_plus_noise_inv g))
                   (K_z_ztrain cov g train_inputs z)
                   (model_K_plus_noise_inv g))
                train_targets)
  end.

(** Modelled from the spec: gpytorch's [covar_module(train_x)] is the matrix
    of the configured kernel of section 4.1 over all pairs of training
    inputs, with the trained length-scales and output-scale. *)
Definition covar_module (cov : list R -> list R -> list R -> R -> R)
  (g : gp_model) (train_x : matrix) : matrix :=
  map (fun xi => map (fun xj => cov xi xj (lengthscale g) (outputscale g)) train_x)
      train_x.

(** [K_lazy.add_diag(noise)] *)
Definition add_diag (s : R) (M : matrix) : matrix :=
  map (fun '(i, row) =>
         map (fun '(j, v) => if (i =? j)%nat then v + s else v)
             (combine (seq 0 (List.length row)) row))
      (combine (seq 0 (List.length M)) M).

(** [inv_matmul] against the identity is a linear solve inside gpytorch: it
    is a parameter of the model. *)
Variable inv_matmul : matrix -> matrix.

(** [GaussianProcess._compute_GP_covariances]: both caches are refreshed.
    Multiplying by the identity materialises the lazy matrix. *)
Definition _compute_GP_covariances (g : gp_model) (train_x : matrix)
  : result gp_model :=
  match configured_kernel (kernel g) with
  | Raise _ => Raise AttributeError
  | Ok cov =>
      let K_lazy_plus_noise := add_diag (noise g) (covar_module cov g train_x) in
      Ok {| kernel := kernel g; lengthscale := lengthscale g;
            outputscale := outputscale g; noise := noise g;
            model_K_plus_noise := K_lazy_plus_noise;
            model_K_plus_noise_inv := inv_matmul K_lazy_plus_noise |}
  end.

(** Modelled from the spec: the posterior mean of the zero-mean exact GP at
    the [i]-th training input, read off the caches: row [i] of
    [K = K_plus_noise - noise*I] times the cached inverse times the targets. *)
Definition cached_posterior_mean (g : gp_model) (train_targets : list R)
  (i : nat) : R :=
  let K_row :=
    map (fun '(j, v) => if (i =? j)%nat then v - noise g else v)
        (combine (seq 0 (List.length (nth i (model_K_plus_noise g) [])))
                 (nth i (model_K_plus_noise g) [])) in
  dot K_row (matvec (model_K_plus_noise_inv g) train_targets).

End ClosedForm.

(** ** Concrete configurations used in the examples *)

Section Fixtures.
Local Open Scope Q_scope.
Local Open Scope string_scope.

(** One repetition per batch, escalation enabled from the first trial on. *)
Definition scenario_cfg (dir objectives : list string) (thr : Q) : hpo_config :=
  {| cfg_objective := objectives; direction := dir; alpha := 1 # 5;
     repetitions := 1; warm_trials := 0; dynamical_runs := true;
     approximation_threshold := thr; divisor := 1; side_perturb_num := 2 |}.

(** Three repetitions per batch, no escalation. *)
Definition plain_cfg (dir objectives : list string) : hpo_config :=
  {| cfg_objective := objectives; direction := dir; alpha := 1 # 5;
     repetitions := 3; warm_trials := 0; dynamical_runs := false;
     approximation_threshold := 1 # 2; divisor := 1; side_perturb_num := 2 |}.

(** A study with one finished trial of value 10 and the running one. *)
Definition scenario_study : study := {| trials_len := 2; best_value := 10 |}.

(** An agent that learns and runs without fault and returns [ret]. *)
Definition steady_agent (ret : Q) : agent :=
  {| learn_raises := false; run_result := Some ret; learning_curve := None |}.

(** An agent whose learning curve reaches 70% of its return at step 4. *)
Definition curve_agent (ret : Q) : agent :=
  {| learn_raises := false; run_result := Some ret;
     learning_curve := Some ([ret / 2; ret; ret], [2; 4; 6]) |}.

Definition learn_fault_agent : agent :=
  {| learn_raises := true; run_result := Some 1; learning_curve := None |}.

Definition run_fault_agent : agent :=
  {| learn_raises := false; run_result := None; learning_curve := None |}.

(** Every draw builds the same agent; the seed is the index of the draw. *)
Definition world_of (a : agent) : nat -> repetition :=
  fun i => {| rep_seed := i; rep_make := Made a false |}.

(** The agents of the draws are listed; later draws build [a]. *)
Definition world_from (l : list agent) (a : agent) : nat -> repetition :=
  fun i => {| rep_seed := i; rep_make := Made (nth i l a) false |}.

(** A per-dimension GP whose posterior at a single query point has mean
    [m] and variance [v]; not trained or loaded yet. *)
Definition const_gp (m v : Q) : single_gp :=
  {| gp_predict := fun _ =>
       {| post_mean := {| shape := [1%nat]; data := [m] |};
          post_cov := scalar_cov v |};
     gp_K_plus_noise := None;
     gp_K_plus_noise_inv := None |}.

(** A batched posterior over the listed dimensions at a single query. *)
Definition const_batch (ms vs : list Q) : tensor -> posterior :=
  fun _ =>
    {| post_mean := {| shape := [List.length ms; 1%nat]; data := ms |};
       post_cov := {| shape := [List.length vs; 1%nat; 1%nat]; data := vs |} |}.

Definition collection_of (par : bool) (gl : list single_gp)
  (batch : tensor -> posterior) (mask : list nat) : gp_collection :=
  {| parallel := par; gp_list := gl; gps_posterior := batch;
     input_mask := [0%nat]; target_mask := mask;
     input_dimension := None; output_dimension := None;
     n_training_samples := None;
     K_plus_noise := None; K_plus_noise_inv := None;
     casadi_predict_built := false |}.

(** Two per-dimension GPs; one batched GP over a single dimension. *)
Definition two_gps : gp_collection :=
  collection_of false [const_gp 1 (1 # 4); const_gp 2 (1 # 9)]
    (const_batch [] []) [0%nat; 1%nat].

Definition batched_single : gp_collection :=
  collection_of true [] (const_batch [3] [2]) [0%nat].

(** A query of one point in one input dimension. *)
Definition one_point : tensor := {| shape := [1%nat; 1%nat]; data := [0] |}.

(** A loader that always succeeds, leaving 1-by-1 caches. *)
Definition ready_loader (d : nat) (g : single_gp) : result single_gp :=
  Ok {| gp_predict := gp_predict g;
        gp_K_plus_noise := Some (scalar_cov 2);
        gp_K_plus_noise_inv := Some (scalar_cov (1 # 2)) |}.

(** [make] raises at every draw. *)
Definition world_unbuildable : nat -> repetition :=
  fun i => {| rep_seed := i; rep_make := MakeRaises |}.

End Fixtures.

Section RealFixtures.
Local Open Scope R_scope.
Local Open Scope string_scope.

(** An untrained-cache GP with the squared-exponential kernel on one input
    dimension, unit length-scale, unit output-scale and unit noise. *)
Definition unit_gp : gp_model :=
  {| kernel := "RBF"; lengthscale := [1]; outputscale := 1; noise := 1;
     model_K_plus_noise := []; model_K_plus_noise_inv := [] |}.

(** The inverse of a 1-by-1 matrix, entry by entry. *)
Definition entrywise_inverse (M : matrix) : matrix := map (map Rinv) M.

End RealFixtures.

(** ** Comparing outcomes up to the representation of rationals *)

Definition result_xeq (a b : result xfloat) : Prop :=
  match a, b with
  | Ok x, Ok y => xeq x y
  | Raise e, Raise e' => e = e'
  | _, _ => False
  end.

(** ** [GaussianProcess.train]: after the loop (gp_utils.py, lines 978-987) *)

Section TrainReport.
Local Open Scope Q_scope.

(** The code prints [best_epoch], a name bound only when a snapshot was
    saved, then reloads that snapshot; the value is the epoch reloaded. *)
Definition finish_train (st : train_state) : result nat :=
  match best_epoch st with
  | None => Raise UnboundLocalError
  | Some e => Ok e
  end.

(** What the loop keeps true of [best_loss] and [best_epoch]: either no test
    loss seen so far was below the initial 99999999 and nothing is saved, or
    the saved epoch is the first one among those run whose test loss is the
    least. *)
Definition snapshot_inv (test_loss : nat -> Q) (st : train_state) : Prop :=
  (best_epoch st = None /\ best_loss st = 99999999 /\
   forall j, (j < it st)%nat -> 99999999 <= test_loss j) \/
  (exists e, best_epoch st = Some e /\ (e < it st)%nat /\
             best_loss st = test_loss e /\ test_loss e < 99999999 /\
             (forall j, (j < it st)%nat -> test_loss e <= test_loss j) /\
             (forall j, (j < e)%nat -> test_loss e < test_loss j)).

End TrainReport.

(** ** Ranking and saving the best trials
       ([HPO._value_key], hpo.py lines 295-305, and the single-objective
       branch of [HPO.hyperparameter_optimization], lines 236-247) *)

Section BestTrials.
Local Open Scope Q_scope.

(** A finished trial as the study reports it: [value] is [None] for a trial
    that failed or was pruned; [params] is its dictionary of
    hyperparameters. *)
Record frozen_trial : Type := {
  trial_value : option Q;
  trial_params : list (string * hp_value)
}.

(** [_value_key]: trials without a value get the worst possible key for the
    direction [d0 = direction[0]]. *)
Definition _value_key (d0 : string) (t : frozen_trial) : xfloat :=
  match trial_value t with
  | None => if String.eqb d0 "minimize" then PInf else NInf
  | Some v => Fin v
  end.

(** [a <= b] on keys (no key is nan). *)
Definition xle (a b : xfloat) : bool := negb (xgt a b).

(** [list.sort(key=...)] is stable; with [reverse=True] it sorts in
    descending order and is stable as well.  [before a b] tells whether key
    [a] may stand before key [b]. *)
Fixpoint insert_by (before : xfloat -> xfloat -> bool)
  (key : frozen_trial -> xfloat) (t : frozen_trial) (l : list frozen_trial)
  : list frozen_trial :=
  match l with
  | [] => [t]
  | u :: l' =>
      if before (key t) (key u) then t :: l
      else u :: insert_by before key t l'
  end.

Definition py_sort_by (before : xfloat -> xfloat -> bool)
  (key : frozen_trial -> xfloat) (l : list frozen_trial) : list frozen_trial :=
  fold_right (insert_by before key) [] l.

(** Lines 237-241: ascending for "minimize", descending otherwise. *)
Definition rank_trials (d0 : string) (trials : list frozen_trial)
  : list frozen_trial :=
  if String.eqb d0 "minimize"
  then py_sort_by xle (_value_key d0) trials
  else py_sort_by (fun a b => xle b a) (_value_key d0) trials.

(** Lines 242-247, for the trials still to be written: the file name
    formats [trials[i].value] with [:.4f], which raises [TypeError] on
    [None]; [_perturb_hps] runs after each file when [perturb_hps] is set.
    The result pairs the trials whose file was written with the outcome. *)
Fixpoint save_each (perturb_hps : bool)
  (perturb : list (string * hp_value) -> result unit)
  (todo : list frozen_trial) : list frozen_trial * result unit :=
  match todo with
  | [] => ([], Ok tt)
  | t :: todo' =>
      match trial_value t with
      | None => ([], Raise TypeError)
      | Some _ =>
          match (if perturb_hps then perturb (trial_params t) else Ok tt) with
          | Raise e => ([t], Raise e)
          | Ok _ =>
              let (written, outcome) := save_each perturb_hps perturb todo' in
              (t :: written, outcome)
          end
      end
  end.

(** Lines 236-247 as a whole. *)
Definition save_best_hps (d0 : string) (save_n_best_hps : nat)
  (perturb_hps : bool) (perturb : list (string * hp_value) -> result unit)
  (trials : list frozen_trial) : list frozen_trial * result unit :=
  let ranked := rank_trials d0 trials in
  save_each perturb_hps perturb
    (firstn (Nat.min save_n_best_hps (List.length trials)) ranked).

Definition has_value (t : frozen_trial) : bool :=
  match trial_value t with Some _ => true | None => false end.

(** [t] may stand before [u] in a list sorted by [key]. *)
Definition in_order (before : xfloat -> xfloat -> bool)
  (key : frozen_trial -> xfloat) (t u : frozen_trial) : Prop :=
  before (key t) (key u) = true.

(** [a] is at least as good as [b] under direction [d0]. *)
Definition no_worse (d0 : string) (a b : Q) : Prop :=
  if String.eqb d0 "minimize" then a <= b else b <= a.

End BestTrials.

(** ** [GaussianProcessCollection.train] (gp_utils.py, lines 310-374) *)

Section CollectionTrain.
Local Open Scope Q_scope.

(** Training one per-dimension GP ([GaussianProcess.train]) on target
    dimension [d] with learning rate [lr] and [n_t] iterations: it raises or
    leaves the GP with its caches.  Training the batched GP yields the two
    stacked caches. *)
Variable fit : nat -> Q -> nat -> single_gp -> result single_gp.
Variable batch_fit : Q -> nat -> result (tensor * tensor).

(** Lines 333-351: the loop over [enumerate(self.gp_list)].  The learning
    rate and the iteration count are looked up at the target dimension
    [self.target_mask[gp_ind]], not at [gp_ind]. *)
Fixpoint fit_all (mask : list nat) (learning_rate : list Q) (n_train : list nat)
  (gp_ind : nat) (todo : list single_gp)
  : list single_gp * result (list tensor * list tensor) :=
  match todo with
  | [] => ([], Ok ([], []))
  | g :: todo' =>
      match nth_error mask gp_ind with
      | None => (todo, Raise IndexError)
      | Some d =>
          match nth_error learning_rate d, nth_error n_train d with
          | Some lr, Some n_t =>
              match fit d lr n_t g with
              | Raise e => (todo, Raise e)
              | Ok g' =>
                  match gp_K_plus_noise g', gp_K_plus_noise_inv g' with
                  | Some k, Some kinv =>
                      match fit_all mask learning_rate n_train (S gp_ind) todo' with
                      | (rest, Ok (ks, kinvs)) =>
                          (g' :: rest, Ok (k :: ks, kinv :: kinvs))
                      | (rest, Raise e) => (g' :: rest, Raise e)
                      end
                  | _, _ => (g' :: todo', Raise AttributeError)
                  end
              end
          | _, _ => (todo, Raise IndexError)
          end
      end
  end.

(** Lines 357-360: every entry must equal the first one. *)
Definition all_equal_first_Q (l : list Q) : bool :=
  match l with
  | [] => true
  | x :: _ => forallb (fun y => Qeq_bool y x) l
  end.

Definition all_equal_first_nat (l : list nat) : bool :=
  match l with
  | [] => true
  | x :: _ => forallb (fun y => (y =? x)%nat) l
  end.

(** The whole method: the outcome and the collection it leaves behind.
    [model_paths] and the output directory are not part of the state. *)
Definition collection_train (train_x_raw train_y_raw : tensor)
  (n_train : list nat) (learning_rate : list Q) (c : gp_collection)
  : result unit * gp_collection :=
  match _init_properties train_x_raw train_y_raw c with
  | Raise e => (Raise e, c)
  | Ok c1 =>
      if parallel c1 then
        if negb (all_equal_first_Q learning_rate) then (Raise AssertionError, c1)
        else if negb (all_equal_first_nat n_train) then (Raise AssertionError, c1)
        else
          match learning_rate, n_train with
          | lr :: _, n_t :: _ =>
              match batch_fit lr n_t with
              | Raise e => (Raise e, c1)
              | Ok (k, kinv) => (Ok tt, with_caches k kinv c1)
              end
          | _, _ => (Raise IndexError, c1)
          end
      else
        match fit_all (target_mask c1) learning_rate n_train 0 (gp_list c1) with
        | (gl, Raise e) => (Raise e, with_gps gl c1)
        | (gl, Ok (ks, kinvs)) =>
            let c2 := with_gps gl c1 in
            match torch_stack ks, torch_stack kinvs with
            | Ok k, Ok kinv => (Ok tt, with_caches k kinv c2)
            | Raise e, _ => (Raise e, c2)
            | _, Raise e => (Raise e, c2)
            end
        end
  end.

End CollectionTrain.

(** ** [SymbolicModel] (symbolic_systems.py, lines 57-64 and 98-150)

    A CasADi expression in the symbols [x_sym] and [u_sym] is modelled by
    the function of their values that it denotes; column vectors are lists.
    [cs.jacobian] is a parameter: [jacobian_x e] and [jacobian_u e] stand
    for [cs.jacobian(e, x_sym)] and [cs.jacobian(e, u_sym)].  The
    integrators [fd_func] and [fd_linear_func] are left out. *)

Section SymbolicModel.
Local Open Scope R_scope.

Definition sym_expr (A : Type) : Type := list R -> list R -> A.

Variable jacobian_x jacobian_u : sym_expr (list R) -> sym_expr matrix.

Fixpoint vsub (u v : list R) : list R :=
  match u, v with
  | a :: u', b :: v' => (a - b) :: vsub u' v'
  | _, _ => []
  end.

Record symbolic_model : Type := {
  x_dot : sym_expr (list R);
  y_sym : sym_expr (list R);
  fc_func : list R -> list R -> list R;
  g_func : list R -> list R -> list R;
  dfdx : sym_expr matrix;
  dfdu : sym_expr matrix;
  dgdx : sym_expr matrix;
  dgdu : sym_expr matrix;
  fc_linear_func : list R -> list R -> list R -> list R -> list R;
  g_linear_func : list R -> list R -> list R -> list R -> list R
}.

(** [e + jx @ (x_eval - x_sym) + ju @ (u_eval - u_sym)], as a function of
    [x_eval, u_eval, x, u] (lines 133-134 and 146-147). *)
Definition linearized (e : sym_expr (list R)) (jx ju : sym_expr matrix)
  (x_eval u_eval x u : list R) : list R :=
  vadd (vadd (e x u) (matvec (jx x u) (vsub x_eval x)))
       (matvec (ju x u) (vsub u_eval u)).

(** [__init__] (lines 58-64) followed by [setup_model] and
    [setup_linearization]: the observation defaults to the state. *)
Definition SymbolicModel (dyn_eqn : sym_expr (list R))
  (obs_eqn : option (sym_expr (list R))) : symbolic_model :=
  let x_dot := dyn_eqn in
  let y_sym := match obs_eqn with
               | None => fun x _ => x
               | Some g => g
               end in
  let dfdx := jacobian_x x_dot in
  let dfdu := jacobian_u x_dot in
  let dgdx := jacobian_x y_sym in
  let dgdu := jacobian_u y_sym in
  {| x_dot := x_dot;
     y_sym := y_sym;
     fc_func := x_dot;
     g_func := y_sym;
     dfdx := dfdx;
     dfdu := dfdu;
     dgdx := dgdx;
     dgdu := dgdu;
     fc_linear_func := linearized x_dot dfdx dfdu;
     g_linear_func := linearized y_sym dgdx dgdu |}.

End SymbolicModel.

(** A two-state example: [x_dot = (x1, -x0^2 + u0)] with its Jacobians. *)

Section SymbolicFixtures.
Local Open Scope R_scope.

Definition quadratic_dyn : sym_expr (list R) :=
  fun x u => [nth 1 x 0; - (nth 0 x 0 * nth 0 x 0) + nth 0 u 0].

Definition quadratic_jx : sym_expr (list R) -> sym_expr matrix :=
  fun _ x _ => [[0; 1]; [-2 * nth 0 x 0; 0]].

Definition quadratic_ju : sym_expr (list R) -> sym_expr matrix :=
  fun _ _ _ => [[0]; [1]].

End SymbolicFixtures.

(** ** [HPO._perturb_hps], integer hyperparameters of the categorical
       group (hpo.py, lines 338-417 for [isinstance(hp[key], int)]) *)

Section CategoricalInt.
Local Open Scope Z_scope.

Fixpoint insert_Z (v : Z) (l : list Z) : list Z :=
  match l with
  | [] => [v]
  | y :: l' => if v <=? y then v :: l else y :: insert_Z v l'
  end.

(** [sorted(hps_dict['categorical'][key])]. *)
Definition sorted (l : list Z) : list Z := fold_right insert_Z [] l.

(** [np.argwhere(np.array(interval) == v)[0][0]]: the first index holding
    [v]; [None] stands for the [IndexError] the bare [except] catches. *)
Fixpoint argwhere_first (interval : list Z) (v : Z) : option nat :=
  match interval with
  | [] => None
  | y :: rest =>
      if y =? v then Some 0%nat else option_map S (argwhere_first rest v)
  end.

(** [np.argmin]: the index of the first least entry; [ValueError] on an
    empty array. *)
Fixpoint argmin_from (best_i : nat) (best : Z) (i : nat) (l : list Z) : nat :=
  match l with
  | [] => best_i
  | y :: rest =>
      if y <? best then argmin_from i y (S i) rest
      else argmin_from best_i best (S i) rest
  end.

Definition np_argmin (l : list Z) : result nat :=
  match l with
  | [] => Raise ValueError
  | y :: rest => Ok (argmin_from 0%nat y 1%nat rest)
  end.

(** Lines 343-352: the index of the chosen value in the sorted interval,
    or of the entry nearest to it. *)
Definition chosen_index (interval : list Z) (v : Z) : result nat :=
  match argwhere_first interval v with
  | Some id => Ok id
  | None => np_argmin (map (fun y => Z.abs (y - v)) interval)
  end.

(** Lines 367-371; [rollout_steps] is [hp['rollout_steps']]. *)
Definition int_step (key : string) (rollout_batch_size rollout_steps : Z) : Z :=
  if String.eqb key "max_env_steps"
  then rollout_batch_size * rollout_steps
  else 1.

Fixpoint py_max_Z (first : Z) (rest : list Z) : Z :=
  match rest with
  | [] => first
  | y :: rest' => py_max_Z (if first <? y then y else first) rest'
  end.

Fixpoint py_min_Z (first : Z) (rest : list Z) : Z :=
  match rest with
  | [] => first
  | y :: rest' => py_min_Z (if y <? first then y else first) rest'
  end.

(** Lines 384-390 and 400-406: for an integer the [while] loop leaves at
    its first statement, so the candidate is written as computed. *)
Definition right_int (interval : list Z) (base dx : Z) (i : nat) : Z :=
  let perturbation := base + Z.of_nat i * dx in
  match interval with
  | [] => perturbation
  | y :: rest =>
      if py_max_Z y rest <? perturbation then perturbation (* break *)
      else perturbation
  end.

Definition left_int (interval : list Z) (base dx : Z) (i : nat) : Z :=
  let perturbation := base - (Z.of_nat i + 1) * dx in
  match interval with
  | [] => perturbation
  | y :: rest =>
      if perturbation <? py_min_Z y rest then perturbation (* break *)
      else perturbation
  end.

(** The values written for one integer hyperparameter, in the order of
    writing. *)
Definition perturb_int (side_perturb_num : nat) (key : string)
  (rollout_batch_size rollout_steps : Z) (categorical : list Z) (v : Z)
  : result (list Z) :=
  let interval := sorted categorical in
  match chosen_index interval v with
  | Raise e => Raise e
  | Ok id =>
      let dx := int_step key rollout_batch_size rollout_steps in
      let base := nth id interval 0 in
      Ok (map (right_int interval base dx) (seq 0 (side_perturb_num + 1))
          ++ map (left_int interval base dx) (seq 0 side_perturb_num))
  end.

End CategoricalInt.

(** ** [SymbolicModel.__init__]: the attributes it sets
       (symbolic_systems.py, lines 57-166)

    The CasADi calls are an interface; their results are opaque values.
    [self.__dict__] is the list of the assignments made so far, latest
    first, and an attribute is read at its latest assignment. *)

Record casadi : Type := {
  value : Type;
  shape0 : value -> value;                       (* [e.shape[0]] *)
  cs_Function :
    string -> list value -> list value -> list string -> list string -> value;
  cs_integrator :
    string -> value -> list (string * value) -> list (string * value) -> value;
  cs_jacobian : value -> value -> value;
  MX_sym : string -> value -> value;             (* [cs.MX.sym(name, n, 1)] *)
  cs_vertcat : list value -> value;
  cs_add : value -> value -> value;
  cs_sub : value -> value -> value;
  cs_matmul : value -> value -> value
}.

Section SymbolicAttributes.
Local Open Scope string_scope.
Local Open Scope list_scope.

Variable cs : casadi.

Definition attributes : Type := list (string * value cs).

Fixpoint lookup (self : attributes) (name : string) : option (value cs) :=
  match self with
  | [] => None
  | (k, v) :: rest => if String.eqb name k then Some v else lookup rest name
  end.

Definition setattr (name : string) (v : value cs) (self : attributes)
  : attributes := (name, v) :: self.

Definition getattr (self : attributes) (name : string) : result (value cs) :=
  match lookup self name with
  | Some v => Ok v
  | None => Raise AttributeError
  end.

Definition bind {A B : Type} (m : result A) (k : A -> result B) : result B :=
  match m with
  | Ok a => k a
  | Raise e => Raise e
  end.

(** Right-hand sides: expressions over the attributes of [self]. *)
Definition rhs : Type := attributes -> result (value cs).

Definition attr (name : string) : rhs := fun self => getattr self name.

Definition call1 (f : value cs -> value cs) (a : rhs) : rhs :=
  fun self => bind (a self) (fun x => Ok (f x)).

Definition call2 (f : value cs -> value cs -> value cs) (a b : rhs) : rhs :=
  fun self => bind (a self) (fun x => bind (b self) (fun y => Ok (f x y))).

Fixpoint each (l : list rhs) (self : attributes) : result (list (value cs)) :=
  match l with
  | [] => Ok []
  | a :: l' =>
      bind (a self) (fun x => bind (each l' self) (fun xs => Ok (x :: xs)))
  end.

Fixpoint entries (l : list (string * rhs)) (self : attributes)
  : result (list (string * value cs)) :=
  match l with
  | [] => Ok []
  | (k, a) :: l' =>
      bind (a self) (fun x =>
      bind (entries l' self) (fun xs => Ok ((k, x) :: xs)))
  end.

Definition Function (name : string) (ins outs : list rhs)
  (in_names out_names : list string) : rhs :=
  fun self =>
    bind (each ins self) (fun i =>
    bind (each outs self) (fun o =>
    Ok (cs_Function cs name i o in_names out_names))).

Definition integrator (name : string) (algo : rhs)
  (dae opts : list (string * rhs)) : rhs :=
  fun self =>
    bind (algo self) (fun a =>
    bind (entries dae self) (fun d =>
    bind (entries opts self) (fun o =>
    Ok (cs_integrator cs name a d o)))).

Definition vertcat (l : list rhs) : rhs :=
  fun self => bind (each l self) (fun xs => Ok (cs_vertcat cs xs)).

(** [self.name = e]. *)
Definition assign (name : string) (e : rhs) (self : attributes)
  : result attributes :=
  bind (e self) (fun v => Ok (setattr name v self)).

Definition statements (l : list (attributes -> result attributes))
  (self : attributes) : result attributes :=
  fold_left (fun acc s => bind acc s) l (Ok self).

(** [e + jx @ (x_eval - x_sym) + ju @ (u_eval - u_sym)]. *)
Definition linear_about (e jx ju : rhs) : rhs :=
  call2 (cs_add cs)
    (call2 (cs_add cs) e
       (call2 (cs_matmul cs) jx (call2 (cs_sub cs) (attr "x_eval") (attr "x_sym"))))
    (call2 (cs_matmul cs) ju (call2 (cs_sub cs) (attr "u_eval") (attr "u_sym"))).

(** Lines 98-112. *)
Definition setup_model : attributes -> result attributes :=
  statements [
    assign "fc_func"
      (Function "fc" [attr "x_sym"; attr "u_sym"] [attr "x_dot"]
         ["x"; "u"] ["f"]);
    assign "fd_func"
      (integrator "fd" (attr "integration_algo")
         [("x", attr "x_sym"); ("p", attr "u_sym"); ("ode", attr "x_dot")]
         [("tf", attr "dt")]);
    assign "g_func"
      (Function "g" [attr "x_sym"; attr "u_sym"] [attr "y_sym"]
         ["x"; "u"] ["g"])
  ].

(** Lines 114-166. *)
Definition setup_linearization : attributes -> result attributes :=
  statements [
    assign "dfdx" (call2 (cs_jacobian cs) (attr "x_dot") (attr "x_sym"));
    assign "dfdu" (call2 (cs_jacobian cs) (attr "x_dot") (attr "u_sym"));
    assign "df_func"
      (Function "df" [attr "x_sym"; attr "u_sym"] [attr "dfdx"; attr "dfdu"]
         ["x"; "u"] ["dfdx"; "dfdu"]);
    assign "dgdx" (call2 (cs_jacobian cs) (attr "y_sym") (attr "x_sym"));
    assign "dgdu" (call2 (cs_jacobian cs) (attr "y_sym") (attr "u_sym"));
    assign "dg_func"
      (Function "dg" [attr "x_sym"; attr "u_sym"] [attr "dgdx"; attr "dgdu"]
         ["x"; "u"] ["dgdx"; "dgdu"]);
    assign "x_eval" (call1 (MX_sym cs "x_eval") (attr "nx"));
    assign "u_eval" (call1 (MX_sym cs "u_eval") (attr "nu"));
    assign "x_dot_linear"
      (linear_about (attr "x_dot") (attr "dfdx") (attr "dfdu"));
    assign "fc_linear_func"
      (Function "fc"
         [attr "x_eval"; attr "u_eval"; attr "x_sym"; attr "u_sym"]
         [attr "x_dot_linear"]
         ["x_eval"; "u_eval"; "x"; "u"] ["f_linear"]);
    assign "fd_linear_func"
      (integrator "fd_linear" (attr "integration_algo")
         [("x", attr "x_eval");
          ("p", vertcat [attr "u_eval"; attr "x_sym"; attr "u_sym"]);
          ("ode", attr "x_dot_linear")]
         [("tf", attr "dt")]);
    assign "y_linear"
      (linear_about (attr "y_sym") (attr "dgdx") (attr "dgdu"));
    assign "g_linear_func"
      (Function "g_linear"
         [attr "x_eval"; attr "u_eval"; attr "x_sym"; attr "u_sym"]
         [attr "y_linear"]
         ["x_eval"; "u_eval"; "x"; "u"] ["g_linear"]);
    assign "l_x" (call2 (cs_jacobian cs) (attr "cost_func") (attr "x_sym"));
    assign "l_xx" (call2 (cs_jacobian cs) (attr "l_x") (attr "x_sym"));
    assign "l_u" (call2 (cs_jacobian cs) (attr "cost_func") (attr "u_sym"));
    assign "l_uu" (call2 (cs_jacobian cs) (attr "l_u") (attr "u_sym"));
    assign "l_xu" (call2 (cs_jacobian cs) (attr "l_x") (attr "u_sym"));
    assign "loss"
      (Function "loss"
         [attr "x_sym"; attr "u_sym"; attr "Xr"; attr "Ur"; attr "Q"; attr "R"]
         [attr "cost_func"; attr "l_x"; attr "l_xx"; attr "l_u"; attr "l_uu";
          attr "l_xu"]
         ["x"; "u"; "Xr"; "Ur"; "Q"; "R"]
         ["l"; "l_x"; "l_xx"; "l_u"; "l_uu"; "l_xu"])
  ].

(** The constructor's arguments: [dynamics] and [cost]. *)
Record dynamics_arg : Type := {
  vars_X : value cs;
  vars_U : value cs;
  dyn_eqn : value cs;
  obs_eqn : option (value cs)
}.

Record cost_arg : Type := {
  cost_cost_func : value cs;
  vars_Q : value cs;
  vars_R : value cs;
  vars_Xr : value cs;
  vars_Ur : value cs
}.

Definition const (v : value cs) : rhs := fun _ => Ok v.

(** Lines 73-76: [assert name not in self.__dict__] for each entry of
    [funcs], in the dictionary's order. *)
Fixpoint inject_funcs (funcs : list (string * value cs)) (self : attributes)
  : result attributes :=
  match funcs with
  | [] => Ok self
  | (name, func) :: rest =>
      match lookup self name with
      | Some _ => Raise AssertionError
      | None => inject_funcs rest (setattr name func self)
      end
  end.

(** Lines 78-96: everything after the injection of [funcs]. *)
Definition after_funcs (cost : cost_arg) : attributes -> result attributes :=
  statements [
    assign "nx" (call1 (shape0 cs) (attr "x_sym"));
    assign "nu" (call1 (shape0 cs) (attr "u_sym"));
    assign "ny" (call1 (shape0 cs) (attr "y_sym"));
    assign "cost_func" (const (cost_cost_func cost));
    assign "Q" (const (vars_Q cost));
    assign "R" (const (vars_R cost));
    assign "Xr" (const (vars_Xr cost));
    assign "Ur" (const (vars_Ur cost));
    setup_model;
    setup_linearization
  ].

(** Lines 58-70: everything before the injection of [funcs]. *)
Definition before_funcs (dynamics : dynamics_arg) (dt integration_algo : value cs)
  : attributes -> result attributes :=
  statements [
    assign "x_sym" (const (vars_X dynamics));
    assign "u_sym" (const (vars_U dynamics));
    assign "x_dot" (const (dyn_eqn dynamics));
    assign "y_sym" (match obs_eqn dynamics with
                    | None => attr "x_sym"
                    | Some g => const g
                    end);
    assign "dt" (const dt);
    assign "integration_algo" (const integration_algo)
  ].

Definition SymbolicModel__init__ (dynamics : dynamics_arg) (cost : cost_arg)
  (dt integration_algo : value cs) (funcs : option (list (string * value cs)))
  : result attributes :=
  statements [
    before_funcs dynamics dt integration_algo;
    (fun self => match funcs with
                 | None => Ok self
                 | Some fs => inject_funcs fs self
                 end);
    after_funcs cost
  ] [].

(** The names the constructor assigns before and after reading [funcs]. *)
Definition early_names : list string :=
  ["x_sym"; "u_sym"; "x_dot"; "y_sym"; "dt"; "integration_algo"].

Definition late_names : list string :=
  ["nx"; "nu"; "ny"; "cost_func"; "Q"; "R"; "Xr"; "Ur";
   "fc_func"; "fd_func"; "g_func";
   "dfdx"; "dfdu"; "df_func"; "dgdx"; "dgdu"; "dg_func";
   "x_eval"; "u_eval"; "x_dot_linear"; "fc_linear_func"; "fd_linear_func";
   "y_linear"; "g_linear_func";
   "l_x"; "l_xx"; "l_u"; "l_uu"; "l_xu"; "loss"].

End SymbolicAttributes.

(** A CasADi stand-in whose values are labels. *)
Definition labelled_casadi : casadi :=
  {| value := string;
     shape0 := fun _ => "n"%string;
     cs_Function := fun name _ _ _ _ => name;
     cs_integrator := fun name _ _ _ => name;
     cs_jacobian := fun _ _ => "jacobian"%string;
     MX_sym := fun name _ => name;
     cs_vertcat := fun _ => "vertcat"%string;
     cs_add := fun a _ => a;
     cs_sub := fun a _ => a;
     cs_matmul := fun a _ => a |}.

Definition labelled_dynamics : dynamics_arg labelled_casadi :=
  Build_dynamics_arg labelled_casadi "X"%string "U"%string "f"%string None.

Definition labelled_cost : cost_arg labelled_casadi :=
  Build_cost_arg labelled_casadi
    "l"%string "Q"%string "R"%string "Xr"%string "Ur"%string.

(** ** [gather_training_samples] (gpmpc_plotting_utils.py, lines 565-590)

    An episode holds its observations and its actions, one row each per
    step; rows of one data set have the same width, so [np.vstack] is the
    concatenation of the blocks.  [rand_generator.choice(a, size,
    replace=False)] is a parameter. *)

Section GatherSamples.
Local Open Scope list_scope.

Variable row : Type.

Record episode_run : Type := {
  run_obs : list row;
  run_action : list row
}.

(** [a[inds, :]] for non-negative indices: [IndexError] out of bounds. *)
Fixpoint take_rows (a : list row) (inds : list nat) : result (list row) :=
  match inds with
  | [] => Ok []
  | i :: inds' =>
      match nth_error a i with
      | None => Raise IndexError
      | Some r => bind (take_rows a inds') (fun rs => Ok (r :: rs))
      end
  end.

(** One pass of the loop body (lines 573-585). *)
Definition episode_samples
  (rand_generator : option (nat -> nat -> result (list nat)))
  (num_samples_per_episode : nat) (run_results : episode_run)
  : result (list row * list row * list row) :=
  let n := List.length (run_action run_results) in
  bind (if (num_samples_per_episode <? n)%nat
        then match rand_generator with
             | Some choice => choice (n - 1)%nat num_samples_per_episode
             | None => Ok (seq 0 num_samples_per_episode)
             end
        else Ok (seq 0 (n - 1))) (fun rand_inds =>
  let next_inds := map S rand_inds in
  bind (take_rows (run_obs run_results) rand_inds) (fun x_seq =>
  bind (take_rows (run_action run_results) rand_inds) (fun actions =>
  bind (take_rows (run_obs run_results) next_inds) (fun x_next_seq =>
  Ok (x_seq, actions, x_next_seq))))).

Fixpoint gather_loop
  (rand_generator : option (nat -> nat -> result (list nat)))
  (num_samples_per_episode : nat) (episodes : list episode_run)
  : result (list (list row) * list (list row) * list (list row)) :=
  match episodes with
  | [] => Ok ([], [], [])
  | e :: rest =>
      bind (episode_samples rand_generator num_samples_per_episode e)
        (fun '(x, a, x') =>
      bind (gather_loop rand_generator num_samples_per_episode rest)
        (fun '(xs, acts, xs') => Ok (x :: xs, a :: acts, x' :: xs')))
  end.

(** [episodes] is [all_runs[epoch_i]], keyed by [0 .. n_episodes - 1];
    [num_samples] is a non-negative integer. *)
Definition gather_training_samples (episodes : list episode_run)
  (num_samples : nat)
  (rand_generator : option (nat -> nat -> result (list nat)))
  : result (list row * list row * list row) :=
  let n_episodes := List.length episodes in
  if (n_episodes =? 0)%nat then Raise ZeroDivisionError
  else
    let num_samples_per_episode := (num_samples / n_episodes)%nat in
    bind (gather_loop rand_generator num_samples_per_episode episodes)
      (fun '(xs, acts, xs') => Ok (concat xs, concat acts, concat xs')).

(** Step [i] of episode [e]: the observation before it, the action taken
    and the observation after it. *)
Definition transition_of (e : episode_run) (i : nat) (t : row * row * row)
  : Prop :=
  nth_error (run_obs e) i = Some (fst (fst t)) /\
  nth_error (run_action e) i = Some (snd (fst t)) /\
  nth_error (run_obs e) (S i) = Some (snd t).

End GatherSamples.

(** The three components of a gathered sample. *)
Definition before_of {row : Type} (t : row * row * row) : row := fst (fst t).
Definition action_of {row : Type} (t : row * row * row) : row := snd (fst t).
Definition after_of {row : Type} (t : row * row * row) : row := snd t.

(** One episode of two steps, rows being numbers. *)
Definition two_step_episode : episode_run nat :=
  {| run_obs := [10; 11; 12]%nat; run_action := [1; 2]%nat |}.

(* ================================================================= *)
(** * Part II.  Properties                                             *)
(* ================================================================= *)

(** ** The CVaR summary *)

Section CVaRFacts.
Local Open Scope Q_scope.

Lemma insert_sorted_length : forall x l,
  List.length (insert_sorted x l) = S (List.length l).
Proof.
  intros x l; induction l as [|y l IH]; simpl; [reflexivity|].
  destruct (Qle_bool x y); simpl; [reflexivity | now rewrite IH].
Qed.

Lemma np_sort_length : forall l, List.length (np_sort l) = List.length l.
Proof.
  induction l as [|x l IH]; simpl; [reflexivity|].
  now rewrite insert_sorted_length, IH.
Qed.

Lemma insert_sorted_perm : forall x l, Permutation (insert_sorted x l) (x :: l).
Proof.
  intros x l; induction l as [|y l IH]; simpl; [apply Permutation_refl|].
  destruct (Qle_bool x y); [apply Permutation_refl|].
  eapply perm_trans; [apply perm_skip, IH | apply perm_swap].
Qed.

Lemma np_sort_perm : forall l, Permutation (np_sort l) l.
Proof.
  induction l as [|x l IH]; simpl; [constructor|].
  eapply perm_trans; [apply insert_sorted_perm | now apply perm_skip].
Qed.

Lemma insert_sorted_In : forall x y l, In y (insert_sorted x l) -> y = x \/ In y l.
Proof.
  intros x y l H.
  apply (Permutation_in _ (insert_sorted_perm x l)) in H.
  destruct H as [H|H]; [left; now symmetry | now right].
Qed.

Lemma insert_sorted_sorted : forall x l,
  StronglySorted Qle l -> StronglySorted Qle (insert_sorted x l).
Proof.
  intros x l; induction l as [|y l IH]; intros Hs; simpl.
  - constructor; constructor.
  - destruct (Qle_bool x y) eqn:E.
    + apply Qle_bool_iff in E.
      constructor; [assumption|].
      constructor; [assumption|].
      inversion Hs as [|? ? _ Hall]; subst.
      rewrite Forall_forall in *; intros b Hb.
      eapply Qle_trans; [exact E | now apply Hall].
    + assert (Hyx : y <= x).
      { destruct (Qlt_le_dec y x) as [H|H]; [now apply Qlt_le_weak|].
        apply Qle_bool_iff in H; congruence. }
      inversion Hs as [|? ? Hs' Hall]; subst.
      constructor; [now apply IH|].
      rewrite Forall_forall in *; intros b Hb.
      apply insert_sorted_In in Hb; destruct Hb as [->|Hb];
        [assumption | now apply Hall].
Qed.

Lemma np_sort_sorted : forall l, StronglySorted Qle (np_sort l).
Proof.
  induction l as [|x l IH]; simpl; [constructor | now apply insert_sorted_sorted].
Qed.

Lemma in_skipn_in : forall (A : Type) (m : nat) (s : list A) (b : A),
  In b (skipn m s) -> In b s.
Proof.
  intros A m s b H; rewrite <- (firstn_skipn m s); apply in_or_app; now right.
Qed.

(** In a sorted list everything before a cut is below everything after it. *)
Lemma sorted_cut : forall (s : list Q) (m : nat) (a b : Q),
  StronglySorted Qle s -> In a (firstn m s) -> In b (skipn m s) -> a <= b.
Proof.
  intros s m; revert s; induction m as [|m IH]; intros s a b Hs Ha Hb.
  - simpl in Ha; contradiction.
  - destruct s as [|x s]; simpl in *; [contradiction|].
    inversion Hs as [|? ? Hs' Hall]; subst.
    destruct Ha as [<-|Ha].
    + rewrite Forall_forall in Hall; apply Hall.
      eapply in_skipn_in; exact Hb.
    + now apply (IH s).
Qed.

Lemma py_int_nonneg : forall q, 0 <= q -> py_int q = Qfloor q.
Proof.
  intros [n d] H; unfold py_int, Qfloor; simpl.
  apply Z.quot_div_nonneg; [|reflexivity].
  unfold Qle in H; simpl in H; lia.
Qed.

Lemma cvar_count_bounds : forall alpha n,
  0 <= alpha -> alpha <= 1 -> (1 <= n)%nat ->
  (0 <= Qfloor (alpha * inject_Z (Z.of_nat n)) <= Z.of_nat n)%Z.
Proof.
  intros alpha n H0 H1 Hn.
  assert (Hn0 : 0 <= inject_Z (Z.of_nat n)).
  { change 0 with (inject_Z 0); rewrite <- Zle_Qle; lia. }
  split.
  - assert (H : (Qfloor 0 <= Qfloor (alpha * inject_Z (Z.of_nat n)))%Z)
      by (apply Qfloor_resp_le; now apply Qmult_le_0_compat).
    exact H.
  - assert (H : (Qfloor (alpha * inject_Z (Z.of_nat n))
                 <= Qfloor (inject_Z (Z.of_nat n)))%Z).
    { apply Qfloor_resp_le.
      rewrite <- (Qmult_1_l (inject_Z (Z.of_nat n))) at 2.
      now apply Qmult_le_compat_r. }
    now rewrite Qfloor_Z in H.
Qed.

End CVaRFacts.

Section CVaRMain.
Local Open Scope Q_scope.

(** Inside the admissible range the index the code computes is the count
    [max(1, floor(alpha*n))], and it never exceeds the batch. *)
Lemma VaR_idx_is_count : forall alpha n,
  0 <= alpha -> alpha <= 1 -> (1 <= n)%nat ->
  let v := py_int (alpha * inject_Z (Z.of_nat n)) in
  (if (v =? 0)%Z then 1%Z else v) = Z.of_nat (cvar_count alpha n) /\
  (1 <= cvar_count alpha n <= n)%nat.
Proof.
  intros alpha n H0 H1 Hn v.
  pose proof (cvar_count_bounds alpha n H0 H1 Hn) as [Hlo Hhi].
  assert (Hv : v = Qfloor (alpha * inject_Z (Z.of_nat n))).
  { apply py_int_nonneg. apply Qmult_le_0_compat; [assumption|].
    change 0 with (inject_Z 0); rewrite <- Zle_Qle; lia. }
  unfold cvar_count; rewrite <- Hv in *.
  destruct (Z.eqb_spec v 0) as [E|E]; lia.
Qed.

Lemma np_mean_nonempty : forall l, l <> [] ->
  np_mean l = Fin (Qsum l / inject_Z (Z.of_nat (List.length l))).
Proof. intros [|x l] H; [congruence | reflexivity]. Qed.

Lemma nonempty_of_length : forall (A : Type) (l : list A) k,
  List.length l = k -> (1 <= k)%nat -> l <> [].
Proof. intros A [|x l] k H Hk; simpl in H; [lia | discriminate]. Qed.

(** The slice [sorted[-k:]] holds the [k] largest values. *)
Lemma upper_slice_tail : forall batch k,
  (1 <= k <= List.length batch)%nat ->
  let s := np_sort batch in
  slice_from (- Z.of_nat k) s = skipn (List.length batch - k) s /\
  tail_of largest_first k batch
    (skipn (List.length batch - k) s) (firstn (List.length batch - k) s).
Proof.
  intros batch k Hk s.
  assert (Hlen : List.length s = List.length batch) by apply np_sort_length.
  split.
  - unfold slice_from, slice_index; rewrite Hlen.
    destruct (Z.ltb_spec (- Z.of_nat k) 0) as [_|H]; [|lia].
    f_equal; lia.
  - split; [|split].
    + rewrite firstn_skipn; apply np_sort_perm.
    + rewrite length_skipn, Hlen; lia.
    + intros a b Ha Hb; unfold largest_first.
      eapply sorted_cut; eauto using np_sort_sorted.
Qed.

(** The slice [sorted[:k]] holds the [k] smallest values. *)
Lemma lower_slice_tail : forall batch k,
  (1 <= k <= List.length batch)%nat ->
  let s := np_sort batch in
  slice_to (Z.of_nat k) s = firstn k s /\
  tail_of smallest_first k batch (firstn k s) (skipn k s).
Proof.
  intros batch k Hk s.
  assert (Hlen : List.length s = List.length batch) by apply np_sort_length.
  split.
  - unfold slice_to, slice_index; rewrite Hlen.
    destruct (Z.ltb_spec (Z.of_nat k) 0) as [H|_]; [lia|].
    f_equal; lia.
  - split; [|split].
    + eapply perm_trans; [apply Permutation_app_comm|].
      rewrite firstn_skipn; apply np_sort_perm.
    + rewrite length_firstn, Hlen; lia.
    + intros a b Ha Hb; unfold smallest_first.
      eapply sorted_cut; eauto using np_sort_sorted.
Qed.

(** For a non-empty batch and a risk level in [0,1], the summary is the
    average of exactly [max(1, floor(alpha*n))] values: the largest ones when
    the first direction is ["minimize"], the smallest ones otherwise. *)
Lemma compute_cvar_tail : forall d0 ds batch alpha,
  batch <> [] -> 0 <= alpha -> alpha <= 1 ->
  let k := cvar_count alpha (List.length batch) in
  exists sel others,
    _compute_cvar (d0 :: ds) batch alpha
      = Ok (Fin (Qsum sel / inject_Z (Z.of_nat k))) /\
    (1 <= k <= List.length batch)%nat /\
    if String.eqb d0 "minimize"
    then tail_of largest_first k batch sel others
    else tail_of smallest_first k batch sel others.
Proof.
  intros d0 ds batch alpha Hne H0 H1 k.
  assert (Hn : (1 <= List.length batch)%nat)
    by (destruct batch; [congruence | simpl; lia]).
  destruct (VaR_idx_is_count alpha _ H0 H1 Hn) as [Hidx Hk].
  fold k in Hidx, Hk.
  unfold _compute_cvar; rewrite np_sort_length, Hidx.
  destruct (String.eqb d0 "minimize").
  - destruct (upper_slice_tail batch k Hk) as [Hs Ht].
    exists (skipn (List.length batch - k) (np_sort batch)),
           (firstn (List.length batch - k) (np_sort batch)).
    split; [|split; assumption].
    rewrite Hs. destruct Ht as (_ & Hl & _).
    rewrite np_mean_nonempty by (eapply nonempty_of_length; [exact Hl | lia]).
    now rewrite Hl.
  - destruct (lower_slice_tail batch k Hk) as [Hs Ht].
    exists (firstn k (np_sort batch)), (skipn k (np_sort batch)).
    split; [|split; assumption].
    rewrite Hs. destruct Ht as (_ & Hl & _).
    rewrite np_mean_nonempty by (eapply nonempty_of_length; [exact Hl | lia]).
    now rewrite Hl.
Qed.

End CVaRMain.

Section CVaRClaims.
Local Open Scope Q_scope.
Local Open Scope string_scope.




End CVaRClaims.

(** ** The objective: escalation, faults, direction *)

Section ObjectiveFacts.
Local Open Scope Q_scope.
Local Open Scope string_scope.

Variable cfg : hpo_config.
Variable stdy : study.
Variable world : nat -> repetition.

(** The decision of lines 174-182, spelled out. *)
Lemma escalate_true_iff : forall first_iteration Gs_rew Gss_rew,
  escalate cfg stdy first_iteration Gs_rew Gss_rew = true <->
  (warm_trials cfg < Z.of_nat (trials_len stdy))%Z /\
  dynamical_runs cfg = true /\
  (xgt Gss_rew (Fin (best_value stdy)) = true \/ first_iteration = false) /\
  xgt (xabs (xsub Gs_rew Gss_rew)) (Fin (approximation_threshold cfg)) = true.
Proof.
  intros f Gs Gss; unfold escalate.
  destruct (Z.ltb_spec (warm_trials cfg) (Z.of_nat (trials_len stdy))) as [Hw|Hw];
    destruct (dynamical_runs cfg); simpl;
    try (split; [discriminate | intros (? & ? & _); (lia || discriminate)]).
  destruct (xgt Gss (Fin (best_value stdy))); destruct f; simpl;
    try (split; [intros H; repeat split; auto | intros (_ & _ & _ & H); exact H]).
  split; [discriminate | intros (_ & _ & [H|H] & _); discriminate].
Qed.

(** The loop runs one more batch exactly when [escalate] holds. *)
Lemma objective_loop_step : forall fuel first_iteration Gs_rew Gs_eff st st' r e,
  run_batch world (repetitions cfg) st = Completed st' ->
  _compute_cvar (direction cfg) (returns st') (alpha cfg) = Ok r ->
  _compute_cvar (direction cfg) (efficiencies st') (alpha cfg) = Ok e ->
  objective_loop cfg stdy world (S fuel) first_iteration Gs_rew Gs_eff st =
  if escalate cfg stdy first_iteration
       (if first_iteration then PInf else Gs_rew) r
  then objective_loop cfg stdy world fuel false r e (add_log LogTrigger st')
  else Finalized r e st'.
Proof.
  intros fuel f Gs Ge st st' r e Hb Hr He; simpl.
  now rewrite Hb, Hr, He.
Qed.

(** When the first direction is not ["minimize"], "improves" is "exceeds"
    and the code takes the decision the specification describes. *)
Lemma escalate_as_specified_when_maximizing : forall d0 ds first_iteration Gs Gss,
  direction cfg = d0 :: ds -> String.eqb d0 "minimize" = false ->
  escalate cfg stdy first_iteration Gs Gss
  = escalate_as_specified cfg stdy first_iteration Gs Gss.
Proof.
  intros d0 ds f Gs Gss Hd Hm.
  unfold escalate, escalate_as_specified, improves_on; rewrite Hd, Hm.
  destruct (warm_trials cfg <? Z.of_nat (trials_len stdy))%Z,
           (dynamical_runs cfg), f,
           (xgt Gss (Fin (best_value stdy))); simpl; reflexivity.
Qed.

(** Only the first entry of [direction] reaches the summary. *)
Lemma compute_cvar_first_direction : forall d0 ds batch a,
  _compute_cvar (d0 :: ds) batch a = _compute_cvar [d0] batch a.
Proof. reflexivity. Qed.

(** Both summaries a finished loop hands over were computed from the whole
    accumulated pools with the configured direction list. *)
Lemma objective_loop_finalized : forall fuel first_iteration Gs_rew Gs_eff st r e st',
  objective_loop cfg stdy world fuel first_iteration Gs_rew Gs_eff st
    = Finalized r e st' ->
  _compute_cvar (direction cfg) (returns st') (alpha cfg) = Ok r /\
  _compute_cvar (direction cfg) (efficiencies st') (alpha cfg) = Ok e.
Proof.
  induction fuel as [|fuel IH]; intros f Gs Ge st r e st' H; simpl in H;
    [discriminate|].
  destruct (run_batch world (repetitions cfg) st) as [st1|? ?]; [|discriminate].
  destruct (_compute_cvar (direction cfg) (returns st1) (alpha cfg)) as [r1|?] eqn:Hr;
    [|discriminate].
  destruct (_compute_cvar (direction cfg) (efficiencies st1) (alpha cfg)) as [e1|?] eqn:He;
    [|discriminate].
  destruct (escalate cfg stdy f (if f then PInf else Gs) r1).
  - apply IH in H; simpl in H; exact H.
  - inversion H; subst; now split.
Qed.

End ObjectiveFacts.

Section ObjectiveClaims.
Local Open Scope Q_scope.
Local Open Scope string_scope.
Local Open Scope list_scope.

(** The scenario of the specification, at the second summarize pass
    (baseline 10, new CVaR 9, best value 10, minimizing): the code runs one
    more batch with threshold 0.5 and finalizes with threshold 2. *)
Lemma escalation_scenario_second_pass :
  escalate (scenario_cfg ["minimize"] ["performance"] (1 # 2)) scenario_study
    false (Fin 10) (Fin 9) = true /\
  escalate (scenario_cfg ["minimize"] ["performance"] 2) scenario_study
    false (Fin 10) (Fin 9) = false.
Proof. split; reflexivity. Qed.

(** ... but a first pass with CVaR 10 against a best value of 10 finalizes
    the trial, so that second pass is never reached from there. *)
Lemma escalation_scenario_first_pass :
  forall thr, escalate (scenario_cfg ["minimize"] ["performance"] thr)
                scenario_study true PInf (Fin 10) = false.
Proof. reflexivity. Qed.

(** C2.  The code compares with [>] whatever the direction.  With direction
    ["minimize"], best value 10 and a first-pass CVaR of 5 (a strict
    improvement, and the change from the infinite baseline exceeds 0.5) the
    rule of the specification asks for one more batch, while the code
    finalizes the trial after a single batch.  Conversely a first-pass CVaR
    of 15, which does not improve on 10, makes the code run a second
    batch. *)
Theorem escalation_reads_improvement_as_greater :
  let cfg := scenario_cfg ["minimize"] ["performance"] (1 # 2) in
  escalate_as_specified cfg scenario_study true PInf (Fin 5) = true /\
  escalate cfg scenario_study true PInf (Fin 5) = false /\
  (exists st, objective cfg scenario_study (world_of (steady_agent 5)) 2 None 0
              = Returned (Single (Fin 5)) st /\ seeds st = [0%nat]) /\
  escalate_as_specified cfg scenario_study true PInf (Fin 15) = false /\
  escalate cfg scenario_study true PInf (Fin 15) = true /\
  (exists st, objective cfg scenario_study (world_of (steady_agent 15)) 3 None 0
              = Returned (Single (Fin 15)) st /\ seeds st = [0%nat; 1%nat]).
Proof.
  cbv zeta.
  split; [reflexivity|]. split; [reflexivity|].
  split; [eexists; split; vm_compute; reflexivity|].
  split; [reflexivity|]. split; [reflexivity|].
  eexists; split; vm_compute; reflexivity.
Qed.

(** A repetition whose [_learn] raises, whatever [reset] did before: the
    scores 0.0 and 0.0 are appended, the fault is logged, the agent is
    closed and the batch ends there, however many seeds were left. *)
Lemma learn_fault_ends_batch : forall world n st a reset_raises,
  rep_make (world (List.length (seeds st))) = Made a reset_raises ->
  learn_raises a = true ->
  exists st',
    run_batch world (S n) st = Completed st' /\
    returns st' = returns st ++ [0] /\
    efficiencies st' = efficiencies st ++ [0] /\
    seeds st' = seeds st ++ [rep_seed (world (List.length (seeds st)))] /\
    In LogLearnFault (log st') /\
    agent_slot st' = None /\
    total_runs st' = total_runs st.
Proof.
  intros world n st a rr Hmake Hlearn.
  simpl. unfold run_repetition, construct; rewrite Hmake.
  destruct rr; unfold learn_and_score; simpl; rewrite Hlearn;
    eexists; (split; [reflexivity|]); simpl;
    repeat split; try reflexivity;
    apply in_or_app; right; now left.
Qed.

(** A fault of [_run] is outside every [try]: it leaves the batch. *)
Lemma run_fault_propagates : forall world n st a reset_raises,
  rep_make (world (List.length (seeds st))) = Made a reset_raises ->
  learn_raises a = false ->
  run_result a = None ->
  exists st',
    run_batch world (S n) st = Propagated AgentError st' /\
    returns st' = returns st /\
    efficiencies st' = efficiencies st.
Proof.
  intros world n st a rr Hmake Hlearn Hrun.
  simpl. unfold run_repetition, construct; rewrite Hmake.
  destruct rr; unfold learn_and_score; simpl; rewrite Hlearn, Hrun;
    eexists; (split; [reflexivity|]); simpl; now split.
Qed.

End ObjectiveClaims.

Section FaultClaims.
Local Open Scope Q_scope.
Local Open Scope string_scope.
Local Open Scope list_scope.

(** C5 (as amended).  In every repetition batch, if the agent's learning
    step [_learn] raises, that repetition contributes return 0.0 and
    efficiency 0.0, no further seed of the batch is attempted, the fault is
    logged and the batch completes without raising.  A fault raised by the
    evaluation step [_run] is not caught: it leaves the objective call and
    no score is recorded for that repetition. *)
Theorem learn_fault_scored_zero_run_fault_raised :
  forall world n st a reset_raises,
    rep_make (world (List.length (seeds st))) = Made a reset_raises ->
    (learn_raises a = true ->
     exists st',
       run_batch world (S n) st = Completed st' /\
       returns st' = returns st ++ [0] /\
       efficiencies st' = efficiencies st ++ [0] /\
       seeds st' = seeds st ++ [rep_seed (world (List.length (seeds st)))] /\
       In LogLearnFault (log st')) /\
    (learn_raises a = false -> run_result a = None ->
     exists st',
       run_batch world (S n) st = Propagated AgentError st' /\
       returns st' = returns st /\
       efficiencies st' = efficiencies st).
Proof.
  intros world n st a rr Hmake; split.
  - intros Hl.
    destruct (learn_fault_ends_batch world n st a rr Hmake Hl)
      as (st' & H1 & H2 & H3 & H4 & H5 & _).
    exists st'; repeat split; assumption.
  - intros Hl Hr. now apply (run_fault_propagates world n st a rr).
Qed.

Lemma learn_fault_scored_zero_run_fault_raised_witness :
  exists st',
    run_batch (world_from [steady_agent 4; learn_fault_agent] (steady_agent 0))
      3 (enter None 0) = Completed st' /\
    returns st' = [4; 0] /\ efficiencies st' = [0; 0] /\
    seeds st' = [0%nat; 1%nat].
Proof.
  pose (w := world_from [steady_agent 4; learn_fault_agent] (steady_agent 0)).
  pose (st1 := {| agent_slot := None; total_runs := 1;
                  log := [LogTrial; LogSeeds [0%nat]; LogRewards [4]];
                  returns := [4]; efficiencies := [0]; seeds := [0%nat] |}).
  destruct (learn_fault_scored_zero_run_fault_raised w 1 st1 learn_fault_agent false)
    as [H _]; [reflexivity|].
  destruct (H eq_refl) as (st' & Hb & Hr & He & Hs & _).
  exists st'; repeat split; assumption.
Defined.

(** C5, the claim as worded, fails when [_run] raises: the second draw's
    fault leaves the objective call and no 0.0 is recorded for it. *)
Lemma run_fault_leaves_objective :
  exists st,
    objective (plain_cfg ["minimize"] ["performance"]) scenario_study
      (world_from [steady_agent 4; run_fault_agent] (steady_agent 0)) 3 None 0
    = Failed AgentError st /\
    returns st = [4] /\ efficiencies st = [0] /\ seeds st = [0%nat; 1%nat].
Proof. eexists; split; [vm_compute; reflexivity | repeat split]. Qed.

(** When [make] itself raises and no agent is bound, the handler of the
    learning step reads [self.agent] again and the [AttributeError] leaves
    the objective call. *)
Lemma make_fault_leaves_objective :
  exists st,
    objective (plain_cfg ["minimize"] ["performance"]) scenario_study
      world_unbuildable 3 None 0
    = Failed AttributeError st /\
    returns st = [] /\ In LogConstructFault (log st).
Proof.
  eexists; split; [vm_compute; reflexivity|].
  split; [reflexivity | simpl; tauto].
Qed.

(** C10.  Whatever follows the first entry of the direction list, both
    summaries of a returned trial, the one over returns and the one over
    efficiencies, are [_compute_cvar] under that first entry alone, and the
    result is composed from these two.  So with directions
    ["minimize", "maximize"] the efficiency objective is summarised as if
    minimizing. *)
Theorem cvar_direction_is_first_entry :
  forall cfg stdy world fuel slot runs d0 ds v st,
    direction cfg = d0 :: ds ->
    objective cfg stdy world fuel slot runs = Returned v st ->
    exists r e,
      _compute_cvar [d0] (returns st) (alpha cfg) = Ok r /\
      _compute_cvar [d0] (efficiencies st) (alpha cfg) = Ok e /\
      compose cfg r e = Ok v.
Proof.
  intros cfg stdy world fuel slot runs d0 ds v st Hd H.
  unfold objective in H.
  destruct (objective_loop cfg stdy world fuel true PInf PInf (enter slot runs))
    as [r e st'| |] eqn:Hloop; try discriminate.
  apply objective_loop_finalized in Hloop; destruct Hloop as [Hr He].
  rewrite Hd in Hr, He.
  destruct (compose cfg r e) as [v'|] eqn:Hc; [|discriminate].
  inversion H; subst; simpl.
  exists r, e; repeat split; assumption.
Qed.

Lemma cvar_direction_is_first_entry_witness :
  exists st r e,
    objective (plain_cfg ["minimize"; "maximize"] ["performance"; "efficiency"])
      scenario_study
      (world_from [curve_agent 4; curve_agent 8; curve_agent 12] (steady_agent 0))
      3 None 0 = Returned (Both (Fin 12) (Fin (12 # 4))) st /\
    _compute_cvar ["minimize"] (efficiencies st) (1 # 5) = Ok e /\
    _compute_cvar ["minimize"] (returns st) (1 # 5) = Ok r /\
    Both r e = Both (Fin 12) (Fin (12 # 4)) /\
    _compute_cvar ["maximize"] (efficiencies st) (1 # 5) = Ok (Fin (4 # 4)).
Proof.
  pose (c := plain_cfg ["minimize"; "maximize"] ["performance"; "efficiency"]).
  pose (w := world_from [curve_agent 4; curve_agent 8; curve_agent 12] (steady_agent 0)).
  destruct (objective c scenario_study w 3 None 0) as [v st| |] eqn:Ho;
    try (vm_compute in Ho; discriminate).
  destruct (cvar_direction_is_first_entry c scenario_study w 3 None 0
              "minimize" ["maximize"] v st eq_refl Ho) as (r & e & Hr & He & Hc).
  assert (Hv : Returned v st = Returned (Both (Fin 12) (Fin (12 # 4)))
      {| agent_slot := None; total_runs := 3;
         log := [LogTrial; LogSeeds [0%nat]; LogRewards [4];
                 LogSeeds [0%nat; 1%nat]; LogRewards [4; 8];
                 LogSeeds [0%nat; 1%nat; 2%nat]; LogRewards [4; 8; 12];
                 LogCVaR (Fin 12)];
         returns := [4; 8; 12]; efficiencies := [4 # 4; 8 # 4; 12 # 4];
         seeds := [0%nat; 1%nat; 2%nat] |}).
  { rewrite <- Ho; vm_compute; reflexivity. }
  inversion Hv; subst v st.
  eexists; exists r, e.
  split; [exact Ho|]. split; [exact He|]. split; [exact Hr|].
  split; [|vm_compute; reflexivity].
  vm_compute in Hc. inversion Hc; reflexivity.
Defined.

End FaultClaims.

(** ** The training loop *)

Section TrainFacts.
Local Open Scope Q_scope.

Variable train_loss : nat -> Q.
Variable test_loss : nat -> Q.

Lemma train_body_last_loss : forall st,
  last_loss (train_body train_loss test_loss st) = last_loss st.
Proof. reflexivity. Qed.

(** [last_loss] keeps its initial value through the whole loop. *)
Lemma train_loop_last_loss : forall budget st,
  last_loss (train_loop train_loss test_loss budget st) = last_loss st.
Proof.
  induction budget as [|b IH]; intros st; simpl; [reflexivity|].
  destruct (still_moving st); [|reflexivity].
  now rewrite IH.
Qed.

(** As long as no training loss comes within 0.01 of the constant 99999999,
    the loop spends its whole budget. *)
Lemma train_loop_spends_budget : forall budget st,
  last_loss st = 99999999 ->
  still_moving st = true ->
  (forall j, (it st <= j < it st + budget)%nat ->
             Qltb (1 # 100) (Qabs (train_loss j - 99999999)) = true) ->
  it (train_loop train_loss test_loss budget st) = (it st + budget)%nat.
Proof.
  induction budget as [|b IH]; intros st Hl Hm Hfar; simpl; [lia|].
  rewrite Hm, IH; simpl; try lia; try assumption.
  - destruct b as [|b]; [|].
    + unfold still_moving; simpl. rewrite Hl. apply Hfar; lia.
    + unfold still_moving; simpl. rewrite Hl. apply Hfar; lia.
  - intros j Hj; apply Hfar; lia.
Qed.

(** However the consecutive losses compare, [train] runs [n_train]
    iterations when the losses stay away from 99999999. *)
Lemma train_runs_all_iterations : forall n_train,
  (forall j, (j < n_train)%nat ->
             Qltb (1 # 100) (Qabs (train_loss j - 99999999)) = true) ->
  it (train train_loss test_loss n_train) = n_train.
Proof.
  intros n H; unfold train.
  rewrite train_loop_spends_budget; simpl; try reflexivity.
  intros j Hj; apply H; lia.
Qed.

End TrainFacts.

Section TrainClaims.
Local Open Scope Q_scope.

(** C6.  With a training loss that is 1 at every iteration and a budget of
    5, the loss of the second iteration equals that of the first, so the
    rule of the specification stops after 2 iterations; the code compares
    with [last_loss], which still holds 99999999, and runs all 5. *)
Theorem train_compares_with_initial_last_loss :
  it (train_as_specified (fun _ => 1) (fun _ => 1) 5) = 2%nat /\
  it (train (fun _ => 1) (fun _ => 1) 5) = 5%nat /\
  last_loss (train (fun _ => 1) (fun _ => 1) 5) = 99999999.
Proof. repeat split; vm_compute; reflexivity. Qed.

End TrainClaims.

(** ** The collection: prediction and loading *)

Section TensorFacts.
Local Open Scope Q_scope.
Local Open Scope list_scope.

Lemma items_singletons : forall ts ms,
  map data ts = map (fun m => [m]) ms -> items ts = Ok ms.
Proof.
  induction ts as [|t ts IH]; intros [|m ms] H; simpl in H; try discriminate.
  - reflexivity.
  - inversion H as [[Ht Hts]]; simpl.
    unfold item; rewrite Ht, (IH ms Hts); reflexivity.
Qed.

Lemma cat_onto_columns : forall vs d0 acc,
  cat_onto d0 [1%nat] acc (map scalar_cov vs)
  = Ok {| shape := [(d0 + List.length vs)%nat; 1%nat]; data := acc ++ vs |}.
Proof.
  induction vs as [|v vs IH]; intros d0 acc; simpl.
  - now rewrite Nat.add_0_r, app_nil_r.
  - unfold same_shape.
    destruct (list_eq_dec Nat.eq_dec [1%nat] [1%nat]) as [_|N]; [|congruence].
    rewrite IH, <- app_assoc; simpl.
    do 2 f_equal. f_equal. lia.
Qed.

Lemma torch_cat_columns : forall vs, vs <> [] ->
  torch_cat (map scalar_cov vs)
  = Ok {| shape := [List.length vs; 1%nat]; data := vs |}.
Proof.
  intros [|v vs] H; [congruence|]; simpl.
  now rewrite cat_onto_columns.
Qed.

(** Entry [i*n + j] of a concatenation of rows of length [n] is entry [j] of
    row [i]. *)
Lemma nth_flat_map_row : forall (f : nat -> list Q) (n : nat) (l : list nat) i j d,
  (forall a, List.length (f a) = n) -> (j < n)%nat -> (i < List.length l)%nat ->
  nth (i * n + j) (flat_map f l) d = nth j (f (nth i l O)) d.
Proof.
  intros f n l; induction l as [|a l IH]; intros i j d Hf Hj Hi; simpl in Hi;
    [lia|].
  simpl flat_map. destruct i as [|i]; simpl.
  - rewrite app_nth1; [reflexivity | rewrite Hf; exact Hj].
  - rewrite app_nth2 by (rewrite Hf; lia).
    rewrite Hf. replace (n + i * n + j - n)%nat with (i * n + j)%nat by lia.
    apply IH; [assumption | assumption | lia].
Qed.

(** [diag_embed v] is diagonal, with [v] on the diagonal. *)
Lemma diag_embed_entry : forall v i j,
  (i < List.length v)%nat -> (j < List.length v)%nat ->
  nth (i * List.length v + j) (diag_embed v) 0
  = if (i =? j)%nat then nth i v 0 else 0.
Proof.
  intros v i j Hi Hj; unfold diag_embed.
  rewrite nth_flat_map_row;
    [| intros a; now rewrite length_map, length_seq | exact Hj
     | now rewrite length_seq ].
  rewrite seq_nth by exact Hi; simpl.
  set (g := fun j0 : nat => if (i =? j0)%nat then nth i v 0 else 0).
  rewrite (nth_indep _ 0 (g O)) by (now rewrite length_map, length_seq).
  rewrite map_nth, seq_nth by exact Hj. reflexivity.
Qed.

End TensorFacts.

Section PredictClaims.
Local Open Scope Q_scope.
Local Open Scope list_scope.

Lemma squeeze_column : forall k d, (2 <= k)%nat ->
  squeeze {| shape := [k; 1%nat]; data := d |} = {| shape := [k]; data := d |}.
Proof.
  intros k d Hk; unfold squeeze; simpl.
  destruct (Nat.eqb_spec k 1); [lia | reflexivity].
Qed.

Lemma squeeze_batch_cov : forall k d, (2 <= k)%nat ->
  squeeze {| shape := [k; 1%nat; 1%nat]; data := d |}
  = {| shape := [k]; data := d |}.
Proof.
  intros k d Hk; unfold squeeze; simpl.
  destruct (Nat.eqb_spec k 1); [lia | reflexivity].
Qed.

(** The diagonal matrix [torch.diag] builds from [k] variances. *)
Lemma torch_diag_vector : forall diag_scalar vs,
  exists cov,
    torch_diag diag_scalar {| shape := [List.length vs]; data := vs |} = Ok cov /\
    shape cov = [List.length vs; List.length vs] /\
    forall i j, (i < List.length vs)%nat -> (j < List.length vs)%nat ->
      entry cov i j = if (i =? j)%nat then nth i vs 0 else 0.
Proof.
  intros ds vs; eexists; split; [reflexivity|]; split; [reflexivity|].
  intros i j Hi Hj; unfold entry; simpl.
  now apply diag_embed_entry.
Qed.




End PredictClaims.

Section LoadClaims.
Local Open Scope Q_scope.
Local Open Scope list_scope.

(** A batch of several query points is refused in the per-dimension mode:
    [torch.tensor] converts one-element tensors only. *)
Lemma items_rejects : forall ts,
  (exists t, In t ts /\ List.length (data t) <> 1%nat) ->
  items ts = Raise ValueError.
Proof.
  induction ts as [|t ts IH]; intros (u & Hin & Hlen); [contradiction|].
  simpl. unfold item at 1.
  destruct (data t) as [|v [|w rest]] eqn:Hd.
  - reflexivity.
  - destruct Hin as [<-|Hin]; [rewrite Hd in Hlen; simpl in Hlen; congruence|].
    rewrite IH by (exists u; now split). reflexivity.
  - reflexivity.
Qed.

(** In per-dimension mode [predict] raises [ValueError] as soon as one GP of
    the collection returns a mean that is not a single element. *)
Lemma predict_rejects_many_points : forall diag_scalar c x,
  parallel c = false ->
  (exists g, In g (gp_list c) /\
             List.length (data (post_mean (gp_predict g x))) <> 1%nat) ->
  predict diag_scalar c x = Raise ValueError.
Proof.
  intros ds c x Hp (g & Hin & Hlen); unfold predict; rewrite Hp.
  unfold torch_tensor; rewrite items_rejects; [reflexivity|].
  exists (post_mean (gp_predict g x)); split; [|exact Hlen].
  apply in_map_iff; exists g; now split.
Qed.

(** C8.  In parallel mode [init_with_hyperparam] raises at its first
    statement and leaves the collection as it was.  Otherwise the call goes
    on: the dimensions are recorded from the training data, the GPs are
    loaded in order, and when every load succeeds the stacked caches are
    installed and the call returns. *)
Theorem init_with_hyperparam_refuses_parallel :
  forall load train_inputs train_targets c,
    (parallel c = true ->
     init_with_hyperparam load train_inputs train_targets c
       = (Raise AssertionError, c)) /\
    (parallel c = false ->
     forall n d m td rest rest' gl ks kinvs k kinv,
       shape train_inputs = n :: d :: rest ->
       shape train_targets = m :: td :: rest' ->
       load_all load (target_mask c) 0 (gp_list c) = (gl, Ok (ks, kinvs)) ->
       torch_stack ks = Ok k ->
       torch_stack kinvs = Ok kinv ->
       exists c',
         init_with_hyperparam load train_inputs train_targets c = (Ok tt, c') /\
         input_dimension c' = Some d /\
         output_dimension c' = Some td /\
         n_training_samples c' = Some n /\
         gp_list c' = gl /\
         K_plus_noise c' = Some k /\
         K_plus_noise_inv c' = Some kinv).
Proof.
  intros load ti tg c; split; intros Hp.
  - unfold init_with_hyperparam; now rewrite Hp.
  - intros n d m td rest rest' gl ks kinvs k kinv Hti Htg Hl Hk Hkinv.
    unfold init_with_hyperparam, _init_properties.
    rewrite Hp, Hti, Htg; simpl. rewrite Hl, Hk, Hkinv.
    eexists; split; [reflexivity|]. simpl. repeat split; reflexivity.
Qed.

Lemma init_with_hyperparam_refuses_parallel_witness :
  init_with_hyperparam ready_loader one_point one_point batched_single
    = (Raise AssertionError, batched_single) /\
  exists c',
    init_with_hyperparam ready_loader one_point one_point two_gps = (Ok tt, c') /\
    output_dimension c' = Some 1%nat /\
    K_plus_noise c'
      = Some {| shape := [2%nat; 1%nat; 1%nat]; data := [2; 2] |}.
Proof.
  split.
  - apply (proj1 (init_with_hyperparam_refuses_parallel
                    ready_loader one_point one_point batched_single)).
    reflexivity.
  - destruct (proj2 (init_with_hyperparam_refuses_parallel
                       ready_loader one_point one_point two_gps) eq_refl
                1%nat 1%nat 1%nat 1%nat [] []
                [ {| gp_predict := gp_predict (const_gp 1 (1 # 4));
                     gp_K_plus_noise := Some (scalar_cov 2);
                     gp_K_plus_noise_inv := Some (scalar_cov (1 # 2)) |};
                  {| gp_predict := gp_predict (const_gp 2 (1 # 9));
                     gp_K_plus_noise := Some (scalar_cov 2);
                     gp_K_plus_noise_inv := Some (scalar_cov (1 # 2)) |} ]
                [scalar_cov 2; scalar_cov 2]
                [scalar_cov (1 # 2); scalar_cov (1 # 2)]
                {| shape := [2%nat; 1%nat; 1%nat]; data := [2; 2] |}
                {| shape := [2%nat; 1%nat; 1%nat]; data := [1 # 2; 1 # 2] |})
      as (c' & Hc & _ & Ho & _ & _ & Hk & _); try reflexivity.
    exists c'; repeat split; assumption.
Defined.

End LoadClaims.

(** ** Perturbation of a float hyperparameter *)

Section PerturbFacts.
Local Open Scope Q_scope.
Local Open Scope list_scope.

Lemma Qltb_true : forall x y, Qltb x y = true <-> x < y.
Proof.
  intros x y; unfold Qltb; rewrite negb_true_iff.
  split; intros H.
  - apply Qnot_le_lt; intros Hle; apply Qle_bool_iff in Hle; congruence.
  - destruct (Qle_bool y x) eqn:E; [|reflexivity].
    apply Qle_bool_iff in E. exfalso; now apply (Qlt_not_le x y).
Qed.

Lemma Qltb_false : forall x y, Qltb x y = false <-> y <= x.
Proof.
  intros x y; unfold Qltb; rewrite negb_false_iff. apply Qle_bool_iff.
Qed.

Lemma pow10_pos : forall m, 1 <= pow10 m.
Proof.
  induction m as [|m IH]; simpl; [apply Qle_refl | lra].
Qed.

Lemma pow10_mono : forall m k, (m <= k)%nat -> pow10 m <= pow10 k.
Proof.
  intros m k H; induction H as [|k H IH]; [apply Qle_refl|].
  simpl; pose proof (pow10_pos k); lra.
Qed.

Lemma pow10_ge_index : forall m, inject_Z (Z.of_nat m) <= pow10 m.
Proof.
  induction m as [|m IH]; [simpl; unfold Qle; simpl; lia|].
  rewrite Nat2Z.inj_succ; unfold Z.succ; rewrite inject_Z_plus.
  simpl pow10. pose proof (pow10_pos m).
  change (inject_Z 1) with 1. lra.
Qed.

(** Enough fuel exists: a positive gap times a power of ten exceeds any
    given amount. *)
Lemma pow10_reaches : forall c gap, 0 < gap ->
  exists N, forall fuel, (N <= fuel)%nat -> c <= gap * pow10 fuel.
Proof.
  intros c gap Hgap.
  exists (Z.to_nat (Qceiling (c / gap))); intros fuel Hfuel.
  assert (Hq : c / gap <= pow10 fuel).
  { eapply Qle_trans; [apply Qle_ceiling|].
    eapply Qle_trans; [|apply pow10_ge_index].
    rewrite <- Zle_Qle. lia. }
  apply (Qmult_le_compat_r _ _ gap) in Hq; [|now apply Qlt_le_weak].
  assert (Hc : c / gap * gap == c) by (field; intros E; rewrite E in Hgap; now apply (Qlt_irrefl 0)).
  rewrite Hc in Hq. rewrite (Qmult_comm gap). exact Hq.
Qed.

Lemma index_nonneg : forall i : nat, 0 <= inject_Z (Z.of_nat i).
Proof.
  intros i; change 0 with (inject_Z 0); rewrite <- Zle_Qle; lia.
Qed.

(** The [while] loop on the right: with enough fuel it ends, on a step that
    is still positive and a candidate that is inside the upper bound. *)
Lemma shrink_right_ends : forall fuel v i hi dx,
  0 < dx ->
  inject_Z (Z.of_nat i) * dx <= (hi - v) * pow10 fuel ->
  exists dx',
    shrink_right 10 fuel (HFloat v) i hi dx (v + inject_Z (Z.of_nat i) * dx)
      = Done (dx', v + inject_Z (Z.of_nat i) * dx') /\
    0 < dx' /\ dx' <= dx /\ v + inject_Z (Z.of_nat i) * dx' <= hi.
Proof.
  induction fuel as [|fuel IH]; intros v i hi dx Hdx Hfuel.
  - simpl in Hfuel.
    assert (Hin : v + inject_Z (Z.of_nat i) * dx <= hi) by lra.
    exists dx; simpl.
    apply Qltb_false in Hin; rewrite Hin.
    apply Qltb_false in Hin. repeat split; try assumption; apply Qle_refl.
  - simpl.
    destruct (Qltb hi (v + inject_Z (Z.of_nat i) * dx)) eqn:E.
    + change (dx / 10) with (dx * (1 # 10)).
      destruct (IH v i hi (dx * (1 # 10))) as (dx' & Hr & Hp & Hle & Hin).
      * lra.
      * simpl in Hfuel. lra.
      * exists dx'; repeat split; try assumption. lra.
    + apply Qltb_false in E.
      exists dx; repeat split; try assumption; apply Qle_refl.
Qed.

(** The same on the left. *)
Lemma shrink_left_ends : forall fuel v i lo dx,
  0 < dx ->
  inject_Z (Z.of_nat (i + 1)) * dx <= (v - lo) * pow10 fuel ->
  exists dx',
    shrink_left 10 fuel v i lo dx (v - inject_Z (Z.of_nat (i + 1)) * dx)
      = Done (dx', v - inject_Z (Z.of_nat (i + 1)) * dx') /\
    0 < dx' /\ dx' <= dx /\ lo <= v - inject_Z (Z.of_nat (i + 1)) * dx'.
Proof.
  induction fuel as [|fuel IH]; intros v i lo dx Hdx Hfuel.
  - simpl in Hfuel.
    assert (Hin : lo <= v - inject_Z (Z.of_nat (i + 1)) * dx) by lra.
    exists dx; simpl.
    apply Qltb_false in Hin; rewrite Hin.
    apply Qltb_false in Hin. repeat split; try assumption; apply Qle_refl.
  - simpl.
    destruct (Qltb (v - inject_Z (Z.of_nat (i + 1)) * dx) lo) eqn:E.
    + change (dx / 10) with (dx * (1 # 10)).
      destruct (IH v i lo (dx * (1 # 10))) as (dx' & Hr & Hp & Hle & Hin).
      * lra.
      * simpl in Hfuel. lra.
      * exists dx'; repeat split; try assumption. lra.
    + apply Qltb_false in E.
      exists dx; repeat split; try assumption; apply Qle_refl.
Qed.

End PerturbFacts.

Section PerturbLoops.
Local Open Scope Q_scope.
Local Open Scope list_scope.

Lemma scaled_index_le : forall (i bound : nat) (d dx : Q),
  (i <= bound)%nat -> 0 < d -> d <= dx ->
  inject_Z (Z.of_nat i) * d <= inject_Z (Z.of_nat bound) * dx.
Proof.
  intros i bound d dx Hi Hd Hle.
  assert (H1 : inject_Z (Z.of_nat i) <= inject_Z (Z.of_nat bound))
    by (rewrite <- Zle_Qle; lia).
  pose proof (index_nonneg i). nra.
Qed.

Lemma right_loop_ends : forall fuel lo v hi bound todo dx out,
  lo <= v -> 0 < dx ->
  (forall i, In i todo -> (i <= bound)%nat) ->
  inject_Z (Z.of_nat bound) * dx <= (hi - v) * pow10 fuel ->
  exists dx' ps,
    right_loop 10 fuel (HFloat v) v hi todo dx out
      = Done (dx', out ++ map HFloat ps) /\
    0 < dx' /\ dx' <= dx /\
    Forall2 (right_candidate lo v hi) todo ps.
Proof.
  intros fuel lo v hi bound todo; induction todo as [|i todo IH];
    intros dx out Hlo Hdx Hb Hfuel.
  - exists dx, []; simpl; rewrite app_nil_r.
    repeat split; try assumption; [apply Qle_refl | constructor].
  - simpl.
    destruct (shrink_right_ends fuel v i hi dx Hdx) as (d1 & Hr & Hp & Hle & Hin).
    { eapply Qle_trans; [|exact Hfuel].
      apply scaled_index_le; [apply Hb; now left | assumption | apply Qle_refl]. }
    rewrite Hr.
    destruct (IH d1 (out ++ [HFloat (v + inject_Z (Z.of_nat i) * d1)]) Hlo Hp)
      as (d2 & ps & Hrun & Hp2 & Hle2 & Hall).
    { intros j Hj; apply Hb; now right. }
    { eapply Qle_trans; [|exact Hfuel].
      apply scaled_index_le; [lia | assumption | assumption]. }
    exists d2, ((v + inject_Z (Z.of_nat i) * d1) :: ps).
    rewrite Hrun, <- app_assoc; simpl.
    repeat split; try assumption; [lra|].
    constructor; [|exact Hall].
    pose proof (index_nonneg i) as Hi.
    unfold right_candidate; repeat split; try assumption.
    + nra.
    + nra.
    + intros Hpos.
      assert (H1 : 1 <= inject_Z (Z.of_nat i)).
      { change 1 with (inject_Z 1); rewrite <- Zle_Qle; lia. }
      nra.
Qed.

Lemma left_loop_ends : forall fuel lo v hi bound todo dx out,
  v <= hi -> 0 < dx ->
  (forall i, In i todo -> (i + 1 <= bound)%nat) ->
  inject_Z (Z.of_nat bound) * dx <= (v - lo) * pow10 fuel ->
  exists dx' ps,
    left_loop 10 fuel (HFloat v) v lo todo dx out
      = Done (dx', out ++ map HFloat ps) /\
    0 < dx' /\ dx' <= dx /\
    Forall2 (left_candidate lo v hi) todo ps.
Proof.
  intros fuel lo v hi bound todo; induction todo as [|i todo IH];
    intros dx out Hhi Hdx Hb Hfuel.
  - exists dx, []; simpl; rewrite app_nil_r.
    repeat split; try assumption; [apply Qle_refl | constructor].
  - simpl.
    destruct (shrink_left_ends fuel v i lo dx Hdx) as (d1 & Hr & Hp & Hle & Hin).
    { eapply Qle_trans; [|exact Hfuel].
      apply scaled_index_le; [apply Hb; now left | assumption | apply Qle_refl]. }
    rewrite Hr.
    destruct (IH d1 (out ++ [HFloat (v - inject_Z (Z.of_nat (i + 1)) * d1)]) Hhi Hp)
      as (d2 & ps & Hrun & Hp2 & Hle2 & Hall).
    { intros j Hj; apply Hb; now right. }
    { eapply Qle_trans; [|exact Hfuel].
      apply scaled_index_le; [lia | assumption | assumption]. }
    exists d2, ((v - inject_Z (Z.of_nat (i + 1)) * d1) :: ps).
    rewrite Hrun, <- app_assoc; simpl.
    repeat split; try assumption; [lra|].
    constructor; [|exact Hall].
    assert (H1 : 1 <= inject_Z (Z.of_nat (i + 1))).
    { change 1 with (inject_Z 1); rewrite <- Zle_Qle; lia. }
    unfold left_candidate; repeat split; try assumption; nra.
Qed.

End PerturbLoops.

Section PerturbClaims.
Local Open Scope Q_scope.
Local Open Scope string_scope.
Local Open Scope list_scope.




End PerturbClaims.

(** ** Kernels *)

Section KernelFacts.
Local Open Scope R_scope.

Lemma sum1_sq_scaled : forall x z ell,
  Forall (fun l => 0 < l) ell ->
  sum1_sq x z ell = scaled_sq_dist x z ell.
Proof.
  induction x as [|xi x IH]; intros [|zi z] [|li ell] Hell; cbn [sum1_sq scaled_sq_dist]; try reflexivity.
  inversion Hell as [|? ? Hli Hell']; subst.
  rewrite (IH z ell Hell'). f_equal. field. lra.
Qed.

Lemma sum1_sq_nonneg : forall x z ell,
  Forall (fun l => 0 < l) ell -> 0 <= sum1_sq x z ell.
Proof.
  induction x as [|xi x IH]; intros [|zi z] [|li ell] Hell; cbn [sum1_sq]; try lra.
  inversion Hell as [|? ? Hli Hell']; subst.
  specialize (IH z ell Hell').
  assert (0 <= (xi - zi) ^ 2 / li ^ 2).
  { apply Rmult_le_pos; [apply pow2_ge_0|].
    left; apply Rinv_0_lt_compat. nra. }
  lra.
Qed.

Lemma sum1_sq_sym : forall x z ell, sum1_sq x z ell = sum1_sq z x ell.
Proof.
  induction x as [|xi x IH]; intros [|zi z] [|li ell]; cbn [sum1_sq]; try reflexivity.
  rewrite (IH z ell). f_equal. f_equal. ring.
Qed.

(** The distance vanishes exactly on equal vectors. *)
Lemma sum1_sq_zero_iff : forall x z ell,
  List.length x = List.length z -> List.length ell = List.length x ->
  Forall (fun l => 0 < l) ell ->
  (sum1_sq x z ell = 0 <-> x = z).
Proof.
  induction x as [|xi x IH]; intros [|zi z] [|li ell] Hxz Hl Hell;
    cbn [sum1_sq List.length] in *; try discriminate; [tauto|].
  inversion Hell as [|? ? Hli Hell']; subst.
  assert (Hxz' : List.length x = List.length z) by lia.
  assert (Hl' : List.length ell = List.length x) by lia.
  pose proof (sum1_sq_nonneg x z ell Hell') as Hrest.
  assert (Hinv : 0 < / li ^ 2) by (apply Rinv_0_lt_compat; nra).
  assert (Hsq : 0 <= (xi - zi) ^ 2) by apply pow2_ge_0.
  assert (Hhead : 0 <= (xi - zi) ^ 2 / li ^ 2)
    by (apply Rmult_le_pos; lra).
  split.
  - intros H.
    assert (H1 : (xi - zi) ^ 2 / li ^ 2 = 0) by lra.
    assert (H2 : sum1_sq x z ell = 0) by lra.
    apply (IH z ell Hxz' Hl' Hell') in H2; subst z.
    unfold Rdiv in H1.
    apply Rmult_integral in H1; destruct H1 as [H1|H1]; [|lra].
    assert (xi - zi = 0) by nra.
    f_equal; lra.
  - intros H; inversion H; subst.
    assert (H2 : sum1_sq z z ell = 0) by (now apply IH).
    rewrite H2. unfold Rdiv. replace (zi - zi) with 0 by ring.
    ring.
Qed.

(** For a positive argument the Matern polynomial stays below the
    exponential: [1 + a + a^2/3 < exp a]. *)
Lemma matern_polynomial_below_exp : forall a, 0 < a ->
  1 + a + a ^ 2 / 3 < exp a.
Proof.
  intros a Ha.
  assert (H3 : 1 + a / 3 < exp (a / 3)) by (apply exp_ineq1; lra).
  assert (He : exp a = exp (a / 3) * exp (a / 3) * exp (a / 3)).
  { rewrite <- !exp_plus. f_equal. field. }
  rewrite He.
  assert (Hpos : 0 < 1 + a / 3) by lra.
  assert (H2 : (1 + a / 3) * (1 + a / 3) < exp (a / 3) * exp (a / 3)) by nra.
  assert (H4 : (1 + a / 3) * (1 + a / 3) * (1 + a / 3)
               < exp (a / 3) * exp (a / 3) * exp (a / 3)) by nra.
  assert (Hcube : 1 + a + a ^ 2 / 3 <= (1 + a / 3) * (1 + a / 3) * (1 + a / 3)).
  { assert (0 <= a * a * a) by nra. nra. }
  lra.
Qed.

(** The Matern profile [(1 + a + a^2/3) exp(-a)] on [a >= 0] is 1 at 0 only. *)
Lemma matern_profile_one_iff : forall a, 0 <= a ->
  ((1 + a + a ^ 2 / 3) * exp (- a) = 1 <-> a = 0).
Proof.
  intros a Ha; split.
  - intros H. destruct (Req_dec a 0) as [E|E]; [exact E|].
    assert (Hpos : 0 < a) by lra.
    pose proof (matern_polynomial_below_exp a Hpos) as Hlt.
    pose proof (exp_pos (- a)) as Hm.
    assert (Hone : exp a * exp (- a) = 1).
    { rewrite <- exp_plus. replace (a + - a) with 0 by ring. apply exp_0. }
    assert ((1 + a + a ^ 2 / 3) * exp (- a) < exp a * exp (- a))
      by (apply Rmult_lt_compat_r; assumption).
    lra.
  - intros ->. rewrite Ropp_0, exp_0. field.
Qed.

End KernelFacts.

Section KernelClaims.
Local Open Scope R_scope.

Lemma scaled_by_positive_is_self : forall s p, 0 < s -> (s * p = s <-> p = 1).
Proof.
  intros s p Hs; split; intros H; [|subst; ring].
  apply (Rmult_eq_reg_l s); [lra | lra].
Qed.

Lemma matern_as_profile : forall sf2 r,
  sf2 * (1 + sqrt 5 * r + 5 / 3 * r ^ 2) * exp (- sqrt 5 * r)
  = sf2 * ((1 + sqrt 5 * r + (sqrt 5 * r) ^ 2 / 3) * exp (- (sqrt 5 * r))).
Proof.
  intros sf2 r.
  assert (H5 : sqrt 5 ^ 2 = 5) by (apply pow2_sqrt; lra).
  replace ((sqrt 5 * r) ^ 2) with (sqrt 5 ^ 2 * r ^ 2) by ring.
  rewrite H5. replace (- sqrt 5 * r) with (- (sqrt 5 * r)) by ring.
  field.
Qed.

(** C3.  For vectors of one dimension, positive length-scales and a positive
    output-scale, both kernels have the closed form of the specification,
    are non-negative, symmetric in their two vector arguments, and take the
    value [sf2] exactly when the two vectors are equal. *)
Theorem kernels_closed_form_symmetric_peak : forall x z ell sf2,
  List.length x = List.length z -> List.length ell = List.length x ->
  Forall (fun l => 0 < l) ell -> 0 < sf2 ->
  let r := sqrt (scaled_sq_dist x z ell) in
  covSEard x z ell sf2 = sf2 * exp (- (1 / 2) * scaled_sq_dist x z ell) /\
  covMatern52ard x z ell sf2
    = sf2 * (1 + sqrt 5 * r + 5 / 3 * r ^ 2) * exp (- sqrt 5 * r) /\
  0 <= covSEard x z ell sf2 /\
  0 <= covMatern52ard x z ell sf2 /\
  covSEard x z ell sf2 = covSEard z x ell sf2 /\
  covMatern52ard x z ell sf2 = covMatern52ard z x ell sf2 /\
  (covSEard x z ell sf2 = sf2 <-> x = z) /\
  (covMatern52ard x z ell sf2 = sf2 <-> x = z).
Proof.
  intros x z ell sf2 Hxz Hl Hell Hsf r.
  pose proof (sum1_sq_nonneg x z ell Hell) as Hd.
  pose proof (sum1_sq_scaled x z ell Hell) as Hs.
  pose proof (sum1_sq_zero_iff x z ell Hxz Hl Hell) as Hz.
  pose proof (sqrt_pos (sum1_sq x z ell)) as Hr.
  assert (H5 : 0 < sqrt 5) by (apply sqrt_lt_R0; lra).
  unfold covSEard, covMatern52ard, r; rewrite <- Hs, <- !(sum1_sq_sym x z ell).
  repeat split.
  - f_equal. f_equal. field.
  - left. apply Rmult_lt_0_compat; [assumption | apply exp_pos].
  - apply Rmult_le_pos; [|left; apply exp_pos].
    apply Rmult_le_pos; [lra|].
    assert (0 <= sqrt 5 * sqrt (sum1_sq x z ell)) by (apply Rmult_le_pos; lra).
    assert (0 <= sqrt (sum1_sq x z ell) ^ 2) by apply pow2_ge_0.
    lra.
  - intros H. apply scaled_by_positive_is_self in H; [|assumption].
    rewrite <- exp_0 in H. apply exp_inv in H.
    apply Hz; lra.
  - intros H. apply Hz in H. rewrite H.
    replace (- (5 / 10) * 0) with 0 by ring. rewrite exp_0; ring.
  - intros H. rewrite matern_as_profile in H.
    apply scaled_by_positive_is_self in H; [|assumption].
    apply matern_profile_one_iff in H; [|apply Rmult_le_pos; lra].
    apply Rmult_integral in H; destruct H as [H|H]; [lra|].
    apply sqrt_eq_0 in H; [|assumption]. now apply Hz.
  - intros H. apply Hz in H. rewrite H, sqrt_0.
    replace (- sqrt 5 * 0) with 0 by ring. rewrite exp_0; ring.
Qed.

Lemma kernels_closed_form_symmetric_peak_witness :
  covSEard [1; 2] [1; 2] [1; 3] 2 = 2 /\
  covMatern52ard [1; 2] [1; 2] [1; 3] 2 = 2 /\
  covSEard [1; 2] [0; 2] [1; 3] 2 = covSEard [0; 2] [1; 2] [1; 3] 2.
Proof.
  destruct (kernels_closed_form_symmetric_peak [1; 2] [1; 2] [1; 3] 2)
    as (_ & _ & _ & _ & _ & _ & Hse & Hm);
    [reflexivity | reflexivity | repeat constructor; lra | lra |].
  destruct (kernels_closed_form_symmetric_peak [1; 2] [0; 2] [1; 3] 2)
    as (_ & _ & _ & _ & Hsym & _);
    [reflexivity | reflexivity | repeat constructor; lra | lra |].
  split; [now apply Hse|]. split; [now apply Hm | exact Hsym].
Defined.

End KernelClaims.

(** ** Closed-form prediction *)

Section ClosedFormFacts.
Local Open Scope R_scope.
Local Open Scope list_scope.

Lemma dot_nil_r : forall u, dot u [] = 0.
Proof. intros [|a u]; reflexivity. Qed.

Lemma dot_scale : forall a row y, dot (scale a row) y = a * dot row y.
Proof.
  intros a row; induction row as [|b row IH]; intros [|c y]; simpl; try ring.
  rewrite IH; ring.
Qed.

Lemma dot_repeat_zero : forall c y, dot (repeat 0 c) y = 0.
Proof.
  induction c as [|c IH]; intros [|b y]; simpl; try reflexivity.
  rewrite IH; ring.
Qed.

Lemma dot_vadd : forall p q y, List.length p = List.length q ->
  dot (vadd p q) y = dot p y + dot q y.
Proof.
  induction p as [|a p IH]; intros [|b q] y H; simpl in H; try discriminate.
  - simpl; ring.
  - destruct y as [|c y]; simpl; [ring|].
    rewrite IH by lia. ring.
Qed.

Lemma vadd_length : forall p q, List.length p = List.length q ->
  List.length (vadd p q) = List.length p.
Proof.
  induction p as [|a p IH]; intros [|b q] H; simpl in *; try discriminate;
    [reflexivity|].
  now rewrite IH by lia.
Qed.

Lemma vecmat_length : forall c u M,
  Forall (fun row => List.length row = c) M ->
  List.length (vecmat c u M) = c.
Proof.
  intros c u; induction u as [|a u IH]; intros [|row M] H; simpl;
    try apply repeat_length.
  inversion H as [|? ? Hrow HM]; subst.
  rewrite vadd_length; unfold scale; rewrite length_map; [reflexivity|].
  now rewrite IH.
Qed.

(** [(u @ M) @ y = u @ (M @ y)] for a matrix whose rows have [c] entries. *)
Lemma vecmat_dot_assoc : forall c u M y,
  Forall (fun row => List.length row = c) M ->
  dot (vecmat c u M) y = dot u (matvec M y).
Proof.
  intros c u; induction u as [|a u IH]; intros [|row M] y H; simpl;
    try apply dot_repeat_zero.
  inversion H as [|? ? Hrow HM]; subst.
  rewrite dot_vadd, dot_scale, IH by
    (try assumption; unfold scale; rewrite length_map; now rewrite vecmat_length).
  reflexivity.
Qed.

Lemma nth_indexed : forall (A : Type) (l : list A) (k i : nat) (d : A),
  (i < List.length l)%nat ->
  nth i (combine (seq k (List.length l)) l) (O, d) = ((k + i)%nat, nth i l d).
Proof.
  intros A l; induction l as [|a l IH]; intros k i d Hi; simpl in Hi; [lia|].
  destruct i as [|i]; simpl; [now rewrite Nat.add_0_r|].
  rewrite IH by lia. f_equal; lia.
Qed.

(** Taking the noise off the diagonal entry of a row undoes [add_diag]. *)
Lemma remove_noise_row : forall (s : R) (i : nat) (row : list R) (k : nat),
  map (fun '(j, v) => if (i =? j)%nat then v - s else v)
      (combine (seq k (List.length row))
         (map (fun '(j, v) => if (i =? j)%nat then v + s else v)
              (combine (seq k (List.length row)) row)))
  = row.
Proof.
  intros s i row; induction row as [|v row IH]; intros k; simpl; [reflexivity|].
  rewrite IH. f_equal.
  destruct (i =? k)%nat; [ring | reflexivity].
Qed.

Lemma add_diag_row : forall s M i,
  (i < List.length M)%nat ->
  nth i (add_diag s M) []
  = map (fun '(j, v) => if (i =? j)%nat then v + s else v)
        (combine (seq 0 (List.length (nth i M []))) (nth i M [])).
Proof.
  intros s M i Hi; unfold add_diag.
  set (F := fun '(i0, row) =>
              map (fun '(j, v) => if (i0 =? j)%nat then v + s else v)
                  (combine (seq 0 (List.length row)) row)).
  rewrite (nth_indep _ [] (F (O, []))) by
    (rewrite length_map, length_combine, length_seq; lia).
  rewrite map_nth, nth_indexed by exact Hi. reflexivity.
Qed.

End ClosedFormFacts.

Section ClosedFormClaims.
Local Open Scope R_scope.
Local Open Scope string_scope.
Local Open Scope list_scope.

Lemma indexed_map_length : forall (f : nat * R -> R) (k : nat) (row : list R),
  List.length (map f (combine (seq k (List.length row)) row)) = List.length row.
Proof.
  intros f k row. rewrite length_map, length_combine, length_seq. lia.
Qed.

(** Row [i] of the cached [K_plus_noise] with the noise taken off its
    diagonal entry is the kernel row of the [i]-th training input. *)
Lemma cached_kernel_row : forall inv_matmul g0 g cov train_x i,
  configured_kernel (kernel g0) = Ok cov ->
  _compute_GP_covariances inv_matmul g0 train_x = Ok g ->
  (i < List.length train_x)%nat ->
  map (fun '(j, v) => if (i =? j)%nat then v - noise g else v)
      (combine (seq 0 (List.length (nth i (model_K_plus_noise g) [])))
               (nth i (model_K_plus_noise g) []))
  = K_z_ztrain cov g train_x (nth i train_x []).
Proof.
  intros inv g0 g cov X i Hk Hc Hi.
  unfold _compute_GP_covariances in Hc; rewrite Hk in Hc.
  inversion Hc; subst g; clear Hc; simpl.
  assert (Hrow : nth i (covar_module cov g0 X) []
                 = map (fun xj => cov (nth i X []) xj (lengthscale g0) (outputscale g0)) X).
  { unfold covar_module.
    set (F := fun xi => map (fun xj => cov xi xj (lengthscale g0) (outputscale g0)) X).
    rewrite (nth_indep _ [] (F [])) by (now rewrite length_map).
    now rewrite map_nth. }
  rewrite add_diag_row by (unfold covar_module; now rewrite length_map).
  rewrite Hrow, indexed_map_length, remove_noise_row.
  reflexivity.
Qed.

(** The exported function, and its value at the training inputs. *)
Lemma closed_form_unfolded :
  forall inv_matmul g0 g cov train_x train_y f,
    configured_kernel (kernel g0) = Ok cov ->
    _compute_GP_covariances inv_matmul g0 train_x = Ok g ->
    List.length (model_K_plus_noise_inv g) = List.length train_x ->
    Forall (fun row => List.length row = List.length train_x)
           (model_K_plus_noise_inv g) ->
    make_casadi_prediction_func g train_x train_y = Ok f ->
    (forall z,
       f z = dot (K_z_ztrain cov g train_x z)
                 (matvec (model_K_plus_noise_inv g) train_y)) /\
    (forall i, (i < List.length train_x)%nat ->
       f (nth i train_x []) = cached_posterior_mean g train_y i).
Proof.
  intros inv g0 g cov X y f Hk Hc Hn Hrows Hf.
  assert (Hkg : kernel g = kernel g0).
  { unfold _compute_GP_covariances in Hc; rewrite Hk in Hc.
    inversion Hc; reflexivity. }
  unfold make_casadi_prediction_func in Hf; rewrite Hkg, Hk in Hf.
  inversion Hf; subst f; clear Hf.
  assert (Hz : forall z,
    dot (vecmat (List.length (model_K_plus_noise_inv g))
           (K_z_ztrain cov g X z) (model_K_plus_noise_inv g)) y
    = dot (K_z_ztrain cov g X z) (matvec (model_K_plus_noise_inv g) y)).
  { intros z; apply vecmat_dot_assoc. now rewrite Hn. }
  split; [exact Hz|].
  intros i Hi. rewrite Hz. unfold cached_posterior_mean.
  now rewrite (cached_kernel_row inv g0 g cov X i Hk Hc Hi).
Qed.


End ClosedFormClaims.

Section ClosedFormWitness.
Local Open Scope R_scope.
Local Open Scope string_scope.
Local Open Scope list_scope.


End ClosedFormWitness.

(** ** The closed form at the training inputs, for an exact cache *)

Section Interpolation.
Local Open Scope R_scope.
Local Open Scope list_scope.

Lemma bump_free_row : forall (s : R) (i : nat) (row : list R) (k : nat),
  (i < k)%nat ->
  map (fun '(j, v) => if (i =? j)%nat then v + s else v)
      (combine (seq k (List.length row)) row) = row.
Proof.
  intros s i row; induction row as [|v row IH]; intros k Hk; simpl;
    [reflexivity|].
  destruct (Nat.eqb_spec i k); [lia|].
  now rewrite IH by lia.
Qed.

(** Adding [s] to entry [i] of a row adds [s * w_i] to its product with [w]. *)
Lemma dot_bumped_row : forall (s : R) (i : nat) (row w : list R) (k : nat),
  (k <= i)%nat -> (i - k < List.length row)%nat -> (i - k < List.length w)%nat ->
  dot (map (fun '(j, v) => if (i =? j)%nat then v + s else v)
           (combine (seq k (List.length row)) row)) w
  = dot row w + s * nth (i - k) w 0.
Proof.
  intros s i row; induction row as [|v row IH]; intros w k Hk Hr Hw;
    simpl in Hr; [lia|].
  destruct w as [|c w]; simpl in Hw; [lia|].
  cbn [List.length seq combine map dot].
  destruct (Nat.eqb_spec i k) as [E|E].
  - subst k. rewrite bump_free_row by lia.
    rewrite Nat.sub_diag; simpl. ring.
  - rewrite IH by lia.
    replace (i - k)%nat with (S (i - S k)) by lia. simpl. ring.
Qed.

Lemma dot_unit_from : forall (i n k : nat) (y : list R),
  (k <= i)%nat -> (i - k < n)%nat -> List.length y = n ->
  dot (map (fun j => if (i =? j)%nat then 1 else 0) (seq k n)) y
  = nth (i - k) y 0.
Proof.
  intros i n; induction n as [|n IH]; intros k y Hk Hi Hy; [lia|].
  destruct y as [|c y]; simpl in Hy; [discriminate|].
  cbn [seq map dot].
  destruct (Nat.eqb_spec i k) as [E|E].
  - subst k. rewrite Nat.sub_diag; simpl.
    assert (Hz : forall m l, (i < m)%nat ->
              dot (map (fun j => if (i =? j)%nat then 1 else 0) (seq m (List.length l))) l = 0).
    { intros m l; revert m; induction l as [|d l IHl]; intros m Hm; simpl;
        [reflexivity|].
      destruct (Nat.eqb_spec i m); [lia|]. rewrite IHl by lia. ring. }
    injection Hy as Hy; subst n. rewrite Hz by lia. ring.
  - rewrite IH by lia.
    replace (i - k)%nat with (S (i - S k)) by lia. simpl. ring.
Qed.

(** When the cached inverse really inverts the cached [K_plus_noise], the
    closed form at the [i]-th training input is the target [y_i] less the
    noise times the [i]-th weight [(K_plus_noise_inv . y)_i]. *)
Lemma closed_form_interpolates_up_to_noise :
  forall inv_matmul g0 g cov train_x train_y f i,
    configured_kernel (kernel g0) = Ok cov ->
    _compute_GP_covariances inv_matmul g0 train_x = Ok g ->
    List.length (model_K_plus_noise_inv g) = List.length train_x ->
    Forall (fun row => List.length row = List.length train_x)
           (model_K_plus_noise_inv g) ->
    List.length train_y = List.length train_x ->
    matmul (List.length train_x) (model_K_plus_noise g) (model_K_plus_noise_inv g)
      = identity (List.length train_x) ->
    make_casadi_prediction_func g train_x train_y = Ok f ->
    (i < List.length train_x)%nat ->
    f (nth i train_x [])
    = nth i train_y 0
      - noise g * nth i (matvec (model_K_plus_noise_inv g) train_y) 0.
Proof.
  intros inv g0 g cov X y f i Hk Hc Hn Hrows Hy Hinv Hf Hi.
  destruct (closed_form_unfolded
              inv g0 g cov X y f Hk Hc Hn Hrows Hf) as [Hz _].
  rewrite Hz.
  set (w := matvec (model_K_plus_noise_inv g) y).
  assert (Hw : List.length w = List.length X)
    by (unfold w, matvec; now rewrite length_map).
  set (ki := K_z_ztrain cov g X (nth i X [])).
  assert (Hki : List.length ki = List.length X)
    by (unfold ki, K_z_ztrain; now rewrite length_map).
  (* row i of the cache is the kernel row with the noise on entry i *)
  assert (Hrow : nth i (model_K_plus_noise g) []
                 = map (fun '(j, v) => if (i =? j)%nat then v + noise g else v)
                       (combine (seq 0 (List.length ki)) ki)).
  { unfold _compute_GP_covariances in Hc; rewrite Hk in Hc.
    inversion Hc; subst g; clear Hc; simpl in *.
    rewrite add_diag_row by (unfold covar_module; now rewrite length_map).
    assert (Hr : nth i (covar_module cov g0 X) [] = ki).
    { unfold covar_module, ki, K_z_ztrain; simpl.
      set (F := fun xi => map (fun xj => cov xi xj (lengthscale g0) (outputscale g0)) X).
      rewrite (nth_indep _ [] (F [])) by (now rewrite length_map).
      now rewrite map_nth. }
    now rewrite Hr. }
  (* that row times the weights is y_i, by the inverse law *)
  assert (Hunit : dot (nth i (model_K_plus_noise g) []) w = nth i y 0).
  { unfold w. rewrite <- (vecmat_dot_assoc (List.length X)) by assumption.
    assert (Hm : nth i (matmul (List.length X) (model_K_plus_noise g)
                          (model_K_plus_noise_inv g)) []
                 = vecmat (List.length X) (nth i (model_K_plus_noise g) [])
                     (model_K_plus_noise_inv g)).
    { unfold matmul.
      set (F := fun row => vecmat (List.length X) row (model_K_plus_noise_inv g)).
      assert (Hlen : (i < List.length (model_K_plus_noise g))%nat).
      { unfold _compute_GP_covariances in Hc; rewrite Hk in Hc.
        inversion Hc; subst g; simpl.
        unfold add_diag, covar_module.
        rewrite length_map, length_combine, length_seq, length_map. lia. }
      rewrite (nth_indep _ [] (F [])) by (now rewrite length_map).
      now rewrite map_nth. }
    rewrite <- Hm, Hinv. unfold identity.
    rewrite (nth_indep _ [] (unit_vector (List.length X) O))
      by (now rewrite length_map, length_seq).
    rewrite map_nth, seq_nth by exact Hi. simpl.
    unfold unit_vector. rewrite dot_unit_from by lia.
    now rewrite Nat.sub_0_r. }
  rewrite Hrow, dot_bumped_row in Hunit by lia.
  rewrite Nat.sub_0_r in Hunit. lra.
Qed.

End Interpolation.

(* ================================================================= *)
(** * Part III.  Further properties of the code                        *)
(* ================================================================= *)

(** ** More on the CVaR summary *)

Section CVaRExtras.
Local Open Scope Q_scope.
Local Open Scope list_scope.

Lemma Qsum_app : forall l1 l2, Qsum (l1 ++ l2) == Qsum l1 + Qsum l2.
Proof.
  induction l1 as [|x l1 IH]; intros l2; simpl; [ring|].
  rewrite IH; ring.
Qed.

Lemma Qsum_perm : forall l1 l2, Permutation l1 l2 -> Qsum l1 == Qsum l2.
Proof.
  intros l1 l2 H; induction H; simpl.
  - reflexivity.
  - now rewrite IHPermutation.
  - ring.
  - now rewrite IHPermutation1.
Qed.

Lemma slice_from_all : forall (v : Z) (s : list Q),
  (Z.of_nat (List.length s) <= v)%Z -> (1 <= v)%Z -> slice_from (- v) s = s.
Proof.
  intros v s Hv H1; unfold slice_from, slice_index.
  destruct (Z.ltb_spec (- v) 0); [|lia].
  replace (Z.to_nat (Z.max 0 (Z.of_nat (List.length s) + - v))) with O by lia.
  reflexivity.
Qed.

Lemma slice_to_all : forall (v : Z) (s : list Q),
  (Z.of_nat (List.length s) <= v)%Z -> slice_to v s = s.
Proof.
  intros v s Hv; unfold slice_to, slice_index.
  destruct (Z.ltb_spec v 0); [lia|].
  rewrite Nat.min_l by lia. apply firstn_all.
Qed.

(** A risk level of 1 or more makes the summary the plain mean of the whole
    batch, whatever the direction. *)
Theorem cvar_full_risk_level_is_mean : forall d0 ds batch alpha,
  batch <> [] -> 1 <= alpha ->
  exists m,
    _compute_cvar (d0 :: ds) batch alpha = Ok (Fin m) /\
    m == Qsum batch / inject_Z (Z.of_nat (List.length batch)).
Proof.
  intros d0 ds batch alpha Hne Ha.
  assert (Hn : (1 <= List.length batch)%nat)
    by (destruct batch; [congruence | simpl; lia]).
  set (n := List.length batch) in *.
  assert (Hn0 : 0 <= inject_Z (Z.of_nat n)) by apply index_nonneg.
  assert (Hprod : inject_Z (Z.of_nat n) <= alpha * inject_Z (Z.of_nat n)).
  { rewrite <- (Qmult_1_l (inject_Z (Z.of_nat n))) at 1.
    now apply Qmult_le_compat_r. }
  assert (Hv : (Z.of_nat n <= py_int (alpha * inject_Z (Z.of_nat n)))%Z).
  { rewrite py_int_nonneg by (eapply Qle_trans; [exact Hn0 | exact Hprod]).
    rewrite <- (Qfloor_Z (Z.of_nat n)) at 1. now apply Qfloor_resp_le. }
  unfold _compute_cvar; rewrite np_sort_length; fold n.
  set (v := py_int (alpha * inject_Z (Z.of_nat n))) in *.
  destruct (Z.eqb_spec v 0) as [E|E]; [lia|].
  assert (Hs : List.length (np_sort batch) = n) by apply np_sort_length.
  assert (Hsne : np_sort batch <> [])
    by (eapply nonempty_of_length; [exact Hs | exact Hn]).
  exists (Qsum (np_sort batch) / inject_Z (Z.of_nat n)).
  split.
  - destruct (String.eqb d0 "minimize").
    + rewrite slice_from_all by lia.
      rewrite np_mean_nonempty by assumption. now rewrite Hs.
    + rewrite slice_to_all by lia.
      rewrite np_mean_nonempty by assumption. now rewrite Hs.
  - now rewrite (Qsum_perm _ _ (np_sort_perm batch)).
Qed.

Lemma cvar_full_risk_level_is_mean_witness :
  exists m,
    _compute_cvar ["maximize"%string] [4; 1; 7] (3 # 2) = Ok (Fin m) /\
    m == Qsum [4; 1; 7] / inject_Z (Z.of_nat 3).
Proof.
  apply (cvar_full_risk_level_is_mean "maximize"%string [] [4; 1; 7] (3 # 2)).
  - discriminate.
  - unfold Qle; simpl; lia.
Defined.

End CVaRExtras.

Section CVaRBounds.
Local Open Scope Q_scope.
Local Open Scope list_scope.

Lemma Qsum_bounds : forall (l : list Q) (lo hi : Q),
  (forall x, In x l -> lo <= x /\ x <= hi) ->
  lo * inject_Z (Z.of_nat (List.length l)) <= Qsum l /\
  Qsum l <= hi * inject_Z (Z.of_nat (List.length l)).
Proof.
  induction l as [|x l IH]; intros lo hi H.
  - simpl; split; ring_simplify; apply Qle_refl.
  - destruct (IH lo hi) as [H1 H2]; [intros y Hy; apply H; now right|].
    destruct (H x (or_introl eq_refl)) as [Hx1 Hx2].
    cbn [List.length Qsum fold_right].
    rewrite Nat2Z.inj_succ; unfold Z.succ; rewrite inject_Z_plus.
    change (inject_Z 1) with 1. fold (Qsum l). split; lra.
Qed.

Lemma mean_bounds : forall (l : list Q) (lo hi : Q),
  l <> [] -> (forall x, In x l -> lo <= x /\ x <= hi) ->
  lo <= Qsum l / inject_Z (Z.of_nat (List.length l)) /\
  Qsum l / inject_Z (Z.of_nat (List.length l)) <= hi.
Proof.
  intros l lo hi Hne H.
  destruct (Qsum_bounds l lo hi H) as [H1 H2].
  assert (Hpos : 0 < inject_Z (Z.of_nat (List.length l))).
  { change 0 with (inject_Z 0); rewrite <- Zlt_Qlt.
    destruct l; [congruence | simpl; lia]. }
  split.
  - now apply Qle_shift_div_l.
  - now apply Qle_shift_div_r.
Qed.

(** For a non-empty batch and a non-negative risk level the summary lies
    between the smallest and the largest value of the batch. *)
Theorem cvar_between_batch_extremes : forall d0 ds batch alpha lo hi,
  batch <> [] -> 0 <= alpha ->
  (forall x, In x batch -> lo <= x /\ x <= hi) ->
  exists m,
    _compute_cvar (d0 :: ds) batch alpha = Ok (Fin m) /\ lo <= m /\ m <= hi.
Proof.
  intros d0 ds batch alpha lo hi Hne H0 Hb.
  destruct (Qlt_le_dec 1 alpha) as [Hbig|Hsmall].
  - destruct (cvar_full_risk_level_is_mean d0 ds batch alpha Hne)
      as (m & Hm & Heq); [now apply Qlt_le_weak|].
    exists m; split; [exact Hm|].
    destruct (mean_bounds batch lo hi Hne Hb) as [H1 H2].
    rewrite Heq; now split.
  - destruct (compute_cvar_tail d0 ds batch alpha Hne H0 Hsmall)
      as (sel & others & Hv & Hk & Ht).
    eexists; split; [exact Hv|].
    assert (Hsel : Permutation (others ++ sel) batch /\
                   List.length sel = cvar_count alpha (List.length batch)).
    { destruct (String.eqb d0 "minimize"); destruct Ht as (Hp & Hl & _);
        now split. }
    destruct Hsel as [Hp Hl]. rewrite <- Hl.
    apply mean_bounds.
    + eapply nonempty_of_length; [exact Hl | lia].
    + intros x Hx; apply Hb. eapply Permutation_in; [exact Hp|].
      apply in_or_app; now right.
Qed.

Lemma cvar_between_batch_extremes_witness :
  exists m,
    _compute_cvar ["minimize"%string] [4; 1; 7] (1 # 2) = Ok (Fin m) /\
    1 <= m /\ m <= 7.
Proof.
  apply (cvar_between_batch_extremes "minimize"%string [] [4; 1; 7] (1 # 2) 1 7).
  - discriminate.
  - unfold Qle; simpl; lia.
  - intros x [<-|[<-|[<-|[]]]]; split; unfold Qle; simpl; lia.
Defined.

(** An empty batch is summarised as nan, whatever the risk level. *)
Lemma cvar_empty_batch : forall d0 ds alpha,
  _compute_cvar (d0 :: ds) [] alpha = Ok NaN.
Proof.
  intros d0 ds alpha; unfold _compute_cvar; simpl.
  destruct (String.eqb d0 "minimize");
    unfold slice_from, slice_to; simpl; now rewrite ?firstn_nil, ?skipn_nil.
Qed.

End CVaRBounds.

Section CVaRPermutation.
Local Open Scope Q_scope.
Local Open Scope list_scope.

Lemma Forall2_Qeq_refl : forall l, Forall2 Qeq l l.
Proof. induction l; constructor; [reflexivity | assumption]. Qed.

Lemma Forall2_Qeq_trans : forall l1 l2 l3,
  Forall2 Qeq l1 l2 -> Forall2 Qeq l2 l3 -> Forall2 Qeq l1 l3.
Proof.
  intros l1 l2 l3 H; revert l3; induction H; intros l3 H3; inversion H3; subst;
    constructor; [etransitivity; eassumption | now apply IHForall2].
Qed.

Lemma insert_sorted_Qeq : forall x s s',
  Forall2 Qeq s s' ->
  Forall2 Qeq (insert_sorted x s) (insert_sorted x s').
Proof.
  intros x s s' H; induction H as [|y y' s s' Hy Hs IH]; simpl.
  - constructor; [reflexivity | constructor].
  - assert (E : Qle_bool x y = Qle_bool x y') by (now rewrite Hy).
    rewrite <- E. destruct (Qle_bool x y).
    + constructor; [reflexivity|]. now constructor.
    + now constructor.
Qed.

Lemma Qle_bool_false : forall x y, Qle_bool x y = false -> y < x.
Proof.
  intros x y H. apply Qnot_le_lt; intros Hle.
  apply Qle_bool_iff in Hle; congruence.
Qed.

(** Two insertions commute, up to the representation of equal rationals. *)
Lemma insert_sorted_comm : forall x y s,
  Forall2 Qeq (insert_sorted x (insert_sorted y s))
              (insert_sorted y (insert_sorted x s)).
Proof.
  intros x y s; induction s as [|z s IH]; simpl.
  - destruct (Qle_bool x y) eqn:Exy, (Qle_bool y x) eqn:Eyx.
    + apply Qle_bool_iff in Exy, Eyx.
      assert (x == y) by (now apply Qle_antisym).
      repeat constructor; [assumption | now symmetry].
    + apply Forall2_Qeq_refl.
    + apply Forall2_Qeq_refl.
    + apply Qle_bool_false in Exy, Eyx. exfalso.
      apply (Qlt_irrefl x). now apply (Qlt_trans _ y).
  - destruct (Qle_bool y z) eqn:Eyz, (Qle_bool x z) eqn:Exz; simpl;
      rewrite ?Eyz, ?Exz;
      destruct (Qle_bool x y) eqn:Exy, (Qle_bool y x) eqn:Eyx;
      try (apply Qle_bool_iff in Exy); try (apply Qle_bool_iff in Eyx);
      try (apply Qle_bool_iff in Eyz); try (apply Qle_bool_iff in Exz);
      try (apply Qle_bool_false in Exy); try (apply Qle_bool_false in Eyx);
      try (apply Qle_bool_false in Eyz); try (apply Qle_bool_false in Exz);
      try solve [apply Forall2_Qeq_refl];
      try solve [exfalso; lra];
      try solve [constructor; [reflexivity | exact IH]].
    assert (x == y) by (now apply Qle_antisym).
    constructor; [assumption|]. constructor; [now symmetry|].
    apply Forall2_Qeq_refl.
Qed.

(** Sorting two orderings of one batch gives the same values in the same
    places. *)
Lemma np_sort_permutation : forall l l',
  Permutation l l' -> Forall2 Qeq (np_sort l) (np_sort l').
Proof.
  intros l l' H; induction H; simpl.
  - constructor.
  - now apply insert_sorted_Qeq.
  - apply insert_sorted_comm.
  - eapply Forall2_Qeq_trans; eassumption.
Qed.

Lemma Forall2_Qeq_firstn : forall k l l',
  Forall2 Qeq l l' -> Forall2 Qeq (firstn k l) (firstn k l').
Proof.
  induction k as [|k IH]; intros l l' H; simpl; [constructor|].
  destruct H; constructor; [assumption | now apply IH].
Qed.

Lemma Forall2_Qeq_skipn : forall k l l',
  Forall2 Qeq l l' -> Forall2 Qeq (skipn k l) (skipn k l').
Proof.
  induction k as [|k IH]; intros l l' H; simpl; [assumption|].
  destruct H; [constructor | now apply IH].
Qed.

Lemma Qsum_Qeq : forall l l', Forall2 Qeq l l' -> Qsum l == Qsum l'.
Proof.
  intros l l' H; induction H as [|x y l l' Hxy H IH]; simpl; [reflexivity|].
  now rewrite Hxy, IH.
Qed.

Lemma np_mean_Qeq : forall l l', Forall2 Qeq l l' -> xeq (np_mean l) (np_mean l').
Proof.
  intros l l' H.
  pose proof (Forall2_length H) as Hlen.
  pose proof (Qsum_Qeq l l' H) as Hsum.
  destruct H as [|x y l l' Hxy H]; simpl; [exact I|].
  simpl in Hlen, Hsum. rewrite Hsum.
  injection Hlen as Hlen. now rewrite Hlen.
Qed.

(** The summary does not depend on the order in which the values were
    accumulated. *)
Theorem cvar_order_independent : forall direction batch batch' alpha,
  Permutation batch batch' ->
  result_xeq (_compute_cvar direction batch alpha)
             (_compute_cvar direction batch' alpha).
Proof.
  intros dir b b' alpha Hp.
  pose proof (np_sort_permutation b b' Hp) as Hs.
  assert (Hlen : List.length (np_sort b) = List.length (np_sort b'))
    by (eapply Forall2_length; eassumption).
  unfold _compute_cvar; rewrite <- Hlen.
  destruct dir as [|d0 ds]; [reflexivity|].
  destruct (String.eqb d0 "minimize"); simpl; apply np_mean_Qeq.
  - unfold slice_from; rewrite <- Hlen. now apply Forall2_Qeq_skipn.
  - unfold slice_to; rewrite <- Hlen. now apply Forall2_Qeq_firstn.
Qed.

Lemma cvar_order_independent_witness :
  result_xeq (_compute_cvar ["minimize"%string] [4; 1; 7] (1 # 2))
             (_compute_cvar ["minimize"%string] [7; 4; 1] (1 # 2)).
Proof.
  apply (cvar_order_independent ["minimize"%string] [4; 1; 7] [7; 4; 1] (1 # 2)).
  eapply perm_trans; [apply perm_skip, perm_swap | apply perm_swap].
Defined.

End CVaRPermutation.

Section CVaRTails.
Local Open Scope Q_scope.
Local Open Scope list_scope.

Lemma sorted_nth_le : forall (s : list Q) (i j : nat),
  StronglySorted Qle s -> (i <= j)%nat -> (j < List.length s)%nat ->
  nth i s 0 <= nth j s 0.
Proof.
  induction s as [|x s IH]; intros i j Hs Hij Hj; simpl in Hj; [lia|].
  inversion Hs as [|? ? Hs' Hall]; subst.
  destruct i as [|i], j as [|j]; simpl; try lia.
  - apply Qle_refl.
  - rewrite Forall_forall in Hall. apply Hall, nth_In. lia.
  - apply IH; [assumption | lia | lia].
Qed.

Lemma pointwise_Qsum_le : forall l1 l2,
  List.length l1 = List.length l2 ->
  (forall i, (i < List.length l1)%nat -> nth i l1 0 <= nth i l2 0) ->
  Qsum l1 <= Qsum l2.
Proof.
  induction l1 as [|x l1 IH]; intros [|y l2] Hlen H; simpl in Hlen;
    try discriminate; simpl.
  assert (Hxy : x <= y) by (apply (H O); simpl; lia).
  assert (Hrest : Qsum l1 <= Qsum l2).
  { apply IH; [lia|]. intros i Hi. apply (H (S i)); simpl; lia. }
  change (x + Qsum l1 <= y + Qsum l2). now apply Qplus_le_compat.
Qed.

(** The upper tail of a sorted list outweighs the lower tail of the same
    length. *)
Lemma upper_tail_outweighs_lower : forall (s : list Q) (k : nat),
  StronglySorted Qle s -> (k <= List.length s)%nat ->
  Qsum (firstn k s) <= Qsum (skipn (List.length s - k) s).
Proof.
  intros s k Hs Hk. apply pointwise_Qsum_le.
  - rewrite length_firstn, length_skipn. lia.
  - intros i Hi. rewrite length_firstn in Hi.
    rewrite nth_firstn, nth_skipn.
    destruct (Nat.ltb_spec i k); [|lia].
    apply sorted_nth_le; [assumption | lia | lia].
Qed.

(** For a risk level in [0,1] the summary computed under "minimize" is never
    below the summary of the same batch under any other direction: the two
    branches take opposite tails of the sorted batch. *)
Theorem cvar_minimize_not_below_maximize : forall d batch alpha,
  batch <> [] -> 0 <= alpha -> alpha <= 1 ->
  exists up low,
    _compute_cvar ["minimize"%string] batch alpha = Ok (Fin up) /\
    _compute_cvar [d] batch alpha = Ok (Fin low) /\
    low <= up.
Proof.
  intros d batch alpha Hne H0 H1.
  assert (Hn : (1 <= List.length batch)%nat)
    by (destruct batch; [congruence | simpl; lia]).
  destruct (VaR_idx_is_count alpha _ H0 H1 Hn) as [Hidx Hk].
  set (k := cvar_count alpha (List.length batch)) in *.
  destruct (upper_slice_tail batch k Hk) as [Hup (_ & Hlu & _)].
  destruct (lower_slice_tail batch k Hk) as [Hlow (_ & Hll & _)].
  pose proof (np_sort_length batch) as Hlen.
  assert (Hmin : _compute_cvar ["minimize"%string] batch alpha
                 = Ok (Fin (Qsum (skipn (List.length batch - k) (np_sort batch))
                            / inject_Z (Z.of_nat k)))).
  { unfold _compute_cvar; rewrite Hlen, Hidx; simpl String.eqb; cbv iota.
    rewrite Hup, np_mean_nonempty
      by (eapply nonempty_of_length; [exact Hlu | lia]).
    now rewrite Hlu. }
  assert (Hpos : 0 < inject_Z (Z.of_nat k)).
  { change 0 with (inject_Z 0); rewrite <- Zlt_Qlt; lia. }
  destruct (String.eqb d "minimize") eqn:Ed.
  - apply String.eqb_eq in Ed; subst d.
    eexists; eexists; split; [exact Hmin|]; split; [exact Hmin|]. apply Qle_refl.
  - eexists; exists (Qsum (firstn k (np_sort batch)) / inject_Z (Z.of_nat k)).
    split; [exact Hmin|]. split.
    + unfold _compute_cvar; rewrite Hlen, Hidx, Ed.
      rewrite Hlow, np_mean_nonempty
        by (eapply nonempty_of_length; [exact Hll | lia]).
      now rewrite Hll.
    + apply Qmult_le_compat_r; [|apply Qlt_le_weak, Qinv_lt_0_compat, Hpos].
      rewrite <- Hlen. apply upper_tail_outweighs_lower;
        [apply np_sort_sorted | lia].
Qed.

Lemma cvar_minimize_not_below_maximize_witness :
  exists up low,
    _compute_cvar ["minimize"%string] [4; 1; 7] (2 # 3) = Ok (Fin up) /\
    _compute_cvar ["maximize"%string] [4; 1; 7] (2 # 3) = Ok (Fin low) /\
    low <= up.
Proof.
  apply (cvar_minimize_not_below_maximize "maximize"%string [4; 1; 7] (2 # 3)).
  - discriminate.
  - unfold Qle; simpl; lia.
  - unfold Qle; simpl; lia.
Defined.

End CVaRTails.

(** ** Bookkeeping of the objective *)

Section ObjectiveBookkeeping.
Local Open Scope Q_scope.
Local Open Scope list_scope.

Variable cfg : hpo_config.
Variable stdy : study.
Variable world : nat -> repetition.

(** A repetition that does not raise appends one seed and one pair of
    scores, and leaves no agent bound. *)
Lemma run_repetition_scores : forall r st st',
  run_repetition r st = Continue st' \/ run_repetition r st = Break st' ->
  seeds st' = seeds st ++ [rep_seed r] /\
  List.length (returns st') = S (List.length (returns st)) /\
  List.length (efficiencies st') = S (List.length (efficiencies st)) /\
  agent_slot st' = None.
Proof.
  intros r st st' H.
  unfold run_repetition, construct, learn_and_score in H.
  destruct (rep_make r) as [|a [|]]; simpl in H.
  - destruct (agent_slot st) as [b|]; [|destruct H; discriminate].
    destruct (learn_raises b); simpl in H.
    + destruct H as [H|H]; [discriminate|]. inversion H; subst; simpl.
      rewrite !length_app; simpl. repeat split; lia.
    + destruct (run_result b) as [q|]; [|destruct H; discriminate].
      destruct (efficiency_of b q) as [e|]; [|destruct H; discriminate].
      destruct H as [H|H]; [|discriminate]. inversion H; subst; simpl.
      rewrite !length_app; simpl. repeat split; lia.
  - destruct (learn_raises a); simpl in H.
    + destruct H as [H|H]; [discriminate|]. inversion H; subst; simpl.
      rewrite !length_app; simpl. repeat split; lia.
    + destruct (run_result a) as [q|]; [|destruct H; discriminate].
      destruct (efficiency_of a q) as [e|]; [|destruct H; discriminate].
      destruct H as [H|H]; [|discriminate]. inversion H; subst; simpl.
      rewrite !length_app; simpl. repeat split; lia.
  - destruct (learn_raises a); simpl in H.
    + destruct H as [H|H]; [discriminate|]. inversion H; subst; simpl.
      rewrite !length_app; simpl. repeat split; lia.
    + destruct (run_result a) as [q|]; [|destruct H; discriminate].
      destruct (efficiency_of a q) as [e|]; [|destruct H; discriminate].
      destruct H as [H|H]; [|discriminate]. inversion H; subst; simpl.
      rewrite !length_app; simpl. repeat split; lia.
Qed.

(** A batch that completes made [m] draws, [m] between 1 and [n] (0 when
    [n] is 0); it appended their seeds, in the order of the draws, and one
    pair of scores for each. *)
Lemma run_batch_completed : forall n st st',
  run_batch world n st = Completed st' ->
  exists m,
    (m <= n)%nat /\ ((0 < n)%nat -> (0 < m)%nat) /\
    seeds st' = seeds st
                ++ map (fun i => rep_seed (world i)) (seq (List.length (seeds st)) m) /\
    List.length (returns st') = (List.length (returns st) + m)%nat /\
    List.length (efficiencies st') = (List.length (efficiencies st) + m)%nat /\
    ((0 < m)%nat -> agent_slot st' = None) /\
    (m = O -> st' = st).
Proof.
  induction n as [|n IH]; intros st st' H; simpl in H.
  - inversion H; subst. exists O; simpl; rewrite app_nil_r.
    repeat split; try lia; auto.
  - destruct (run_repetition (world (List.length (seeds st))) st)
      as [st1|st1|e st1] eqn:Hr; [| |discriminate].
    + destruct (run_repetition_scores _ _ _ (or_introl Hr)) as (Hs & Hret & Heff & Hag).
      destruct (IH st1 st' H) as (m & Hm & _ & Hs' & Hret' & Heff' & Hag' & Hz).
      exists (S m). rewrite Hs' , Hs, length_app; simpl.
      rewrite <- app_assoc; simpl.
      replace (List.length (seeds st) + 1)%nat with (S (List.length (seeds st))) by lia.
      repeat split; try lia.
      intros _. destruct m as [|m]; [rewrite (Hz eq_refl); exact Hag | apply Hag'; lia].
    + inversion H; subst st1.
      destruct (run_repetition_scores _ _ _ (or_intror Hr)) as (Hs & Hret & Heff & Hag).
      exists 1%nat; simpl.
      repeat split; try lia; try assumption;
        solve [intros _; exact Hag | discriminate].
Qed.

Lemma add_log_fields : forall e st,
  seeds (add_log e st) = seeds st /\ returns (add_log e st) = returns st /\
  efficiencies (add_log e st) = efficiencies st /\
  agent_slot (add_log e st) = agent_slot st.
Proof. intros; repeat split. Qed.

(** What a finalized loop leaves behind. *)
Lemma objective_loop_bookkeeping :
  forall fuel first_iteration Gs_rew Gs_eff st r e st',
    objective_loop cfg stdy world fuel first_iteration Gs_rew Gs_eff st
      = Finalized r e st' ->
    exists m,
      seeds st' = seeds st
                  ++ map (fun i => rep_seed (world i)) (seq (List.length (seeds st)) m) /\
      List.length (returns st') = (List.length (returns st) + m)%nat /\
      List.length (efficiencies st') = (List.length (efficiencies st) + m)%nat /\
      (m <= fuel * repetitions cfg)%nat /\
      ((0 < repetitions cfg)%nat -> agent_slot st' = None).
Proof.
  induction fuel as [|fuel IH]; intros f Gs Ge st r e st' H; simpl in H;
    [discriminate|].
  destruct (run_batch world (repetitions cfg) st) as [st1|? ?] eqn:Hb;
    [|discriminate].
  destruct (run_batch_completed _ _ _ Hb) as (m1 & Hm1 & Hpos & Hs & Hr & He & Hag & _).
  destruct (_compute_cvar (direction cfg) (returns st1) (alpha cfg)) as [r1|?];
    [|discriminate].
  destruct (_compute_cvar (direction cfg) (efficiencies st1) (alpha cfg)) as [e1|?];
    [|discriminate].
  destruct (escalate cfg stdy f (if f then PInf else Gs) r1).
  - apply IH in H. destruct H as (m2 & Hs2 & Hr2 & He2 & Hm2 & Hag2).
    simpl in Hs2, Hr2, He2.
    exists (m1 + m2)%nat. rewrite Hs2, Hr2, He2, Hs, Hr, He, length_app, length_map, length_seq.
    rewrite <- app_assoc, <- map_app, <- seq_app.
    repeat split; try lia. exact Hag2.
  - inversion H; subst. exists m1.
    repeat split; try assumption; try lia.
    intros Hrep; apply Hag, Hpos, Hrep.
Qed.

(** In a trial that returns, every score has its seed: the three lists have
    one length, the seeds are those of the first draws in order, at most
    [fuel * repetitions] of them, and no agent is left bound once a
    repetition has run. *)
Theorem returned_trial_bookkeeping : forall fuel slot runs v st,
  objective cfg stdy world fuel slot runs = Returned v st ->
  List.length (returns st) = List.length (seeds st) /\
  List.length (efficiencies st) = List.length (seeds st) /\
  seeds st = map (fun i => rep_seed (world i)) (seq 0 (List.length (seeds st))) /\
  (List.length (seeds st) <= fuel * repetitions cfg)%nat /\
  ((0 < repetitions cfg)%nat -> agent_slot st = None).
Proof.
  intros fuel slot runs v st H. unfold objective in H.
  destruct (objective_loop cfg stdy world fuel true PInf PInf (enter slot runs))
    as [r e st1| |] eqn:Hl; try discriminate.
  destruct (compose cfg r e); [|discriminate].
  inversion H; subst; clear H.
  destruct (objective_loop_bookkeeping _ _ _ _ _ _ _ _ Hl)
    as (m & Hs & Hr & He & Hm & Hag).
  simpl in *. rewrite Hs, Hr, He, length_map, length_seq.
  repeat split; try lia; assumption.
Qed.

End ObjectiveBookkeeping.

Lemma returned_trial_bookkeeping_witness :
  exists v st,
    objective (plain_cfg ["minimize"%string] ["performance"%string]) scenario_study
      (world_from [steady_agent 4; learn_fault_agent] (steady_agent 0)) 3 None 0
      = Returned v st /\
    List.length (returns st) = List.length (seeds st) /\
    agent_slot st = None.
Proof.
  destruct (objective (plain_cfg ["minimize"%string] ["performance"%string])
              scenario_study
              (world_from [steady_agent 4; learn_fault_agent] (steady_agent 0))
              3 None 0) as [v st| |] eqn:Ho; try (vm_compute in Ho; discriminate).
  destruct (returned_trial_bookkeeping _ _ _ _ _ _ _ _ Ho) as (H1 & _ & _ & _ & H5).
  exists v, st; repeat split; [exact H1 | apply H5; simpl; lia].
Defined.

Section ObjectiveOnePass.
Local Open Scope Q_scope.
Local Open Scope list_scope.

Variable cfg : hpo_config.
Variable stdy : study.
Variable world : nat -> repetition.

Lemma escalate_gate_closed : forall f Gs Gss,
  dynamical_runs cfg = false \/ (Z.of_nat (trials_len stdy) <= warm_trials cfg)%Z ->
  escalate cfg stdy f Gs Gss = false.
Proof.
  intros f Gs Gss [H|H]; unfold escalate.
  - rewrite H, andb_false_r. reflexivity.
  - destruct (Z.ltb_spec (warm_trials cfg) (Z.of_nat (trials_len stdy))); [lia|].
    reflexivity.
Qed.

Lemma objective_loop_one_pass : forall fuel st,
  dynamical_runs cfg = false \/ (Z.of_nat (trials_len stdy) <= warm_trials cfg)%Z ->
  objective_loop cfg stdy world (S fuel) true PInf PInf st
  = objective_loop cfg stdy world 1 true PInf PInf st /\
  objective_loop cfg stdy world 1 true PInf PInf st <> OutOfFuel.
Proof.
  intros fuel st Hgate; simpl.
  destruct (run_batch world (repetitions cfg) st) as [st1|? ?];
    [|split; [reflexivity | discriminate]].
  destruct (_compute_cvar (direction cfg) (returns st1) (alpha cfg)) as [r1|?];
    [|split; [reflexivity | discriminate]].
  destruct (_compute_cvar (direction cfg) (efficiencies st1) (alpha cfg)) as [e1|?];
    [|split; [reflexivity | discriminate]].
  rewrite (escalate_gate_closed true PInf r1 Hgate).
  split; [reflexivity | discriminate].
Qed.

(** When escalation is off ([dynamical_runs] false) or the study has no more
    than [warm_trials] trials, the objective runs exactly one batch: it ends
    whatever the fuel, and a returned trial drew at most [repetitions]
    seeds. *)
Theorem objective_single_batch_without_escalation : forall fuel slot runs,
  dynamical_runs cfg = false \/ (Z.of_nat (trials_len stdy) <= warm_trials cfg)%Z ->
  objective cfg stdy world (S fuel) slot runs = objective cfg stdy world 1 slot runs /\
  objective cfg stdy world 1 slot runs <> Diverged /\
  forall v st, objective cfg stdy world 1 slot runs = Returned v st ->
               (List.length (seeds st) <= repetitions cfg)%nat.
Proof.
  intros fuel slot runs Hgate.
  destruct (objective_loop_one_pass fuel (enter slot runs) Hgate) as [Heq Hne].
  unfold objective. rewrite Heq.
  repeat split.
  - destruct (objective_loop cfg stdy world 1 true PInf PInf (enter slot runs));
      try congruence; try discriminate.
    destruct (compose cfg Gss_rew Gss_eff); discriminate.
  - intros v st H.
    destruct (returned_trial_bookkeeping cfg stdy world 1 slot runs v st) as (_ & _ & _ & Hm & _).
    + exact H.
    + lia.
Qed.

(** The objective names are read only after the repetitions have run: when
    the list names neither "performance" nor "efficiency" the call never
    returns a value, and once the loop has finalized it raises [ValueError]
    with every score of the trial already computed. *)
Theorem objective_names_checked_after_runs : forall fuel slot runs,
  mentions "performance" (cfg_objective cfg) = false ->
  mentions "efficiency" (cfg_objective cfg) = false ->
  (forall v st, objective cfg stdy world fuel slot runs <> Returned v st) /\
  (forall r e st,
     objective_loop cfg stdy world fuel true PInf PInf (enter slot runs)
       = Finalized r e st ->
     objective cfg stdy world fuel slot runs
       = Failed ValueError (add_log (LogCVaR r) st) /\
     List.length (returns st) = List.length (seeds st)).
Proof.
  intros fuel slot runs Hp He.
  assert (Hc : forall r e, compose cfg r e = Raise ValueError).
  { intros r e; unfold compose; rewrite Hp, He; reflexivity. }
  split.
  - intros v st; unfold objective.
    destruct (objective_loop cfg stdy world fuel true PInf PInf (enter slot runs));
      try discriminate.
    rewrite Hc; discriminate.
  - intros r e st Hl; unfold objective; rewrite Hl, Hc. split; [reflexivity|].
    destruct (objective_loop_bookkeeping _ _ _ _ _ _ _ _ _ _ _ Hl)
      as (m & Hs & Hr & _).
    simpl in *. rewrite Hs, Hr, length_map, length_seq. reflexivity.
Qed.


End ObjectiveOnePass.

Lemma objective_single_batch_without_escalation_witness :
  objective (plain_cfg ["minimize"%string] ["performance"%string]) scenario_study
    (world_of (steady_agent 15)) 7 None 0
  = objective (plain_cfg ["minimize"%string] ["performance"%string]) scenario_study
      (world_of (steady_agent 15)) 1 None 0.
Proof.
  apply (objective_single_batch_without_escalation
           (plain_cfg ["minimize"%string] ["performance"%string]) scenario_study
           (world_of (steady_agent 15)) 6 None 0).
  left; reflexivity.
Defined.

Lemma objective_names_checked_after_runs_witness :
  ~ (exists v st,
       objective (plain_cfg ["minimize"%string] ["speed"%string]) scenario_study
         (world_of (steady_agent 15)) 1 None 0 = Returned v st).
Proof.
  intros (v & st & H).
  apply (proj1 (objective_names_checked_after_runs
                  (plain_cfg ["minimize"%string] ["speed"%string]) scenario_study
                  (world_of (steady_agent 15)) 1 None 0 eq_refl eq_refl) v st).
  exact H.
Defined.


Section EfficiencyFacts.
Local Open Scope Q_scope.
Local Open Scope list_scope.

Lemma np_where_ge_none : forall ms bound k,
  (forall m, In m ms -> m < bound) -> np_where_ge ms bound k = [].
Proof.
  induction ms as [|m ms IH]; intros bound k H; simpl; [reflexivity|].
  assert (Hm : m < bound) by (apply H; now left).
  destruct (Qle_bool bound m) eqn:E.
  - apply Qle_bool_iff in E. exfalso. now apply (Qlt_not_le m bound).
  - apply IH. intros x Hx; apply H; now right.
Qed.

Lemma np_where_ge_first : forall ms bound k i m,
  nth_error ms i = Some m -> bound <= m ->
  (forall j mj, (j < i)%nat -> nth_error ms j = Some mj -> mj < bound) ->
  exists rest, np_where_ge ms bound k = (k + i)%nat :: rest.
Proof.
  induction ms as [|x ms IH]; intros bound k i m Hi Hm Hbefore.
  - destruct i; discriminate.
  - destruct i as [|i]; simpl in Hi.
    + inversion Hi; subst x. simpl.
      apply Qle_bool_iff in Hm. rewrite Hm, Nat.add_0_r. eexists; reflexivity.
    + simpl.
      assert (Hx : x < bound) by (apply (Hbefore O x); [lia | reflexivity]).
      destruct (Qle_bool bound x) eqn:E.
      * apply Qle_bool_iff in E. exfalso. now apply (Qlt_not_le x bound).
      * destruct (IH bound (S k) i m Hi Hm) as [rest Hrest].
        { intros j mj Hj Hnth. apply (Hbefore (S j) mj); [lia | exact Hnth]. }
        exists rest. rewrite Hrest. f_equal. lia.
Qed.



End EfficiencyFacts.

(** ** Escalation with an agent that always returns the same value *)

Section ConstantReturns.
Local Open Scope Q_scope.
Local Open Scope list_scope.

Variable cfg : hpo_config.
Variable stdy : study.
Variable world : nat -> repetition.
Variable r : Q.

(** Every draw builds an agent that learns, runs and returns [r]. *)
Hypothesis steady : forall i, exists a reset_raises e,
  rep_make (world i) = Made a reset_raises /\
  learn_raises a = false /\ run_result a = Some r /\
  efficiency_of a r = Ok e.

Lemma run_repetition_steady : forall i st,
  exists st', run_repetition (world i) st = Continue st' /\
              returns st' = returns st ++ [r] /\
              List.length (seeds st') = S (List.length (seeds st)).
Proof.
  intros i st. destruct (steady i) as (a & rr & e & Hm & Hl & Hr & He).
  unfold run_repetition, construct; rewrite Hm.
  destruct rr; unfold learn_and_score; simpl; rewrite Hl, Hr, He;
    eexists; (split; [reflexivity|]); simpl; rewrite length_app; simpl;
    split; [reflexivity | lia | reflexivity | lia].
Qed.

Lemma run_batch_steady : forall n st,
  exists st', run_batch world n st = Completed st' /\
              returns st' = returns st ++ repeat r n /\
              List.length (seeds st') = (List.length (seeds st) + n)%nat.
Proof.
  induction n as [|n IH]; intros st; simpl.
  - exists st; rewrite app_nil_r; repeat split; lia.
  - destruct (run_repetition_steady (List.length (seeds st)) st) as (st1 & H1 & Hr1 & Hs1).
    rewrite H1. destruct (IH st1) as (st' & H' & Hr' & Hs').
    exists st'; split; [exact H'|]. rewrite Hr', Hr1, Hs', Hs1, <- app_assoc.
    split; [reflexivity | lia].
Qed.

Lemma cvar_of_constant : forall d0 ds l,
  l <> [] -> (forall x, In x l -> x = r) -> 0 <= alpha cfg ->
  exists m, _compute_cvar (d0 :: ds) l (alpha cfg) = Ok (Fin m) /\ m == r.
Proof.
  intros d0 ds l Hne Hall Ha.
  destruct (cvar_between_batch_extremes d0 ds l (alpha cfg) r r Hne Ha)
    as (m & Hm & H1 & H2).
  - intros x Hx; rewrite (Hall x Hx); split; apply Qle_refl.
  - exists m; split; [exact Hm | now apply Qle_antisym].
Qed.

Lemma cvar_never_raises : forall d0 ds l a,
  exists x, _compute_cvar (d0 :: ds) l a = Ok x.
Proof.
  intros d0 ds l a; unfold _compute_cvar.
  destruct (String.eqb d0 "minimize"); eexists; reflexivity.
Qed.


End ConstantReturns.


(** ** The training loop: budget and snapshot *)

Section TrainSnapshot.
Local Open Scope Q_scope.

Variable train_loss : nat -> Q.
Variable test_loss : nat -> Q.

Lemma train_body_snapshot : forall st,
  snapshot_inv test_loss st ->
  snapshot_inv test_loss (train_body train_loss test_loss st).
Proof.
  intros st Hinv. unfold train_body, snapshot_inv; simpl.
  destruct (Qltb (test_loss (it st)) (best_loss st)) eqn:E.
  - apply Qltb_true in E. right. exists (it st).
    destruct Hinv as [(Hn & Hb & Hall) | (e & He & Hlt & Hb & Hs & Hmin & Hfirst)].
    + rewrite Hb in E. repeat split; try lia; try assumption.
      * intros j Hj. destruct (Nat.eq_dec j (it st)) as [->|Hne]; [apply Qle_refl|].
        apply Qlt_le_weak. eapply Qlt_le_trans; [exact E | apply Hall; lia].
      * intros j Hj. eapply Qlt_le_trans; [exact E | apply Hall; lia].
    + rewrite Hb in E. repeat split; try lia.
      * eapply Qlt_trans; eassumption.
      * intros j Hj. destruct (Nat.eq_dec j (it st)) as [->|Hne]; [apply Qle_refl|].
        apply Qlt_le_weak. eapply Qlt_le_trans; [exact E | apply Hmin; lia].
      * intros j Hj. eapply Qlt_le_trans; [exact E | apply Hmin; lia].
  - apply Qltb_false in E.
    destruct Hinv as [(Hn & Hb & Hall) | (e & He & Hlt & Hb & Hs & Hmin & Hfirst)].
    + left. repeat split; try assumption.
      intros j Hj. destruct (Nat.eq_dec j (it st)) as [->|Hne].
      * now rewrite <- Hb.
      * apply Hall; lia.
    + right. exists e. repeat split; try assumption; try lia.
      intros j Hj. destruct (Nat.eq_dec j (it st)) as [->|Hne].
      * now rewrite <- Hb.
      * apply Hmin; lia.
Qed.

Lemma train_loop_snapshot : forall budget st,
  snapshot_inv test_loss st ->
  snapshot_inv test_loss (train_loop train_loss test_loss budget st).
Proof.
  induction budget as [|b IH]; intros st H; simpl; [exact H|].
  destruct (still_moving st); [|exact H].
  now apply IH, train_body_snapshot.
Qed.

Lemma train_loop_within_budget : forall budget st,
  (it st <= it (train_loop train_loss test_loss budget st) <= it st + budget)%nat.
Proof.
  induction budget as [|b IH]; intros st; simpl; [lia|].
  destruct (still_moving st); [|lia].
  specialize (IH (train_body train_loss test_loss st)); simpl in IH. lia.
Qed.

Lemma train_snapshot_holds : forall n_train,
  snapshot_inv test_loss (train train_loss test_loss n_train).
Proof.
  intros n; unfold train. apply train_loop_snapshot.
  left; simpl; repeat split. intros j Hj; lia.
Qed.

(** The snapshot that training reloads is the first iteration, among those
    run, whose held-out loss is the least (ties go to the first seen);
    nothing is saved when no held-out loss was below 99999999. *)
Theorem train_keeps_first_best_snapshot : forall n_train,
  snapshot_inv test_loss (train train_loss test_loss n_train).
Proof. exact train_snapshot_holds. Qed.

(** After the loop the code names [best_epoch]: the call raises
    [UnboundLocalError] exactly when no iteration that ran had a held-out
    loss below 99999999, in particular whenever [n_train] is 0. *)
Theorem train_without_snapshot_raises : forall n_train,
  (finish_train (train train_loss test_loss n_train) = Raise UnboundLocalError <->
   forall j, (j < it (train train_loss test_loss n_train))%nat ->
             99999999 <= test_loss j) /\
  (n_train = O ->
   finish_train (train train_loss test_loss n_train) = Raise UnboundLocalError).
Proof.
  intros n. pose proof (train_snapshot_holds n) as Hinv.
  split.
  - unfold finish_train.
    destruct Hinv as [(Hn & _ & Hall) | (e & He & Hlt & _ & Hs & _)].
    + rewrite Hn; split; [intros _; exact Hall | reflexivity].
    + rewrite He; split; [discriminate|].
      intros Hall. exfalso. apply (Qlt_not_le _ _ Hs). now apply Hall.
  - intros ->. reflexivity.
Qed.

(** The loop never runs more than [n_train] iterations, and it runs exactly
    [n_train] of them, whatever the losses do from one iteration to the
    next, as long as no training loss comes within 0.01 of 99999999. *)
Theorem train_iterations_against_budget : forall n_train,
  (it (train train_loss test_loss n_train) <= n_train)%nat /\
  ((forall j, (j < n_train)%nat ->
              Qltb (1 # 100) (Qabs (train_loss j - 99999999)) = true) ->
   it (train train_loss test_loss n_train) = n_train).
Proof.
  intros n; split.
  - pose proof (train_loop_within_budget n train_init) as H. simpl in H.
    unfold train. lia.
  - apply train_runs_all_iterations.
Qed.

End TrainSnapshot.

Lemma train_iterations_against_budget_witness :
  it (train (fun i => inject_Z (Z.of_nat i)) (fun _ => 1) 4) = 4%nat.
Proof.
  apply (proj2 (train_iterations_against_budget
                  (fun i => inject_Z (Z.of_nat i)) (fun _ => 1) 4)).
  intros j Hj.
  destruct j as [|[|[|[|j]]]]; try lia; reflexivity.
Defined.

Lemma train_without_snapshot_raises_witness :
  finish_train (train (fun _ => 1) (fun _ => 1) 0) = Raise UnboundLocalError.
Proof.
  apply (proj2 (train_without_snapshot_raises (fun _ => 1) (fun _ => 1) 0)).
  reflexivity.
Defined.

(** ** More on the kernels *)

Section KernelExtras.
Local Open Scope R_scope.
Local Open Scope list_scope.

Lemma matern_profile_at_most_one : forall a, 0 <= a ->
  (1 + a + a ^ 2 / 3) * exp (- a) <= 1.
Proof.
  intros a Ha. destruct (Req_dec a 0) as [->|Hne].
  - rewrite Ropp_0, exp_0. lra.
  - assert (Hpos : 0 < a) by lra.
    pose proof (matern_polynomial_below_exp a Hpos) as Hlt.
    pose proof (exp_pos (- a)) as Hm.
    assert (Hone : exp a * exp (- a) = 1).
    { rewrite <- exp_plus. replace (a + - a) with 0 by ring. apply exp_0. }
    assert ((1 + a + a ^ 2 / 3) * exp (- a) < exp a * exp (- a))
      by (apply Rmult_lt_compat_r; assumption).
    lra.
Qed.

(** Neither kernel exceeds the output scale: [sf2] is the largest
    covariance the model can assign to a pair of inputs. *)
Theorem kernels_bounded_by_output_scale : forall x z ell sf2,
  Forall (fun l => 0 < l) ell -> 0 < sf2 ->
  covSEard x z ell sf2 <= sf2 /\ covMatern52ard x z ell sf2 <= sf2.
Proof.
  intros x z ell sf2 Hell Hsf.
  pose proof (sum1_sq_nonneg x z ell Hell) as Hd.
  split.
  - unfold covSEard.
    assert (He : exp (- (5 / 10) * sum1_sq x z ell) <= 1).
    { rewrite <- exp_0.
      destruct (Req_dec (sum1_sq x z ell) 0) as [->|Hne].
      - right. f_equal. ring.
      - left. apply exp_increasing. lra. }
    pose proof (exp_pos (- (5 / 10) * sum1_sq x z ell)). nra.
  - unfold covMatern52ard. rewrite matern_as_profile.
    assert (H5 : 0 < sqrt 5) by (apply sqrt_lt_R0; lra).
    pose proof (sqrt_pos (sum1_sq x z ell)) as Hr.
    assert (Ha : 0 <= sqrt 5 * sqrt (sum1_sq x z ell)) by (apply Rmult_le_pos; lra).
    pose proof (matern_profile_at_most_one _ Ha). nra.
Qed.

Lemma kernels_bounded_by_output_scale_witness :
  covSEard [1; 2] [0; 5] [1; 3] 2 <= 2 /\ covMatern52ard [1; 2] [0; 5] [1; 3] 2 <= 2.
Proof.
  apply (kernels_bounded_by_output_scale [1; 2] [0; 5] [1; 3] 2).
  - repeat constructor; lra.
  - lra.
Defined.

Lemma sum1_sq_shift : forall x z t ell,
  List.length t = List.length x -> List.length t = List.length z ->
  sum1_sq (vadd x t) (vadd z t) ell = sum1_sq x z ell.
Proof.
  induction x as [|xi x IH]; intros [|zi z] [|ti t] [|li ell] Hx Hz;
    simpl in Hx, Hz; try discriminate; cbn [vadd sum1_sq]; try reflexivity.
  rewrite IH by lia. f_equal. f_equal. ring.
Qed.

(** Both kernels are stationary: shifting the two inputs by the same vector
    leaves the covariance unchanged. *)
Theorem kernels_translation_invariant : forall x z t ell sf2,
  List.length t = List.length x -> List.length t = List.length z ->
  covSEard (vadd x t) (vadd z t) ell sf2 = covSEard x z ell sf2 /\
  covMatern52ard (vadd x t) (vadd z t) ell sf2 = covMatern52ard x z ell sf2.
Proof.
  intros x z t ell sf2 Hx Hz; unfold covSEard, covMatern52ard.
  now rewrite sum1_sq_shift.
Qed.

Lemma kernels_translation_invariant_witness :
  covSEard (vadd [1; 2] [3; 3]) (vadd [0; 5] [3; 3]) [1; 3] 2
  = covSEard [1; 2] [0; 5] [1; 3] 2.
Proof.
  apply (kernels_translation_invariant [1; 2] [0; 5] [3; 3] [1; 3] 2); reflexivity.
Defined.

End KernelExtras.

(** ** More on the collection *)

Section CollectionExtras.
Local Open Scope Q_scope.
Local Open Scope list_scope.

Variable load : nat -> single_gp -> result single_gp.

(** Every load succeeds and leaves both caches. *)
Hypothesis load_succeeds : forall d g, exists g' k kinv,
  load d g = Ok g' /\ gp_K_plus_noise g' = Some k /\ gp_K_plus_noise_inv g' = Some kinv.

Lemma load_all_short_mask : forall mask todo gp_ind,
  (gp_ind <= List.length mask)%nat ->
  (List.length mask < gp_ind + List.length todo)%nat ->
  snd (load_all load mask gp_ind todo) = Raise IndexError.
Proof.
  intros mask todo; induction todo as [|g todo IH]; intros k Hk0 Hlen; simpl in *.
  - lia.
  - destruct (nth_error mask k) as [d|] eqn:Hd; [|reflexivity].
    destruct (load_succeeds d g) as (g' & c & ci & Hl & Hc & Hci).
    rewrite Hl, Hc, Hci.
    assert (Hk : (k < List.length mask)%nat)
      by (apply nth_error_Some; congruence).
    specialize (IH (S k)).
    destruct (load_all load mask (S k) todo) as [rest [[ks kinvs]|e]]; simpl in *.
    + assert (H : Ok (ks, kinvs) = @Raise (list tensor * list tensor) IndexError)
        by (apply IH; lia).
      discriminate.
    + apply IH; lia.
Qed.

(** A collection with more GPs than entries in [target_mask] cannot be
    loaded: the call raises [IndexError] when it reaches the first GP
    without a mask entry, and the stacked caches stay as they were. *)
Theorem init_with_hyperparam_short_mask :
  forall train_inputs train_targets c n d rest m td rest',
    parallel c = false ->
    shape train_inputs = n :: d :: rest ->
    shape train_targets = m :: td :: rest' ->
    (List.length (target_mask c) < List.length (gp_list c))%nat ->
    fst (init_with_hyperparam load train_inputs train_targets c) = Raise IndexError /\
    K_plus_noise (snd (init_with_hyperparam load train_inputs train_targets c))
      = K_plus_noise c /\
    K_plus_noise_inv (snd (init_with_hyperparam load train_inputs train_targets c))
      = K_plus_noise_inv c.
Proof.
  intros ti tg c n d rest m td rest' Hp Hti Htg Hlen.
  unfold init_with_hyperparam, _init_properties; rewrite Hp, Hti, Htg; simpl.
  pose proof (load_all_short_mask (target_mask c) (gp_list c) 0) as H.
  destruct (load_all load (target_mask c) 0 (gp_list c)) as [gl [[ks kinvs]|e]];
    simpl in H.
  - assert (E : Ok (ks, kinvs) = @Raise (list tensor * list tensor) IndexError)
      by (apply H; lia).
    discriminate.
  - assert (E : e = IndexError).
    { assert (E' : @Raise (list tensor * list tensor) e = Raise IndexError)
        by (apply H; lia).
      now inversion E'. }
    subst e. simpl. repeat split.
Qed.

End CollectionExtras.

Lemma init_with_hyperparam_short_mask_witness :
  fst (init_with_hyperparam ready_loader one_point one_point
         (collection_of false [const_gp 1 (1 # 4); const_gp 2 (1 # 9)]
            (const_batch [] []) [0%nat]))
  = Raise IndexError.
Proof.
  apply (init_with_hyperparam_short_mask ready_loader) with
    (n := 1%nat) (d := 1%nat) (rest := @nil nat)
    (m := 1%nat) (td := 1%nat) (rest' := @nil nat).
  - intros d g. do 3 eexists. repeat split.
  - reflexivity.
  - reflexivity.
  - reflexivity.
  - simpl; lia.
Defined.

Lemma predict_rejects_many_points_witness :
  predict (fun _ => Raise RuntimeError)
    (collection_of false
       [ {| gp_predict := fun _ =>
              {| post_mean := {| shape := [2%nat]; data := [1; 2] |};
                 post_cov := {| shape := [2%nat; 2%nat]; data := [1; 0; 0; 1] |} |};
            gp_K_plus_noise := None; gp_K_plus_noise_inv := None |} ]
       (const_batch [] []) [0%nat])
    {| shape := [2%nat; 1%nat]; data := [0; 1] |}
  = Raise ValueError.
Proof.
  apply predict_rejects_many_points; [reflexivity|].
  eexists; split; [left; reflexivity | simpl; lia].
Defined.

Section InterpolationWitness.
Local Open Scope R_scope.
Local Open Scope list_scope.

Lemma closed_form_interpolates_up_to_noise_witness :
  exists g f,
    _compute_GP_covariances entrywise_inverse unit_gp [[0]] = Ok g /\
    make_casadi_prediction_func g [[0]] [2] = Ok f /\
    f [0] = 2 - noise g * nth 0 (matvec (model_K_plus_noise_inv g) [2]) 0.
Proof.
  eexists; eexists.
  split; [reflexivity|]. split; [reflexivity|].
  refine (closed_form_interpolates_up_to_noise
            entrywise_inverse unit_gp _ covSEard [[0]] [2] _ 0%nat
            eq_refl eq_refl eq_refl _ eq_refl _ eq_refl _).
  - repeat constructor.
  - cbn.
    assert (Hp : 0 < covSEard [0] [0] [1] 1).
    { unfold covSEard. apply Rmult_lt_0_compat; [lra | apply exp_pos]. }
    f_equal. f_equal. field. lra.
  - simpl; lia.
Defined.

End InterpolationWitness.

(** ** Perturbation: a chosen value outside the interval, a list value *)

Section PerturbEdges.
Local Open Scope Q_scope.
Local Open Scope list_scope.

Lemma shrink_right_stuck : forall fuel v hi dx,
  hi < v ->
  shrink_right 10 fuel (HFloat v) 0 hi dx (v + inject_Z (Z.of_nat 0) * dx) = Timeout.
Proof.
  induction fuel as [|fuel IH]; intros v hi dx Hv; simpl.
  - assert (E : Qltb hi (v + inject_Z 0 * dx) = true).
    { apply Qltb_true. change (inject_Z 0) with 0. lra. }
    now rewrite E.
  - assert (E : Qltb hi (v + inject_Z 0 * dx) = true).
    { apply Qltb_true. change (inject_Z 0) with 0. lra. }
    rewrite E. apply (IH v hi (dx / 10) Hv).
Qed.

(** A chosen value above the admissible interval is never brought back: the
    first candidate on the right is the chosen value itself, shrinking the
    step does not move it, and the [while] loop does not end, whatever fuel
    it is given. *)
Theorem perturb_float_above_interval_never_ends :
  forall fuel cfg bounds lo v hi,
    py_min (np_sort bounds) = Ok lo ->
    py_max (np_sort bounds) = Ok hi ->
    Qeq_bool (divisor cfg) 0 = false ->
    hi < v ->
    perturb_float fuel cfg bounds (HFloat v) = Timeout.
Proof.
  intros fuel cfg bounds lo v hi Hmin Hmax Hdiv Hv.
  unfold perturb_float, perturb_float_by; rewrite Hmin, Hmax, Hdiv.
  simpl first_of; cbv iota.
  rewrite Nat.add_1_r; simpl seq; cbn [right_loop].
  now rewrite shrink_right_stuck.
Qed.

Lemma perturb_float_above_interval_never_ends_witness :
  perturb_float 1000 (scenario_cfg ["minimize"%string] ["performance"%string] (1 # 2))
    [0; 1] (HFloat (3 # 2)) = Timeout.
Proof.
  apply (perturb_float_above_interval_never_ends 1000
           (scenario_cfg ["minimize"%string] ["performance"%string] (1 # 2))
           [0; 1] 0 (3 # 2) 1); reflexivity.
Defined.

Lemma right_loop_list_raises : forall fuel vs v hi dx m k i out,
  (k <= i < k + m)%nat ->
  (forall j, (k <= j < i)%nat -> v + inject_Z (Z.of_nat j) * dx <= hi) ->
  hi < v + inject_Z (Z.of_nat i) * dx ->
  right_loop 10 (S fuel) (HList vs) v hi (seq k m) dx out = Crash TypeError.
Proof.
  intros fuel vs v hi dx m; induction m as [|m IH]; intros k i out Hi Hbefore Hbad;
    [lia|].
  cbn [seq right_loop].
  destruct (Nat.eq_dec k i) as [->|Hne].
  - apply Qltb_true in Hbad. cbn [shrink_right]. now rewrite Hbad.
  - assert (Hok : v + inject_Z (Z.of_nat k) * dx <= hi) by (apply Hbefore; lia).
    apply Qltb_false in Hok. cbn [shrink_right]. rewrite Hok.
    apply (IH (S k) i); [lia | | exact Hbad].
    intros j Hj; apply Hbefore; lia.
Qed.

(** For a list-valued float hyperparameter the right loop cannot shrink its
    step: as soon as one of its candidates leaves the interval, the code
    adds a float to the list itself and raises [TypeError]. *)
Theorem perturb_float_list_raises_at_bound :
  forall fuel cfg bounds lo hi v vs i,
    py_min (np_sort bounds) = Ok lo ->
    py_max (np_sort bounds) = Ok hi ->
    Qeq_bool (divisor cfg) 0 = false ->
    (i <= side_perturb_num cfg)%nat ->
    (forall j, (j < i)%nat ->
       v + inject_Z (Z.of_nat j) * ((hi - lo) / divisor cfg / 10) <= hi) ->
    hi < v + inject_Z (Z.of_nat i) * ((hi - lo) / divisor cfg / 10) ->
    perturb_float (S fuel) cfg bounds (HList (v :: vs)) = Crash TypeError.
Proof.
  intros fuel cfg bounds lo hi v vs i Hmin Hmax Hdiv Hi Hbefore Hbad.
  unfold perturb_float, perturb_float_by; rewrite Hmin, Hmax, Hdiv.
  simpl first_of; cbv iota.
  assert (H : right_loop 10 (S fuel) (HList (v :: vs)) v hi
                 (seq 0 (side_perturb_num cfg + 1))
                 ((hi - lo) / divisor cfg / 10) [] = Crash TypeError).
  { apply (right_loop_list_raises fuel (v :: vs) v hi _ _ O i []);
      [clear - Hi; lia | | exact Hbad].
    intros j Hj; apply Hbefore; lia. }
  now rewrite H.
Qed.

Lemma perturb_float_list_raises_at_bound_witness :
  perturb_float 5 (scenario_cfg ["minimize"%string] ["performance"%string] (1 # 2))
    [0; 1] (HList [9 # 10; 9 # 10]) = Crash TypeError.
Proof.
  apply (perturb_float_list_raises_at_bound 4
           (scenario_cfg ["minimize"%string] ["performance"%string] (1 # 2))
           [0; 1] 0 1 (9 # 10) [9 # 10] 2%nat); try reflexivity.
  intros j Hj. destruct j as [|[|j]]; [| |lia]; unfold Qle; simpl; lia.
Defined.

End PerturbEdges.

(** ** Ranking and saving the best trials *)

Section SortByKey.
Local Open Scope list_scope.

Variable before : xfloat -> xfloat -> bool.
Variable key : frozen_trial -> xfloat.

Hypothesis before_total : forall t u,
  before (key t) (key u) = false -> before (key u) (key t) = true.
Hypothesis before_trans : forall t u w,
  before (key t) (key u) = true -> before (key u) (key w) = true ->
  before (key t) (key w) = true.

Lemma insert_by_perm : forall t l, Permutation (insert_by before key t l) (t :: l).
Proof.
  intros t l; induction l as [|u l IH]; simpl; [apply Permutation_refl|].
  destruct (before (key t) (key u)); [apply Permutation_refl|].
  eapply perm_trans; [apply perm_skip, IH | apply perm_swap].
Qed.

Lemma py_sort_by_perm : forall l, Permutation (py_sort_by before key l) l.
Proof.
  induction l as [|t l IH]; simpl; [constructor|].
  eapply perm_trans; [apply insert_by_perm | now apply perm_skip].
Qed.

Lemma insert_by_sorted : forall t l,
  StronglySorted (in_order before key) l -> StronglySorted (in_order before key) (insert_by before key t l).
Proof.
  intros t l; induction l as [|u l IH]; intros Hs; simpl.
  - constructor; constructor.
  - inversion Hs as [|? ? Hs' Hall]; subst.
    destruct (before (key t) (key u)) eqn:E.
    + constructor; [assumption|]. constructor; [exact E|].
      rewrite Forall_forall in *; intros w Hw.
      eapply before_trans; [exact E | now apply Hall].
    + constructor; [now apply IH|].
      rewrite Forall_forall in *; intros w Hw.
      apply (Permutation_in _ (insert_by_perm t l)) in Hw.
      destruct Hw as [<-|Hw]; [now apply before_total | now apply Hall].
Qed.

Lemma py_sort_by_sorted : forall l, StronglySorted (in_order before key) (py_sort_by before key l).
Proof.
  induction l as [|t l IH]; simpl; [constructor | now apply insert_by_sorted].
Qed.

Lemma sorted_pairwise : forall (l : list frozen_trial) i j ti tj,
  StronglySorted (in_order before key) l -> (i < j)%nat ->
  nth_error l i = Some ti -> nth_error l j = Some tj -> in_order before key ti tj.
Proof.
  induction l as [|u l IH]; intros i j ti tj Hs Hij Hi Hj;
    [destruct i; discriminate|].
  inversion Hs as [|? ? Hs' Hall]; subst.
  destruct j as [|j]; [lia|]. simpl in Hj.
  destruct i as [|i]; simpl in Hi.
  - inversion Hi; subst. rewrite Forall_forall in Hall.
    apply Hall. eapply nth_error_In; eassumption.
  - apply (IH i j); [assumption | lia | assumption | assumption].
Qed.

End SortByKey.

Section BestTrialFacts.
Local Open Scope Q_scope.
Local Open Scope list_scope.

Lemma value_key_not_nan : forall d0 t, _value_key d0 t <> NaN.
Proof.
  intros d0 t; unfold _value_key.
  destruct (trial_value t); [discriminate|].
  destruct (String.eqb d0 "minimize"); discriminate.
Qed.

Lemma xle_total : forall a b, a <> NaN -> b <> NaN ->
  xle a b = false -> xle b a = true.
Proof.
  intros [x| | |] [y| | |] Ha Hb H; try congruence; try reflexivity;
    try discriminate.
  unfold xle in *; simpl in *.
  apply negb_false_iff, Qltb_true in H.
  apply negb_true_iff, Qltb_false. now apply Qlt_le_weak.
Qed.

Lemma xle_trans : forall a b c, a <> NaN -> b <> NaN -> c <> NaN ->
  xle a b = true -> xle b c = true -> xle a c = true.
Proof.
  intros [x| | |] [y| | |] [z| | |] Ha Hb Hc H1 H2; try congruence;
    try reflexivity; try discriminate.
  unfold xle in *; simpl in *.
  apply negb_true_iff, Qltb_false in H1, H2.
  apply negb_true_iff, Qltb_false. eapply Qle_trans; eassumption.
Qed.

Lemma rank_trials_perm : forall d0 trials, Permutation (rank_trials d0 trials) trials.
Proof.
  intros d0 trials; unfold rank_trials.
  destruct (String.eqb d0 "minimize"); apply py_sort_by_perm.
Qed.

(** In the ranking no trial without a value stands before a trial with one,
    and of two trials with values the earlier one is no worse. *)
Lemma rank_trials_pairwise : forall d0 trials i j ti tj,
  (i < j)%nat ->
  nth_error (rank_trials d0 trials) i = Some ti ->
  nth_error (rank_trials d0 trials) j = Some tj ->
  (trial_value ti = None -> trial_value tj = None) /\
  (forall vi vj, trial_value ti = Some vi -> trial_value tj = Some vj ->
                 no_worse d0 vi vj).
Proof.
  intros d0 trials i j ti tj Hij Hi Hj.
  unfold rank_trials, no_worse in *.
  destruct (String.eqb d0 "minimize") eqn:Ed.
  - assert (Ho : in_order xle (_value_key d0) ti tj).
    { eapply sorted_pairwise; [apply py_sort_by_sorted | exact Hij | exact Hi | exact Hj].
      - intros t u. apply xle_total; apply value_key_not_nan.
      - intros t u w. apply xle_trans; apply value_key_not_nan. }
    unfold in_order, _value_key in Ho; rewrite Ed in Ho.
    split.
    + intros Hn; rewrite Hn in Ho.
      destruct (trial_value tj); [discriminate | reflexivity].
    + intros vi vj Hvi Hvj; rewrite Hvi, Hvj in Ho.
      unfold xle in Ho; simpl in Ho. now apply negb_true_iff, Qltb_false in Ho.
  - assert (Ho : in_order (fun a b => xle b a) (_value_key d0) ti tj).
    { eapply sorted_pairwise; [apply py_sort_by_sorted | exact Hij | exact Hi | exact Hj].
      - intros t u. apply xle_total; apply value_key_not_nan.
      - intros t u w H1 H2.
        eapply xle_trans; try apply value_key_not_nan; eassumption. }
    unfold in_order, _value_key in Ho; rewrite Ed in Ho.
    split.
    + intros Hn; rewrite Hn in Ho.
      destruct (trial_value tj); [discriminate | reflexivity].
    + intros vi vj Hvi Hvj; rewrite Hvi, Hvj in Ho.
      unfold xle in Ho; simpl in Ho. now apply negb_true_iff, Qltb_false in Ho.
Qed.

(** The ranking is a rearrangement of the trials in which the trials with a
    value come first, best first, and every trial without a value comes
    after them, for "minimize" and for any other direction alike. *)
Theorem ranking_best_first_valueless_last : forall d0 trials,
  Permutation (rank_trials d0 trials) trials /\
  forall i j ti tj,
    (i < j)%nat ->
    nth_error (rank_trials d0 trials) i = Some ti ->
    nth_error (rank_trials d0 trials) j = Some tj ->
    (trial_value ti = None -> trial_value tj = None) /\
    (forall vi vj, trial_value ti = Some vi -> trial_value tj = Some vj ->
                   no_worse d0 vi vj).
Proof.
  intros d0 trials; split; [apply rank_trials_perm | apply rank_trials_pairwise].
Qed.

End BestTrialFacts.

Section SaveBest.
Local Open Scope Q_scope.
Local Open Scope list_scope.

Lemma valued_prefix : forall l : list frozen_trial,
  (forall i j ti tj, (i < j)%nat -> nth_error l i = Some ti ->
     nth_error l j = Some tj -> trial_value ti = None -> trial_value tj = None) ->
  l = filter has_value l ++ filter (fun t => negb (has_value t)) l.
Proof.
  induction l as [|t l IH]; intros H; [reflexivity|].
  assert (Htail : forall i j ti tj, (i < j)%nat -> nth_error l i = Some ti ->
            nth_error l j = Some tj -> trial_value ti = None -> trial_value tj = None).
  { intros i j ti tj Hij Hi Hj. apply (H (S i) (S j)); [lia | exact Hi | exact Hj]. }
  simpl. destruct (has_value t) eqn:Ev; simpl.
  - f_equal. now apply IH.
  - assert (Hnone : forall u, In u l -> has_value u = false).
    { intros u Hu. apply In_nth_error in Hu; destruct Hu as [j Hj].
      unfold has_value in *.
      destruct (trial_value t) eqn:Et; [discriminate|].
      rewrite (H O (S j) t u); [reflexivity | lia | reflexivity | exact Hj | exact Et]. }
    assert (Hv : filter has_value l = []).
    { clear - Hnone. induction l as [|u l IH]; [reflexivity|]. simpl.
      rewrite (Hnone u (or_introl eq_refl)). apply IH.
      intros w Hw; apply Hnone; now right. }
    assert (Hn : filter (fun u => negb (has_value u)) l = l).
    { clear - Hnone. induction l as [|u l IH]; [reflexivity|]. simpl.
      rewrite (Hnone u (or_introl eq_refl)); simpl. f_equal. apply IH.
      intros w Hw; apply Hnone; now right. }
    now rewrite Hv, Hn.
Qed.

Lemma filter_length_perm : forall (f : frozen_trial -> bool) l l',
  Permutation l l' -> List.length (filter f l) = List.length (filter f l').
Proof.
  intros f l l' H; induction H; simpl.
  - reflexivity.
  - destruct (f x); simpl; lia.
  - destruct (f x), (f y); simpl; lia.
  - lia.
Qed.

Lemma save_each_valued : forall perturb l,
  Forall (fun t => has_value t = true) l ->
  save_each false perturb l = (l, Ok tt).
Proof.
  intros perturb l H; induction H as [|t l Ht Hl IH]; [reflexivity|].
  simpl. unfold has_value in Ht. destruct (trial_value t); [|discriminate].
  now rewrite IH.
Qed.

Lemma save_each_stops : forall perturb l t rest,
  Forall (fun t => has_value t = true) l -> has_value t = false ->
  save_each false perturb (l ++ t :: rest) = (l, Raise TypeError).
Proof.
  intros perturb l t rest H Ht; induction H as [|u l Hu Hl IH]; simpl.
  - unfold has_value in Ht. destruct (trial_value t); [discriminate | reflexivity].
  - unfold has_value in Hu. destruct (trial_value u); [|discriminate].
    now rewrite IH.
Qed.

Lemma filter_all : forall (f : frozen_trial -> bool) l,
  Forall (fun t => f t = true) (filter f l).
Proof.
  intros f l; induction l as [|t l IH]; simpl; [constructor|].
  destruct (f t) eqn:E; [constructor; assumption | assumption].
Qed.

(** Saving the [save_n_best_hps] best hyperparameter sets (without
    perturbation) writes them best first when that many trials have a
    value.  When fewer trials have a value than files are asked for, the
    trials with a value are written and the next file name, formatted from
    the value [None], raises [TypeError]. *)
Theorem save_best_needs_valued_trials : forall d0 n perturb trials,
  let k := Nat.min n (List.length trials) in
  let valued := filter has_value (rank_trials d0 trials) in
  List.length valued = List.length (filter has_value trials) /\
  ((k <= List.length valued)%nat ->
   save_best_hps d0 n false perturb trials = (firstn k valued, Ok tt)) /\
  ((List.length valued < k)%nat ->
   save_best_hps d0 n false perturb trials = (valued, Raise TypeError)).
Proof.
  intros d0 n perturb trials k valued.
  pose proof (rank_trials_perm d0 trials) as Hp.
  assert (Hsplit : rank_trials d0 trials
                   = valued ++ filter (fun t => negb (has_value t)) (rank_trials d0 trials)).
  { apply valued_prefix. intros i j ti tj Hij Hi Hj.
    apply (proj1 (rank_trials_pairwise d0 trials i j ti tj Hij Hi Hj)). }
  set (failed := filter (fun t => negb (has_value t)) (rank_trials d0 trials)) in *.
  assert (Hval : Forall (fun t => has_value t = true) valued) by apply filter_all.
  split; [apply filter_length_perm; exact Hp|].
  unfold save_best_hps; fold k; rewrite Hsplit.
  split; intros Hk.
  - rewrite firstn_app. replace (k - List.length valued)%nat with O by lia.
    rewrite firstn_O, app_nil_r.
    apply save_each_valued.
    apply Forall_forall; intros t Ht.
    rewrite Forall_forall in Hval. apply Hval.
    rewrite <- (firstn_skipn k valued). apply in_or_app; now left.
  - rewrite firstn_app, firstn_all2 by lia.
    assert (Hlen : List.length (rank_trials d0 trials) = List.length trials)
      by (apply Permutation_length; exact Hp).
    rewrite Hsplit, length_app in Hlen.
    destruct failed as [|t rest] eqn:Ef; [simpl in Hlen; lia|].
    assert (Ht : has_value t = false).
    { assert (Hin : In t (filter (fun t => negb (has_value t)) (rank_trials d0 trials))).
      { fold failed. rewrite Ef. now left. }
      apply filter_In in Hin. destruct Hin as [_ Hin].
      now apply negb_true_iff in Hin. }
    destruct (k - List.length valued)%nat as [|m] eqn:Em; [lia|].
    simpl firstn. now apply save_each_stops.
Qed.

End SaveBest.

Lemma ranking_best_first_valueless_last_witness :
  rank_trials "maximize"%string
    [ {| trial_value := Some 3; trial_params := [] |};
      {| trial_value := None; trial_params := [] |};
      {| trial_value := Some 7; trial_params := [] |} ]
  = [ {| trial_value := Some 7; trial_params := [] |};
      {| trial_value := Some 3; trial_params := [] |};
      {| trial_value := None; trial_params := [] |} ] /\
  no_worse "maximize"%string 7 3.
Proof.
  split; [reflexivity|].
  apply (proj2 (ranking_best_first_valueless_last "maximize"%string
           [ {| trial_value := Some 3; trial_params := [] |};
             {| trial_value := None; trial_params := [] |};
             {| trial_value := Some 7; trial_params := [] |} ])
         0%nat 1%nat
         {| trial_value := Some 7; trial_params := [] |}
         {| trial_value := Some 3; trial_params := [] |});
    try reflexivity. lia.
Defined.

Lemma save_best_needs_valued_trials_witness :
  save_best_hps "minimize"%string 2 false (fun _ => Ok tt)
    [ {| trial_value := None; trial_params := [] |};
      {| trial_value := Some 3; trial_params := [] |} ]
  = ([ {| trial_value := Some 3; trial_params := [] |} ], Raise TypeError).
Proof.
  apply (proj2 (proj2 (save_best_needs_valued_trials "minimize"%string 2
           (fun _ => Ok tt)
           [ {| trial_value := None; trial_params := [] |};
             {| trial_value := Some 3; trial_params := [] |} ]))).
  simpl; lia.
Defined.

(** ** Training the collection *)

Section CollectionTrainFacts.
Local Open Scope Q_scope.
Local Open Scope list_scope.

Variable fit : nat -> Q -> nat -> single_gp -> result single_gp.
Variable batch_fit : Q -> nat -> result (tensor * tensor).

Lemma fit_all_missing_rate : forall mask lr nt todo k j dj,
  (k <= j < k + List.length todo)%nat ->
  nth_error mask j = Some dj ->
  (List.length lr <= dj \/ List.length nt <= dj)%nat ->
  (forall i d l n g, (k <= i < j)%nat -> exists g' c ci,
      fit d l n g = Ok g' /\ gp_K_plus_noise g' = Some c /\
      gp_K_plus_noise_inv g' = Some ci) ->
  snd (fit_all fit mask lr nt k todo) = Raise IndexError.
Proof.
  intros mask lr nt todo; induction todo as [|g todo IH];
    intros k j dj Hj Hm Hbad Hfit; simpl in *; [lia|].
  destruct (nth_error mask k) as [d|] eqn:Hd; [|reflexivity].
  destruct (nth_error lr d) as [l|] eqn:Hl; [|reflexivity].
  destruct (nth_error nt d) as [n|] eqn:Hn; [|reflexivity].
  destruct (Nat.eq_dec k j) as [->|Hne].
  - exfalso. rewrite Hm in Hd; inversion Hd; subst d.
    assert (dj < List.length lr)%nat by (apply nth_error_Some; congruence).
    assert (dj < List.length nt)%nat by (apply nth_error_Some; congruence).
    lia.
  - destruct (Hfit k d l n g) as (g' & c & ci & Hg & Hc & Hci); [lia|].
    rewrite Hg, Hc, Hci.
    assert (Hrec : snd (fit_all fit mask lr nt (S k) todo) = Raise IndexError).
    { apply (IH (S k) j dj); [lia | assumption | assumption|].
      intros i d' l' n' g0 Hi. apply (Hfit i); lia. }
    destruct (fit_all fit mask lr nt (S k) todo) as [rest [[ks kinvs]|e]];
      simpl in *; [discriminate | exact Hrec].
Qed.

(** In per-dimension mode the learning rate and the iteration count of a GP
    are looked up at its target dimension: when some masked dimension has
    no entry in [learning_rate] or in [n_train], training raises
    [IndexError] on reaching that GP (the GPs before it are trained) and
    the stacked caches stay as they were.  With the default one-element
    lists this happens for every mask that holds a dimension other than 0. *)
Theorem train_needs_rate_for_each_masked_dimension :
  forall train_x train_y n_train learning_rate c n d rest m td rest' j dj,
    parallel c = false ->
    shape train_x = n :: d :: rest ->
    shape train_y = m :: td :: rest' ->
    (j < List.length (gp_list c))%nat ->
    nth_error (target_mask c) j = Some dj ->
    (List.length learning_rate <= dj \/ List.length n_train <= dj)%nat ->
    (forall d l n g, exists g' k ki,
        fit d l n g = Ok g' /\ gp_K_plus_noise g' = Some k /\
        gp_K_plus_noise_inv g' = Some ki) ->
    fst (collection_train fit batch_fit train_x train_y n_train learning_rate c)
      = Raise IndexError /\
    K_plus_noise (snd (collection_train fit batch_fit train_x train_y
                         n_train learning_rate c)) = K_plus_noise c.
Proof.
  intros tx ty nt lr c n d rest m td rest' j dj Hp Hx Hy Hj Hm Hbad Hfit.
  unfold collection_train, _init_properties; rewrite Hy, Hx; simpl; rewrite Hp.
  pose proof (fit_all_missing_rate (target_mask c) lr nt (gp_list c) 0 j dj) as H.
  destruct (fit_all fit (target_mask c) lr nt 0 (gp_list c)) as [gl [[ks kinvs]|e]];
    simpl in H.
  - assert (E : Ok (ks, kinvs) = @Raise (list tensor * list tensor) IndexError).
    { apply H; [lia | assumption | assumption|]. intros; apply Hfit. }
    discriminate.
  - assert (E : @Raise (list tensor * list tensor) e = Raise IndexError).
    { apply H; [lia | assumption | assumption|]. intros; apply Hfit. }
    inversion E; subst e. simpl. split; reflexivity.
Qed.

Lemma forallb_Qeq_witness : forall (a : Q) (l : list Q) i b,
  nth_error l i = Some b -> ~ b == a ->
  forallb (fun y => Qeq_bool y a) l = false.
Proof.
  intros a l; induction l as [|x l IH]; intros i b Hi Hne;
    [destruct i; discriminate|].
  simpl. destruct i as [|i]; simpl in Hi.
  - inversion Hi; subst x.
    destruct (Qeq_bool b a) eqn:E; [|reflexivity].
    apply Qeq_bool_iff in E; contradiction.
  - rewrite (IH i b Hi Hne). apply andb_false_r.
Qed.

(** In batched mode one learning rate serves all dimensions: a list holding
    two different rates is refused with [AssertionError] before anything is
    trained, and an empty list raises [IndexError]. *)
Theorem parallel_train_needs_one_rate :
  forall train_x train_y n_train learning_rate c n d rest m td rest',
    parallel c = true ->
    shape train_x = n :: d :: rest ->
    shape train_y = m :: td :: rest' ->
    ((exists a b i, nth_error learning_rate 0 = Some a /\
                    nth_error learning_rate i = Some b /\ ~ b == a) ->
     fst (collection_train fit batch_fit train_x train_y n_train learning_rate c)
       = Raise AssertionError /\
     K_plus_noise (snd (collection_train fit batch_fit train_x train_y
                          n_train learning_rate c)) = K_plus_noise c) /\
    (learning_rate = [] ->
     all_equal_first_nat n_train = true ->
     fst (collection_train fit batch_fit train_x train_y n_train learning_rate c)
       = Raise IndexError).
Proof.
  intros tx ty nt lr c n d rest m td rest' Hp Hx Hy.
  unfold collection_train, _init_properties; rewrite Hy, Hx; simpl; rewrite Hp.
  split.
  - intros (a & b & i & Ha & Hb & Hne).
    assert (E : all_equal_first_Q lr = false).
    { destruct lr as [|x lr]; [discriminate|].
      simpl in Ha; inversion Ha; subst x.
      unfold all_equal_first_Q. now apply (forallb_Qeq_witness a (a :: lr) i b). }
    rewrite E; simpl. split; reflexivity.
  - intros -> Hn. simpl. rewrite Hn. reflexivity.
Qed.

End CollectionTrainFacts.

Lemma train_needs_rate_for_each_masked_dimension_witness :
  fst (collection_train
         (fun _ _ _ g => ready_loader 0 g) (fun _ _ => Raise RuntimeError)
         one_point one_point [500%nat] [1 # 100]
         (collection_of false [const_gp 1 (1 # 4); const_gp 2 (1 # 9)]
            (const_batch [] []) [0%nat; 1%nat]))
  = Raise IndexError.
Proof.
  apply (train_needs_rate_for_each_masked_dimension
           (fun _ _ _ g => ready_loader 0 g) (fun _ _ => Raise RuntimeError))
    with (n := 1%nat) (d := 1%nat) (rest := @nil nat)
         (m := 1%nat) (td := 1%nat) (rest' := @nil nat) (j := 1%nat) (dj := 1%nat).
  - reflexivity.
  - reflexivity.
  - reflexivity.
  - simpl; lia.
  - reflexivity.
  - left; simpl; lia.
  - intros d l n g. do 3 eexists. repeat split.
Defined.

Lemma parallel_train_needs_one_rate_witness :
  fst (collection_train
         (fun _ _ _ g => ready_loader 0 g) (fun _ _ => Raise RuntimeError)
         one_point one_point [500%nat; 500%nat] [1 # 100; 1 # 10] batched_single)
  = Raise AssertionError.
Proof.
  apply (proj1 (parallel_train_needs_one_rate
                  (fun _ _ _ g => ready_loader 0 g) (fun _ _ => Raise RuntimeError)
                  one_point one_point [500%nat; 500%nat] [1 # 100; 1 # 10]
                  batched_single 1%nat 1%nat [] 1%nat 1%nat []
                  eq_refl eq_refl eq_refl)).
  exists (1 # 100), (1 # 10), 1%nat. repeat split.
  intros H; vm_compute in H; discriminate.
Defined.

(** ** The linearized symbolic model *)

Section LinearizationFacts.
Local Open Scope R_scope.
Local Open Scope list_scope.

Lemma dot_vsub_self : forall row x, dot row (vsub x x) = 0.
Proof.
  induction row as [|a row IH]; intros [|b x]; simpl; try reflexivity.
  rewrite IH; ring.
Qed.

Lemma vadd_zero_rows : forall (v : list R) (M : matrix) (x : list R),
  List.length M = List.length v ->
  vadd v (matvec M (vsub x x)) = v.
Proof.
  unfold matvec.
  induction v as [|a v IH]; intros [|row M] x H; simpl in *;
    try reflexivity; try discriminate.
  rewrite dot_vsub_self, IH by congruence.
  f_equal; ring.
Qed.

Lemma dot_vsub_split : forall row x1 x2 x,
  List.length x1 = List.length x -> List.length x2 = List.length x ->
  dot row (vsub x1 x) = dot row (vsub x2 x) + dot row (vsub x1 x2).
Proof.
  induction row as [|a row IH]; intros [|b1 x1] [|b2 x2] [|b x] H1 H2;
    simpl in *; try discriminate; try ring.
  rewrite (IH x1 x2 x) by congruence. ring.
Qed.

Lemma linearized_shift : forall (v w : list R) (M : matrix) (x1 x2 x : list R),
  List.length x1 = List.length x -> List.length x2 = List.length x ->
  vadd (vadd v (matvec M (vsub x1 x))) w
  = vadd (vadd (vadd v (matvec M (vsub x2 x))) w) (matvec M (vsub x1 x2)).
Proof.
  unfold matvec.
  intros v w M x1 x2 x H1 H2; revert v w.
  induction M as [|row M IH]; intros [|a v] [|b w]; simpl; try reflexivity.
  rewrite (IH v w), (dot_vsub_split row x1 x2 x H1 H2). f_equal; ring.
Qed.

(** The linearized dynamics and observation agree with the nonlinear ones
    at the linearization point, and the linearized dynamics are affine in
    the evaluation state with slope [dfdx]: moving [x_eval] from [x2] to
    [x1] adds [dfdx @ (x1 - x2)].  The Jacobians are taken to have one row
    per entry of the expression they differentiate. *)
Theorem linearization_exact_at_point_and_affine :
  forall jacobian_x jacobian_u dyn_eqn obs_eqn x u,
    let m := SymbolicModel jacobian_x jacobian_u dyn_eqn obs_eqn in
    List.length (dfdx m x u) = List.length (x_dot m x u) ->
    List.length (dfdu m x u) = List.length (x_dot m x u) ->
    List.length (dgdx m x u) = List.length (y_sym m x u) ->
    List.length (dgdu m x u) = List.length (y_sym m x u) ->
    fc_linear_func m x u x u = fc_func m x u /\
    g_linear_func m x u x u = g_func m x u /\
    (obs_eqn = None -> g_linear_func m x u x u = x) /\
    (forall x1 x2 u_eval,
        List.length x1 = List.length x -> List.length x2 = List.length x ->
        fc_linear_func m x1 u_eval x u
        = vadd (fc_linear_func m x2 u_eval x u)
               (matvec (dfdx m x u) (vsub x1 x2))).
Proof.
  intros jx ju f g x u m Hfx Hfu Hgx Hgu.
  assert (Hf : fc_linear_func m x u x u = fc_func m x u).
  { unfold m, SymbolicModel, linearized in *; simpl in *.
    rewrite (vadd_zero_rows (f x u) _ x Hfx).
    apply vadd_zero_rows; exact Hfu. }
  assert (Hg : g_linear_func m x u x u = g_func m x u).
  { unfold m, SymbolicModel, linearized in *; simpl in *.
    rewrite (vadd_zero_rows _ _ x Hgx).
    apply vadd_zero_rows; exact Hgu. }
  repeat split; try assumption.
  - intros ->. rewrite Hg. reflexivity.
  - intros x1 x2 ue H1 H2. unfold m, SymbolicModel, linearized; simpl.
    apply linearized_shift; assumption.
Qed.

End LinearizationFacts.

Lemma linearization_exact_at_point_and_affine_witness :
  fc_linear_func
    (SymbolicModel quadratic_jx quadratic_ju quadratic_dyn (Some quadratic_dyn))
    [3; 1]%R [2]%R [3; 1]%R [2]%R
  = fc_func
      (SymbolicModel quadratic_jx quadratic_ju quadratic_dyn (Some quadratic_dyn))
      [3; 1]%R [2]%R.
Proof.
  apply (linearization_exact_at_point_and_affine
           quadratic_jx quadratic_ju quadratic_dyn (Some quadratic_dyn)
           [3; 1]%R [2]%R);
    reflexivity.
Defined.

(** ** Integer hyperparameters are perturbed past their interval *)

Section CategoricalIntFacts.
Local Open Scope Z_scope.
Local Open Scope list_scope.

Lemma insert_Z_in : forall v l y, In y (insert_Z v l) <-> y = v \/ In y l.
Proof.
  intros v l y; induction l as [|a l IH]; simpl.
  - intuition.
  - destruct (v <=? a); simpl; rewrite ?IH; intuition.
Qed.

Lemma sorted_in : forall l y, In y (sorted l) <-> In y l.
Proof.
  induction l as [|a l IH]; intros y; simpl; [tauto|].
  unfold sorted in *; simpl. rewrite insert_Z_in, IH. intuition.
Qed.

Lemma argwhere_first_found : forall l v id,
  argwhere_first l v = Some id ->
  (id < List.length l)%nat /\ nth id l 0 = v.
Proof.
  induction l as [|a l IH]; intros v id H; simpl in *; [discriminate|].
  destruct (a =? v) eqn:E.
  - inversion H; subst. apply Z.eqb_eq in E. split; [lia | exact E].
  - destruct (argwhere_first l v) as [j|] eqn:Ej; [|discriminate].
    inversion H; subst. destruct (IH v j Ej). split; [lia | assumption].
Qed.

Lemma argwhere_first_missing : forall l v,
  argwhere_first l v = None -> ~ In v l.
Proof.
  induction l as [|a l IH]; intros v H Hin; simpl in *; [contradiction|].
  destruct (a =? v) eqn:E; [discriminate|].
  apply Z.eqb_neq in E.
  destruct (argwhere_first l v) eqn:Ej; [discriminate|].
  destruct Hin as [->|Hin]; [congruence | exact (IH v Ej Hin)].
Qed.

Lemma argmin_from_least : forall l best_i best i,
  exists m,
    (m = best /\ argmin_from best_i best i l = best_i \/
     exists k, (k < List.length l)%nat /\
               argmin_from best_i best i l = (i + k)%nat /\ nth k l 0 = m) /\
    m <= best /\ forall y, In y l -> m <= y.
Proof.
  induction l as [|a l IH]; intros bi b i; simpl.
  - exists b. split; [left; split; reflexivity|]. split; [lia | contradiction].
  - destruct (a <? b) eqn:E.
    + apply Z.ltb_lt in E.
      destruct (IH i a (S i)) as (m & [[-> Hr]|(k & Hk & Hr & Hm)] & Hle & Hall).
      * exists a. split.
        { right; exists 0%nat. repeat split; [lia | rewrite Hr; lia]. }
        split; [lia|]. intros y [<-|Hy]; [lia | now apply Hall].
      * exists m. split.
        { right; exists (S k). repeat split; [lia | rewrite Hr; lia | exact Hm]. }
        split; [lia|]. intros y [<-|Hy]; [lia | now apply Hall].
    + apply Z.ltb_ge in E.
      destruct (IH bi b (S i)) as (m & [[-> Hr]|(k & Hk & Hr & Hm)] & Hle & Hall).
      * exists b. split; [left; split; [reflexivity | exact Hr]|].
        split; [lia|]. intros y [<-|Hy]; [lia | now apply Hall].
      * exists m. split.
        { right; exists (S k). repeat split; [lia | rewrite Hr; lia | exact Hm]. }
        split; [lia|]. intros y [<-|Hy]; [lia | now apply Hall].
Qed.

Lemma np_argmin_least : forall l id,
  np_argmin l = Ok id ->
  (id < List.length l)%nat /\ forall y, In y l -> nth id l 0 <= y.
Proof.
  intros [|a l] id H; simpl in H; [discriminate|].
  inversion H; subst; clear H.
  destruct (argmin_from_least l 0%nat a 1%nat)
    as (m & [[-> Hr]|(k & Hk & Hr & Hm)] & Hle & Hall); rewrite Hr.
  - split; [simpl; lia|]. simpl. intros y [<-|Hy]; [lia | now apply Hall].
  - split; [simpl; lia|]. simpl. rewrite Hm.
    intros y [<-|Hy]; [lia | now apply Hall].
Qed.

Lemma chosen_index_nearest : forall interval v,
  interval <> [] ->
  exists id,
    chosen_index interval v = Ok id /\
    (id < List.length interval)%nat /\
    (In v interval -> nth id interval 0 = v) /\
    forall y, In y interval ->
      Z.abs (nth id interval 0 - v) <= Z.abs (y - v).
Proof.
  intros interval v Hne. unfold chosen_index.
  destruct (argwhere_first interval v) as [id|] eqn:E.
  - destruct (argwhere_first_found _ _ _ E) as [Hlt Hv].
    exists id. split; [reflexivity|]. split; [exact Hlt|].
    split; [intros _; exact Hv|].
    intros y _. rewrite Hv. replace (v - v) with 0 by ring. simpl. lia.
  - pose proof (argwhere_first_missing _ _ E) as Hmiss.
    destruct (np_argmin (map (fun y => Z.abs (y - v)) interval)) as [id|e] eqn:Ea.
    + destruct (np_argmin_least _ _ Ea) as [Hlt Hall].
      rewrite length_map in Hlt.
      exists id. split; [reflexivity|]. split; [exact Hlt|].
      split; [intros Hin; contradiction|].
      intros y Hy.
      specialize (Hall (Z.abs (y - v)) (in_map _ _ _ Hy)).
      rewrite (nth_indep _ 0 (Z.abs (0 - v))) in Hall
        by (rewrite length_map; exact Hlt).
      rewrite (map_nth (fun y => Z.abs (y - v))) in Hall. exact Hall.
    + destruct interval; [congruence | discriminate].
Qed.

Lemma right_int_value : forall interval base dx i,
  right_int interval base dx i = base + Z.of_nat i * dx.
Proof.
  intros [|y rest] base dx i; unfold right_int; [reflexivity|].
  destruct (_ <? _); reflexivity.
Qed.

Lemma left_int_value : forall interval base dx i,
  left_int interval base dx i = base - (Z.of_nat i + 1) * dx.
Proof.
  intros [|y rest] base dx i; unfold left_int; [reflexivity|].
  destruct (_ <? _); reflexivity.
Qed.

(** An integer hyperparameter (other than [max_env_steps]) with a non-empty
    list of admissible values is perturbed in steps of one around [base],
    the admissible value nearest to the chosen one (the chosen one itself if
    it is admissible): exactly the integers within [side_perturb_num] of
    [base] are written, whether admissible or not.  So when the chosen
    value is at least every admissible value and [side_perturb_num >= 1],
    a value above all admissible ones is written. *)
Theorem perturb_int_ignores_interval :
  forall side_perturb_num key rollout_batch_size rollout_steps categorical v,
    key <> "max_env_steps"%string ->
    categorical <> [] ->
    exists base written,
      perturb_int side_perturb_num key rollout_batch_size rollout_steps
        categorical v = Ok written /\
      In base categorical /\
      (In v categorical -> base = v) /\
      (forall y, In y categorical -> Z.abs (base - v) <= Z.abs (y - v)) /\
      (forall z, In z written <-> Z.abs (z - base) <= Z.of_nat side_perturb_num) /\
      List.length written = (2 * side_perturb_num + 1)%nat /\
      ((forall y, In y categorical -> y <= v) ->
       (1 <= side_perturb_num)%nat ->
       exists z, In z written /\ forall y, In y categorical -> y < z).
Proof.
  intros n key rbs rs cat v Hkey Hne.
  assert (Hs : sorted cat <> []).
  { destruct cat as [|a cat]; [congruence|]. intros E.
    assert (Hin : In a (sorted (a :: cat))) by (apply sorted_in; now left).
    rewrite E in Hin; contradiction. }
  destruct (chosen_index_nearest (sorted cat) v Hs)
    as (id & Hid & Hlt & Hv & Hnear).
  set (base := nth id (sorted cat) 0) in *.
  assert (Hdx : int_step key rbs rs = 1).
  { unfold int_step. destruct (String.eqb key "max_env_steps") eqn:E;
      [apply String.eqb_eq in E; contradiction | reflexivity]. }
  assert (Hbase : In base cat).
  { apply sorted_in. apply nth_In; exact Hlt. }
  assert (Hmem : forall z,
    In z (map (right_int (sorted cat) base 1) (seq 0 (n + 1))
          ++ map (left_int (sorted cat) base 1) (seq 0 n))
    <-> Z.abs (z - base) <= Z.of_nat n).
  { intros z. rewrite in_app_iff, !in_map_iff. split.
    - intros [(i & Hi & Hin)|(i & Hi & Hin)]; apply in_seq in Hin.
      + rewrite right_int_value in Hi. lia.
      + rewrite left_int_value in Hi. lia.
    - intros Hz. destruct (Z_le_gt_dec base z) as [Hge|Hlt'].
      + left. exists (Z.to_nat (z - base)). split.
        * rewrite right_int_value. lia.
        * apply in_seq. lia.
      + right. exists (Z.to_nat (base - z - 1)). split.
        * rewrite left_int_value. lia.
        * apply in_seq. lia. }
  exists base, (map (right_int (sorted cat) base 1) (seq 0 (n + 1))
                ++ map (left_int (sorted cat) base 1) (seq 0 n)).
  split; [unfold perturb_int; rewrite Hid, Hdx; reflexivity|].
  split; [exact Hbase|].
  split; [intros Hin; apply Hv; apply sorted_in; exact Hin|].
  split; [intros y Hy; apply Hnear; apply sorted_in; exact Hy|].
  split; [exact Hmem|].
  split; [rewrite length_app, !length_map, !length_seq; lia|].
  intros Hup Hn. exists (base + 1). split; [apply Hmem; lia|].
  intros y Hy.
  pose proof (Hnear y (proj2 (sorted_in cat y) Hy)) as H1.
  pose proof (Hup y Hy) as H2. pose proof (Hup base Hbase) as H3. lia.
Qed.

End CategoricalIntFacts.

Lemma perturb_int_ignores_interval_witness :
  exists base written,
    perturb_int 2 "hidden_dim" 4 250 [64; 32; 128]%Z 128%Z = Ok written /\
    In base [64; 32; 128]%Z /\ In 130%Z written.
Proof.
  destruct (perturb_int_ignores_interval 2 "hidden_dim" 4 250
              [64; 32; 128]%Z 128%Z) as (base & written & H & Hb & Hv & _ & Hm & _).
  - discriminate.
  - discriminate.
  - exists base, written. split; [exact H|]. split; [exact Hb|].
    apply Hm. rewrite (Hv (or_intror (or_intror (or_introl eq_refl)))).
    vm_compute. discriminate.
Defined.

(** ** The attributes of a [SymbolicModel] *)

Section SymbolicAttributeFacts.
Local Open Scope string_scope.
Local Open Scope list_scope.

Variable cs : casadi.

Lemma lookup_app_hit : forall (l d : attributes cs) n,
  In n (map fst l) -> lookup cs (l ++ d) n = lookup cs l n.
Proof.
  induction l as [|[k v] l IH]; intros d n Hin; simpl in *; [contradiction|].
  destruct (String.eqb_spec n k) as [_|Hne]; [reflexivity|].
  apply IH. destruct Hin as [->|Hin]; [congruence | exact Hin].
Qed.

Lemma lookup_app_miss : forall (l d : attributes cs) n,
  ~ In n (map fst l) -> lookup cs (l ++ d) n = lookup cs d n.
Proof.
  induction l as [|[k v] l IH]; intros d n Hin; simpl in *; [reflexivity|].
  destruct (String.eqb_spec n k) as [->|Hne]; [exfalso; apply Hin; now left|].
  apply IH. intros H; apply Hin; now right.
Qed.

Lemma lookup_nodup : forall (l : attributes cs) n v,
  NoDup (map fst l) -> In (n, v) l -> lookup cs l n = Some v.
Proof.
  induction l as [|[k w] l IH]; intros n v Hnd Hin; simpl in *; [contradiction|].
  inversion Hnd as [|? ? Hk Hnd']; subst.
  destruct Hin as [E|Hin].
  - inversion E; subst. rewrite String.eqb_refl. reflexivity.
  - destruct (String.eqb_spec n k) as [->|Hne].
    + exfalso. apply Hk. apply in_map_iff. exists (k, v). now split.
    + now apply IH.
Qed.

Lemma lookup_missing : forall (l : attributes cs) n,
  ~ In n (map fst l) -> lookup cs l n = None.
Proof.
  intros l n H. rewrite <- (app_nil_r l). rewrite lookup_app_miss by exact H.
  reflexivity.
Qed.

Lemma inject_funcs_clash : forall funcs (self : attributes cs),
  (exists name v, In (name, v) funcs /\ lookup cs self name <> None) ->
  inject_funcs cs funcs self = Raise AssertionError.
Proof.
  induction funcs as [|[k f] funcs IH]; intros self (name & v & Hin & Hl);
    simpl in *; [contradiction|].
  destruct (lookup cs self k) eqn:Ek; [reflexivity|].
  apply IH. destruct Hin as [E|Hin]; [inversion E; subst; congruence|].
  exists name, v. split; [exact Hin|]. unfold setattr; simpl.
  destruct (String.eqb name k); [discriminate | exact Hl].
Qed.

Lemma inject_funcs_fresh : forall funcs (self : attributes cs),
  NoDup (map fst funcs) ->
  (forall name, In name (map fst funcs) -> lookup cs self name = None) ->
  inject_funcs cs funcs self = Ok (rev funcs ++ self).
Proof.
  induction funcs as [|[k f] funcs IH]; intros self Hnd Hfresh; simpl in *;
    [reflexivity|].
  inversion Hnd as [|? ? Hk Hnd']; subst.
  rewrite (Hfresh k) by now left.
  rewrite IH.
  - unfold setattr. rewrite <- app_assoc. reflexivity.
  - exact Hnd'.
  - intros name Hin. unfold setattr; simpl.
    destruct (String.eqb_spec name k) as [->|_]; [contradiction|].
    apply Hfresh; now right.
Qed.

Lemma cons_onto : forall (p : string * value cs) t b d,
  t = b ++ d -> p :: t = (p :: b) ++ d.
Proof. intros; subst; reflexivity. Qed.

Lemma after_funcs_prepends : forall cost x u xd y dt algo,
  exists built : attributes cs,
    map fst built = rev late_names /\
    forall self,
      lookup cs self "x_sym" = Some x ->
      lookup cs self "u_sym" = Some u ->
      lookup cs self "x_dot" = Some xd ->
      lookup cs self "y_sym" = Some y ->
      lookup cs self "dt" = Some dt ->
      lookup cs self "integration_algo" = Some algo ->
      after_funcs cs cost self = Ok (built ++ self).
Proof.
  intros cost x u xd y dt algo. eexists. split.
  2:{ intros self Hx Hu Hxd Hy Hdt Halgo.
      remember (after_funcs cs cost self) as r eqn:E.
      unfold after_funcs, setup_model, setup_linearization, statements,
        linear_about, assign, Function, integrator, vertcat, call1, call2,
        attr, const, getattr, setattr in E.
      repeat (progress (cbn in E; rewrite ?Hx, ?Hu, ?Hxd, ?Hy, ?Hdt, ?Halgo in E)).
      subst r. f_equal.
      repeat (apply cons_onto).
      exact (eq_refl ([] ++ self)). }
  reflexivity.
Qed.

Lemma before_funcs_sets : forall dynamics dt algo,
  exists y,
    before_funcs cs dynamics dt algo []
    = Ok [("integration_algo", algo); ("dt", dt); ("y_sym", y);
          ("x_dot", dyn_eqn cs dynamics); ("u_sym", vars_U cs dynamics);
          ("x_sym", vars_X cs dynamics)].
Proof.
  intros [X U f [g|]] dt algo; eexists; reflexivity.
Qed.

Lemma key_of_rev : forall (l : attributes cs) n,
  In n (map fst (rev l)) <-> In n (map fst l).
Proof.
  intros l n. rewrite map_rev. symmetry. apply in_rev.
Qed.


End SymbolicAttributeFacts.


(** ** Gathering training samples *)

Section GatherFacts.
Local Open Scope nat_scope.
Local Open Scope list_scope.

Variable row : Type.

Lemma take_rows_transitions : forall (e : episode_run row) bound inds,
  (forall i, In i inds ->
     i < bound /\ S i < List.length (run_obs row e) /\
     i < List.length (run_action row e)) ->
  exists ts,
    take_rows row (run_obs row e) inds = Ok (map before_of ts) /\
    take_rows row (run_action row e) inds = Ok (map action_of ts) /\
    take_rows row (run_obs row e) (map S inds) = Ok (map after_of ts) /\
    Forall (fun t => exists i, i < bound /\ transition_of row e i t) ts /\
    List.length ts = List.length inds.
Proof.
  intros e bound; induction inds as [|i inds IH]; intros H.
  - exists []. repeat split; constructor.
  - destruct IH as (ts & Hx & Ha & Hn & Hall & Hlen).
    { intros j Hj. apply H. now right. }
    destruct (H i (or_introl eq_refl)) as (Hb & Ho & Hac).
    destruct (nth_error (run_obs row e) i) as [x|] eqn:Ex.
    2:{ apply nth_error_None in Ex. lia. }
    destruct (nth_error (run_action row e) i) as [a|] eqn:Ea.
    2:{ apply nth_error_None in Ea. lia. }
    destruct (nth_error (run_obs row e) (S i)) as [x'|] eqn:Ex'.
    2:{ apply nth_error_None in Ex'. lia. }
    exists ((x, a, x') :: ts). cbn [take_rows map].
    rewrite Ex, Ea, Ex', Hx, Ha, Hn. cbn [bind].
    repeat split; try reflexivity.
    + constructor; [|exact Hall]. exists i. split; [exact Hb|].
      unfold transition_of; simpl. repeat split; assumption.
    + simpl. now rewrite Hlen.
Qed.

Lemma episode_samples_first : forall per (e : episode_run row),
  List.length (run_action row e) <= List.length (run_obs row e) ->
  exists ts,
    episode_samples row None per e
      = Ok (map before_of ts, map action_of ts, map after_of ts) /\
    Forall (fun t => exists i, i < per /\ transition_of row e i t) ts /\
    List.length ts <= per.
Proof.
  intros per e Hlen. unfold episode_samples.
  destruct (per <? List.length (run_action row e)) eqn:E.
  - apply Nat.ltb_lt in E.
    destruct (take_rows_transitions e per (seq 0 per))
      as (ts & Hx & Ha & Hn & Hall & Hl).
    { intros i Hi. apply in_seq in Hi. lia. }
    exists ts. simpl. rewrite Hx; simpl. rewrite Ha; simpl. rewrite Hn; simpl.
    rewrite length_seq in Hl. repeat split; [exact Hall | lia].
  - apply Nat.ltb_ge in E.
    destruct (take_rows_transitions e per
                (seq 0 (List.length (run_action row e) - 1)))
      as (ts & Hx & Ha & Hn & Hall & Hl).
    { intros i Hi. apply in_seq in Hi. lia. }
    exists ts. simpl. rewrite Hx; simpl. rewrite Ha; simpl. rewrite Hn; simpl.
    rewrite length_seq in Hl. repeat split; [exact Hall | lia].
Qed.

Lemma gather_loop_first : forall per (es : list (episode_run row)),
  (forall e, In e es ->
     List.length (run_action row e) <= List.length (run_obs row e)) ->
  exists tss,
    gather_loop row None per es
      = Ok (map (map before_of) tss, map (map action_of) tss,
            map (map after_of) tss) /\
    Forall (fun t => exists e i, In e es /\ i < per /\ transition_of row e i t)
      (concat tss) /\
    List.length (concat tss) <= List.length es * per.
Proof.
  intros per; induction es as [|e es IH]; intros H.
  - exists []. repeat split; [constructor | simpl; lia].
  - destruct IH as (tss & Hg & Hall & Hl).
    { intros e' He'. apply H. now right. }
    destruct (episode_samples_first per e (H e (or_introl eq_refl)))
      as (ts & He & Ht & Hlt).
    exists (ts :: tss). simpl. rewrite He; simpl. rewrite Hg; simpl.
    repeat split.
    + apply Forall_app. split.
      * eapply Forall_impl; [|exact Ht].
        intros t (i & Hi & Htr). exists e, i.
        split; [now left|]. split; assumption.
      * eapply Forall_impl; [|exact Hall].
        intros t (e' & i & He' & Hi & Htr). exists e', i.
        split; [now right|]. split; assumption.
    + rewrite length_app. lia.
Qed.

(** Without a random generator and with at least as many observation rows
    as actions in every episode, [gather_training_samples] returns.  Its
    three outputs are aligned: row [k] of each is the observation before,
    the action of, and the observation after one and the same step of one
    episode, and that step is among the first
    [num_samples // n_episodes] steps of its episode.  No more than
    [num_samples] rows are gathered. *)
Theorem gather_takes_first_transitions :
  forall (episodes : list (episode_run row)) num_samples,
    episodes <> [] ->
    (forall e, In e episodes ->
       List.length (run_action row e) <= List.length (run_obs row e)) ->
    exists ts,
      gather_training_samples row episodes num_samples None
        = Ok (map before_of ts, map action_of ts, map after_of ts) /\
      Forall (fun t => exists e i,
                In e episodes /\
                i < num_samples / List.length episodes /\
                transition_of row e i t) ts /\
      List.length ts <= num_samples.
Proof.
  intros episodes num_samples Hne Hobs.
  assert (Hn : List.length episodes <> 0) by (destruct episodes; simpl; congruence).
  destruct (gather_loop_first (num_samples / List.length episodes) episodes Hobs)
    as (tss & Hg & Hall & Hl).
  exists (concat tss). unfold gather_training_samples.
  rewrite (proj2 (Nat.eqb_neq _ _) Hn), Hg; simpl.
  rewrite !concat_map. repeat split; [exact Hall|].
  pose proof (Nat.Div0.mul_div_le num_samples (List.length episodes)). lia.
Qed.

End GatherFacts.

Lemma gather_takes_first_transitions_witness :
  exists ts,
    gather_training_samples nat [two_step_episode] 1 None
      = Ok (map before_of ts, map action_of ts, map after_of ts) /\
    (List.length ts <= 1)%nat.
Proof.
  destruct (gather_takes_first_transitions nat [two_step_episode] 1%nat)
    as (ts & H & _ & Hl).
  - discriminate.
  - intros e [<-|[]]. simpl. lia.
  - exists ts. split; [exact H | exact Hl].
Defined.
